(** * ICTutor forum: thread assembly, quote composition and storage operations

    A shallow embedding of the reply-threading and quoting code of the
    thread page (client) and of the Firestore-backed storage layer
    (server), with the properties of the forum specification stated and
    settled against it. *)

From Stdlib Require Import ZArith String Ascii.
From stdpp Require Import gmap strings list fin_maps sorting.

Local Open Scope Z_scope.
Set Warnings "-clear-no-such-hyp".

(** ** Shared schema ([shared/schema.ts]) *)

(** [typeof users.$inferSelect]: the id is the identity provider's uid. *)
Module User.
Record t := mk {
  id : string;
  username : string;
  email : string;
}.
End User.

(** [typeof posts.$inferSelect & { replyCount?: number }].  Timestamps are
    held as the number that [new Date(createdAt).getTime()] yields. *)
Module Post.
Record t := mk {
  id : Z;
  title : string;
  content : string;
  category : string;
  authorId : string;
  createdAt : Z;
  upvotes : Z;
  downvotes : Z;
  solutionId : option Z;
  replyCount : option nat;
}.
End Post.

(** [typeof replies.$inferSelect]; [parentReplyId] is [number | null]. *)
Module Reply.
Record t := mk {
  id : Z;
  content : string;
  postId : Z;
  authorId : string;
  createdAt : Z;
  parentReplyId : option Z;
  upvotes : Z;
  downvotes : Z;
  isSolution : bool;
}.
End Reply.

(** [typeof votes.$inferSelect]: [voteType] is ["upvote"] or ["downvote"]. *)
Module Vote.
Record t := mk {
  id : Z;
  userId : string;
  postId : option Z;
  replyId : option Z;
  voteType : string;
}.
End Vote.

(** JavaScript truthiness of a [number | null | undefined] value: [null],
    [undefined] and [0] are falsy.  [truthy] returns the number when it is
    truthy. *)
Definition truthy (v : option Z) : option Z :=
  match v with
  | Some k => if k =? 0 then None else Some k
  | None => None
  end.

(** [x || 0] on a [number | null]. *)
Definition orZero (v : option Z) : Z := default 0 (truthy v).

(** ** Thread Assembler ([organizeRepliesIntoThreads], thread page) *)
Module Thread.
Import Reply.

(** The assembler works on [Reply[]]. *)
Abbreviation Reply := Reply.t.

(** The comparator handed to [Array.prototype.sort]. *)
Definition compareCreatedAt (a b : Reply) : Z := createdAt a - createdAt b.

(** [Array.prototype.sort] is a stable sort: an element stays in front of
    every later element that the comparator does not put strictly before
    it.  Insertion from the right end realises exactly that order. *)
Fixpoint insertReply (x : Reply) (l : list Reply) : list Reply :=
  match l with
  | [] => [x]
  | y :: l' =>
      if compareCreatedAt x y <=? 0 then x :: y :: l'
      else y :: insertReply x l'
  end.

Definition sortReplies (l : list Reply) : list Reply :=
  foldr insertReply [] l.

(** [replyMap[reply.id] = reply] for every reply, in order: a later reply
    with the same id overwrites an earlier one. *)
Definition buildReplyMap (sorted : list Reply) : gmap Z Reply :=
  foldl (fun m r => <[id r := r]> m) ∅ sorted.

(** [replyMap[k]?.parentReplyId], as a truthy id or nothing. *)
Definition parentOf (replyMap : gmap Z Reply) (k : Z) : option Z :=
  replyMap !! k ≫= fun r => truthy (parentReplyId r).

(** The ancestor-chasing loop
    [while (currentParentId && replyMap[currentParentId]?.parentReplyId)],
    on the pair [(currentParentId, topParentId)]; it yields the final
    [topParentId], or nothing when [fuel] iterations do not exhaust it. *)
Fixpoint chaseAncestor (fuel : nat) (replyMap : gmap Z Reply)
    (currentParentId topParentId : Z) : option Z :=
  match fuel with
  | O => None
  | S fuel' =>
      match truthy (Some currentParentId), parentOf replyMap currentParentId with
      | Some _, Some _ =>
          let next := orZero (replyMap !! currentParentId ≫= parentReplyId) in
          chaseAncestor fuel' replyMap next next
      | _, _ => Some topParentId
      end
  end.

(** [childReplies[k].push(reply)], creating the bucket when it is missing. *)
Definition pushChild (k : Z) (reply : Reply)
    (childReplies : gmap Z (list Reply)) : gmap Z (list Reply) :=
  <[k := default [] (childReplies !! k) ++ [reply]]> childReplies.

(** The body of the second [forEach], on the state
    [(topLevelReplies, childReplies)]. *)
Definition placeReply (fuel : nat) (replyMap : gmap Z Reply)
    (st : list Reply * gmap Z (list Reply)) (reply : Reply)
    : option (list Reply * gmap Z (list Reply)) :=
  let '(topLevelReplies, childReplies) := st in
  match truthy (parentReplyId reply) with
  | None => Some (topLevelReplies ++ [reply], childReplies)
  | Some pid =>
      match parentOf replyMap pid with
      | None => Some (topLevelReplies, pushChild pid reply childReplies)
      | Some _ =>
          match chaseAncestor fuel replyMap pid pid with
          | None => None
          | Some topParentId =>
              match truthy (Some topParentId) with
              | Some t => Some (topLevelReplies, pushChild t reply childReplies)
              | None => Some (topLevelReplies, childReplies)
              end
          end
      end
  end.

Fixpoint placeAll (fuel : nat) (replyMap : gmap Z Reply)
    (st : list Reply * gmap Z (list Reply)) (l : list Reply)
    : option (list Reply * gmap Z (list Reply)) :=
  match l with
  | [] => Some st
  | r :: l' =>
      match placeReply fuel replyMap st r with
      | None => None
      | Some st' => placeAll fuel replyMap st' l'
      end
  end.

Record Threads := mkThreads {
  topLevelReplies : list Reply;
  childReplies : gmap Z (list Reply);
  replyMap : gmap Z Reply;
}.

(** [organizeRepliesIntoThreads]; [None] stands for "the ancestor walk of
    some reply did not finish within [fuel] iterations". *)
Definition organizeRepliesIntoThreads (fuel : nat) (replies : list Reply)
    : option Threads :=
  let sortedReplies := sortReplies replies in
  let rm := buildReplyMap sortedReplies in
  match placeAll fuel rm ([], ∅) sortedReplies with
  | None => None
  | Some (top, children) =>
      Some (mkThreads (sortReplies top) (sortReplies <$> children) rm)
  end.

(** The bucket of an output: [None] names the top-level list, [Some k]
    names [childReplies[k]]. *)
Definition bucket (out : Threads) (b : option Z) : list Reply :=
  match b with
  | None => topLevelReplies out
  | Some k => default [] (childReplies out !! k)
  end.

(** All replies the output holds, bucket after bucket. *)
Definition allPlaced (out : Threads) : list Reply :=
  topLevelReplies out ++ concat (map_to_list (childReplies out)).*2.

(** [k] lies on the chain of parent references that starts at id [p]. *)
Inductive onChain (rm : gmap Z Reply) : Z -> Z -> Prop :=
  | onChain_here p : onChain rm p p
  | onChain_step p q k : parentOf rm p = Some q -> onChain rm q k -> onChain rm p k.

(** [n]-fold parent step. *)
Fixpoint ancestorAt (rm : gmap Z Reply) (n : nat) (k : Z) : option Z :=
  match n with
  | O => Some k
  | S n' => parentOf rm k ≫= ancestorAt rm n'
  end.

(** The parent references, as the assembler reads them through its
    [replyMap], contain a cycle through [k]. *)
Definition onCycle (rm : gmap Z Reply) (k : Z) : Prop :=
  exists n, ancestorAt rm (S n) k = Some k.

Definition cyclic (replies : list Reply) : Prop :=
  exists k, onCycle (buildReplyMap (sortReplies replies)) k.

Definition acyclic (replies : list Reply) : Prop := ~ cyclic replies.

(** An executable test for the absence of cycles: the walk from every
    reply's id ends within one more step than there are replies. *)
Definition acyclicb (replies : list Reply) : bool :=
  let rm := buildReplyMap (sortReplies replies) in
  forallb (fun r => bool_decide
            (is_Some (chaseAncestor (S (length replies)) rm (id r) (id r))))
          replies.

Definition ascending (l : list Reply) : Prop :=
  Sorted (fun a b => createdAt a <= createdAt b) l.

(** The replies a loop state holds, and its buckets. *)
Definition held (st : list Reply * gmap Z (list Reply)) : list Reply :=
  st.1 ++ concat (map_to_list st.2).*2.

Definition bucketOf (st : list Reply * gmap Z (list Reply)) (b : option Z)
    : list Reply :=
  match b with
  | None => st.1
  | Some k => default [] (st.2 !! k)
  end.

(** Where the assembler puts a reply: top level when it declares no
    parent, otherwise under the end of the chain of parent references
    that starts at the declared parent. *)
Definition placedIn (rm : gmap Z Reply) (r : Reply) (b : option Z) : Prop :=
  match b with
  | None => truthy (parentReplyId r) = None
  | Some k =>
      exists p, truthy (parentReplyId r) = Some p /\ onChain rm p k /\
                parentOf rm k = None
  end.

(** Every reply of the input is held by exactly one bucket of an output
    the assembler returns: nothing is lost or duplicated, and a children
    bucket is keyed by an id on the reply's chain of parent references. *)
Definition everyReplyInOneBucket (replies : list Reply) : Prop :=
  exists fuel out,
    organizeRepliesIntoThreads fuel replies = Some out /\
    allPlaced out ≡ₚ replies /\
    (forall r, r ∈ replies ->
       exists b, r ∈ bucket out b /\ forall b', r ∈ bucket out b' -> b' = b) /\
    (forall r k, r ∈ bucket out (Some k) ->
       exists p, truthy (parentReplyId r) = Some p /\ onChain (replyMap out) p k).

(** Every reply whose declared parent matches no reply of the input is in
    the top-level list of the output. *)
Definition orphansAreTopLevel (replies : list Reply) : Prop :=
  forall fuel out r,
    organizeRepliesIntoThreads fuel replies = Some out ->
    r ∈ replies ->
    (forall r', r' ∈ replies -> parentReplyId r <> Some (id r')) ->
    r ∈ topLevelReplies out.

(** Sample replies of the specification's example. *)
Definition sampleReply (i : Z) (parent : option Z) (t : Z) : Reply :=
  Reply.mk i "" 1 "u" t parent 0 0 false.

End Thread.


(** ** Quote Composer (the [createReply] mutation of the thread page)

    A JavaScript string is held as the sequence of its code units, here
    those below 256. *)
Module Quote.

Definition LF : ascii := "010"%char.
Definition newline : string := String LF EmptyString.

(** White space and line terminators that [String.prototype.trim] strips
    (tab, line feed, vertical tab, form feed, carriage return, space,
    no-break space). *)
Definition isWhiteSpace (c : ascii) : bool :=
  let n := nat_of_ascii c in
  ((9 <=? n)%nat && (n <=? 13)%nat) || (n =? 32)%nat || (n =? 160)%nat.

Fixpoint trimStart (s : string) : string :=
  match s with
  | EmptyString => EmptyString
  | String c s' => if isWhiteSpace c then trimStart s' else s
  end.

Fixpoint trimEnd (s : string) : string :=
  match s with
  | EmptyString => EmptyString
  | String c s' =>
      match trimEnd s' with
      | EmptyString => if isWhiteSpace c then EmptyString else String c EmptyString
      | t => String c t
      end
  end.

Definition trim (s : string) : string := trimEnd (trimStart s).

(** [s.includes(c)] for a one-character [c]. *)
Fixpoint includes (c : ascii) (s : string) : bool :=
  match s with
  | EmptyString => false
  | String d s' => Ascii.eqb d c || includes c s'
  end.

(** [line.startsWith(c)] for a one-character [c]. *)
Definition startsWith (c : ascii) (line : string) : bool :=
  match line with
  | EmptyString => false
  | String d _ => Ascii.eqb d c
  end.

(** [s.split(sep)] for a one-character [sep]. *)
Fixpoint split (sep : ascii) (s : string) : list string :=
  match s with
  | EmptyString => [EmptyString]
  | String c s' =>
      if Ascii.eqb c sep then EmptyString :: split sep s'
      else match split sep s' with
           | l :: ls => String c l :: ls
           | [] => [String c EmptyString]
           end
  end.

(** [lines.findIndex(p)], with [None] for [-1]. *)
Fixpoint findIndex (p : string -> bool) (lines : list string) : option nat :=
  match lines with
  | [] => None
  | l :: ls => if p l then Some O else S <$> findIndex p ls
  end.

(** The loop [while (quoteEndIndex + 1 < lines.length &&
    lines[quoteEndIndex + 1].startsWith('>')) quoteEndIndex++], where
    [rest] is [lines.slice(quoteEndIndex + 1)]. *)
Fixpoint scanQuoteEnd (rest : list string) (quoteEndIndex : nat) : nat :=
  match rest with
  | l :: rest' =>
      if startsWith ">" l then scanQuoteEnd rest' (S quoteEndIndex)
      else quoteEndIndex
  | [] => quoteEndIndex
  end.

(** "If this reply already contains a quote, extract just the reply
    part". *)
Definition stripQuote (replyText : string) : string :=
  if includes "@" replyText && includes ">" replyText then
    let lines := split LF replyText in
    match findIndex (startsWith ">") lines with
    | Some quoteStartIndex =>
        let quoteEndIndex :=
          scanQuoteEnd (drop (S quoteStartIndex) lines) quoteStartIndex in
        trim (String.concat newline (drop (S quoteEndIndex) lines))
    | None => replyText
    end
  else replyText.

(** "Limit the length of the quoted text". *)
Definition quoteText (replyText : string) : string :=
  if (100 <? String.length replyText)%nat
  then (substring 0 100 replyText ++ "...")%string
  else replyText.

(** The [replyTo] state of the page. *)
Record ReplyTo := mkReplyTo {
  id : Z;
  username : option string;
  content : option string;
}.

(** [replyTo.username || 'Unknown']. *)
Definition usernameOrUnknown (u : option string) : string :=
  match u with
  | Some EmptyString | None => "Unknown"
  | Some name => name
  end.

(** The [finalContent] that [createReply] posts. *)
Definition finalContent (replyTo : option ReplyTo)
    (replyMap : gmap Z Reply.t) (content : string) : string :=
  match replyTo with
  | Some rt =>
      match replyMap !! id rt with
      | Some replyObj =>
          ("@" ++ usernameOrUnknown (username rt) ++ ":" ++ newline ++
           "> " ++ quoteText (stripQuote (Reply.content replyObj)) ++
           newline ++ newline ++ content)%string
      | None => content
      end
  | None => content
  end.

(** The thread [A <- B <- C] of the quoting example: a reply record with
    the given id and body. *)
Definition replyWith (i : Z) (body : string) : Reply.t :=
  Reply.mk i body 1 "u" i None 0 0 false.

End Quote.

(** ** Storage layer ([FirestoreStorage], server)

    A Firestore collection is a finite map from document ids to
    documents.  Posts, replies and votes are stored under
    [id.toString()], users under their uid, so the collections are
    keyed by the number (by the uid for users). *)
Module Storage.

Record Db := mkDb {
  users : gmap string User.t;
  posts : gmap Z Post.t;
  replies : gmap Z Reply.t;
  votes : gmap Z Vote.t;
}.

Definition emptyDb : Db := mkDb ∅ ∅ ∅ ∅.

(** A storage method runs against the database and either returns or
    throws; writes made before a throw stay. *)
Inductive outcome (A : Type) : Type :=
  | Return (a : A)
  | Throw (message : string).
Arguments Return {A} a.
Arguments Throw {A} message.

Definition M (A : Type) : Type := Db -> outcome A * Db.

Definition ret {A} (a : A) : M A := fun db => (Return a, db).
Definition throw {A} (message : string) : M A := fun db => (Throw message, db).
Definition bind {A B} (m : M A) (k : A -> M B) : M B :=
  fun db =>
    match m db with
    | (Return a, db') => k a db'
    | (Throw e, db') => (Throw e, db')
    end.
Definition read {A} (f : Db -> A) : M A := fun db => (Return (f db), db).
Definition write (f : Db -> Db) : M unit := fun db => (Return tt, f db).

Notation "x <- m ;; k" := (bind m (fun x => k))
  (at level 100, m at level 99, k at level 200, right associativity).
Notation "m ;;; k" := (bind m (fun _ => k))
  (at level 100, k at level 200, right associativity).

Definition withUsers f (db : Db) := mkDb (f (users db)) (posts db) (replies db) (votes db).
Definition withPosts f (db : Db) := mkDb (users db) (f (posts db)) (replies db) (votes db).
Definition withReplies f (db : Db) := mkDb (users db) (posts db) (f (replies db)) (votes db).
Definition withVotes f (db : Db) := mkDb (users db) (posts db) (replies db) (f (votes db)).

(** Field updates, as [docRef.update({ field: value })] performs them. *)
Definition setUsername (v : string) (u : User.t) : User.t :=
  User.mk (User.id u) v (User.email u).
Definition setPostUpvotes (v : Z) (p : Post.t) : Post.t :=
  Post.mk (Post.id p) (Post.title p) (Post.content p) (Post.category p)
    (Post.authorId p) (Post.createdAt p) v (Post.downvotes p)
    (Post.solutionId p) (Post.replyCount p).
Definition setPostDownvotes (v : Z) (p : Post.t) : Post.t :=
  Post.mk (Post.id p) (Post.title p) (Post.content p) (Post.category p)
    (Post.authorId p) (Post.createdAt p) (Post.upvotes p) v
    (Post.solutionId p) (Post.replyCount p).
Definition setSolutionId (v : option Z) (p : Post.t) : Post.t :=
  Post.mk (Post.id p) (Post.title p) (Post.content p) (Post.category p)
    (Post.authorId p) (Post.createdAt p) (Post.upvotes p) (Post.downvotes p)
    v (Post.replyCount p).
Definition setReplyCount (v : option nat) (p : Post.t) : Post.t :=
  Post.mk (Post.id p) (Post.title p) (Post.content p) (Post.category p)
    (Post.authorId p) (Post.createdAt p) (Post.upvotes p) (Post.downvotes p)
    (Post.solutionId p) v.
Definition setReplyUpvotes (v : Z) (r : Reply.t) : Reply.t :=
  Reply.mk (Reply.id r) (Reply.content r) (Reply.postId r) (Reply.authorId r)
    (Reply.createdAt r) (Reply.parentReplyId r) v (Reply.downvotes r)
    (Reply.isSolution r).
Definition setReplyDownvotes (v : Z) (r : Reply.t) : Reply.t :=
  Reply.mk (Reply.id r) (Reply.content r) (Reply.postId r) (Reply.authorId r)
    (Reply.createdAt r) (Reply.parentReplyId r) (Reply.upvotes r) v
    (Reply.isSolution r).
Definition setIsSolution (v : bool) (r : Reply.t) : Reply.t :=
  Reply.mk (Reply.id r) (Reply.content r) (Reply.postId r) (Reply.authorId r)
    (Reply.createdAt r) (Reply.parentReplyId r) (Reply.upvotes r)
    (Reply.downvotes r) v.
Definition setVoteType (v : string) (x : Vote.t) : Vote.t :=
  Vote.mk (Vote.id x) (Vote.userId x) (Vote.postId x) (Vote.replyId x) v.

(** [docRef.update(...)]: fails when the document does not exist. *)
Definition updateDoc {A} (m : gmap Z A) (k : Z) (f : A -> A)
    : outcome (gmap Z A) :=
  match m !! k with
  | Some d => Return (<[k := f d]> m)
  | None => Throw "NOT_FOUND"
  end.

Definition updatePost (k : Z) (f : Post.t -> Post.t) : M unit :=
  fun db =>
    match updateDoc (posts db) k f with
    | Return m => (Return tt, withPosts (fun _ => m) db)
    | Throw e => (Throw e, db)
    end.
Definition updateReply (k : Z) (f : Reply.t -> Reply.t) : M unit :=
  fun db =>
    match updateDoc (replies db) k f with
    | Return m => (Return tt, withReplies (fun _ => m) db)
    | Throw e => (Throw e, db)
    end.
Definition updateVoteDoc (k : Z) (f : Vote.t -> Vote.t) : M unit :=
  fun db =>
    match updateDoc (votes db) k f with
    | Return m => (Return tt, withVotes (fun _ => m) db)
    | Throw e => (Throw e, db)
    end.

(** [query.limit(1).get()]: the first document of a snapshot, if any.
    Which of several matching documents comes first is left to the
    enumeration order of the map. *)
Definition firstDoc {K A} `{Countable K} (snapshot : gmap K A) : option A :=
  head (map_to_list snapshot).*2.

(** [collection.orderBy('id', 'desc').limit(1)]: a document whose [id]
    field is largest. *)
Fixpoint maxById {A} (getId : A -> Z) (docs : list A) : option A :=
  match docs with
  | [] => None
  | d :: docs' =>
      match maxById getId docs' with
      | None => Some d
      | Some e => if getId e <? getId d then Some d else Some e
      end
  end.

Definition lastDoc {A} (getId : A -> Z) (m : gmap Z A) : option A :=
  maxById getId (map_to_list m).*2.

(** [(last.id || 0) + 1] with [last = snapshot.empty ? { id: 0 } : docs[0]]. *)
Definition nextId {A} (getId : A -> Z) (m : gmap Z A) : Z :=
  orZero (Some (default 0 (getId <$> lastDoc getId m))) + 1.

(** [x || 0] on a counter. *)
Definition counter (v : Z) : Z := orZero (Some v).

(** *** Users *)

Definition getUser (id : string) : M (option User.t) :=
  read (fun db => users db !! id).

Definition getUserByUsername (username : string) : M (option User.t) :=
  read (fun db =>
    firstDoc (filter (fun kv => User.username kv.2 = username) (users db))).

Definition createUser (user : User.t) : M User.t :=
  write (withUsers (insert (User.id user) user)) ;;;
  ret user.

Definition updateUsername (userId username : string) : M User.t :=
  userDoc <- read (fun db => users db !! userId) ;;
  match userDoc with
  | None => throw "User not found"
  | Some user =>
      let updatedUser := setUsername username user in
      write (withUsers (insert userId updatedUser)) ;;;
      ret updatedUser
  end.

(** [try { m } catch (error) { handler }]. *)
Definition tryCatch {A} (m : M A) (handler : string -> M A) : M A :=
  fun db =>
    match m db with
    | (Return a, db') => (Return a, db')
    | (Throw e, db') => handler e db'
    end.

(** An HTTP response: the status and the JSON body, a message or a user. *)
Definition Response : Type := nat * (string + User.t).

(** [POST /api/users] ([server/routes.ts]): the body goes to createUser as
    it is. *)
Definition postUsers (body : User.t) : M Response :=
  tryCatch
    (user <- createUser body ;; ret (200%nat, inr user))
    (fun _ => ret (400%nat, inl "Invalid user data")).

(** [PATCH /api/users/:id/username] ([server/routes.ts]);
    [z.string().min(3).max(30)] throws on a name outside the bounds. *)
Definition patchUsername (id username : string) : M Response :=
  tryCatch
    (if ((3 <=? String.length username) && (String.length username <=? 30))%nat
     then
       existing <- getUserByUsername username ;;
       match existing with
       | Some _ => ret (400%nat, inl "Username already taken")
       | None =>
           user <- updateUsername id username ;;
           ret (200%nat, inr user)
       end
     else throw "ZodError")
    (fun _ => ret (400%nat, inl "Invalid username")).

(** *** Posts *)

(** [InsertPost & { authorId: string }]. *)
Record InsertPost := mkInsertPost {
  ip_title : string;
  ip_content : string;
  ip_category : string;
  ip_authorId : string;
}.

(** [now] is the value of [new Date()]. *)
Definition createPost (post : InsertPost) (now : Z) : M Post.t :=
  id <- read (fun db => nextId Post.id (posts db)) ;;
  let newPost :=
    Post.mk id (ip_title post) (ip_content post) (ip_category post)
      (ip_authorId post) now 0 0 None None in
  write (withPosts (insert id newPost)) ;;;
  ret newPost.

Definition getPost (id : Z) : M (option Post.t) :=
  read (fun db =>
    match posts db !! id with
    | None => None
    | Some post =>
        let repliesSnapshot :=
          filter (fun kv => Reply.postId kv.2 = Post.id post) (replies db) in
        Some (setReplyCount (Some (size repliesSnapshot)) post)
    end).

Definition deletePost (id : Z) (authorId : string) : M bool :=
  post <- getPost id ;;
  match post with
  | None => throw "Post not found"
  | Some post =>
      if negb (String.eqb (Post.authorId post) authorId)
      then throw "Unauthorized: You can only delete your own posts"
      else
        repliesSnapshot <- read (fun db =>
          filter (fun kv => Reply.postId kv.2 = id) (replies db)) ;;
        votesSnapshot <- read (fun db =>
          filter (fun kv => Vote.postId kv.2 = Some id) (votes db)) ;;
        (* batch.commit() *)
        write (fun db =>
          mkDb (users db) (delete id (posts db))
               (replies db ∖ repliesSnapshot) (votes db ∖ votesSnapshot)) ;;;
        ret true
  end.

(** *** Replies *)

(** [InsertReply & { authorId: string }]. *)
Record InsertReply := mkInsertReply {
  ir_content : string;
  ir_postId : Z;
  ir_parentReplyId : option Z;
  ir_authorId : string;
}.

Definition createReply (reply : InsertReply) (now : Z) : M Reply.t :=
  match truthy (Some (ir_postId reply)) with
  | None => throw "postId is required for creating a reply"
  | Some postId =>
      id <- read (fun db => nextId Reply.id (replies db)) ;;
      let newReply :=
        Reply.mk id (ir_content reply) postId (ir_authorId reply) now
          (truthy (ir_parentReplyId reply)) 0 0 false in
      write (withReplies (insert id newReply)) ;;;
      ret newReply
  end.

Definition getReply (id : Z) : M (option Reply.t) :=
  read (fun db => replies db !! id).

Definition deleteReply (id : Z) (authorId : string) : M bool :=
  reply <- getReply id ;;
  match reply with
  | None => throw "Reply not found"
  | Some reply =>
      if negb (String.eqb (Reply.authorId reply) authorId)
      then throw "Unauthorized: You can only delete your own replies"
      else
        match truthy (Some (Reply.postId reply)) with
        | Some postId =>
            post <- getPost postId ;;
            match post with
            | Some post =>
                if bool_decide (Post.solutionId post = Some id)
                then updatePost postId (setSolutionId None)
                else ret tt
            | None => ret tt
            end
        | None => ret tt
        end ;;;
        votesSnapshot <- read (fun db =>
          filter (fun kv => Vote.replyId kv.2 = Some id) (votes db)) ;;
        (* batch.commit() *)
        write (fun db =>
          mkDb (users db) (posts db) (delete id (replies db))
               (votes db ∖ votesSnapshot)) ;;;
        ret true
  end.

(** *** Votes *)

(** [InsertVote]; an absent [postId] or [replyId] is [None]. *)
Record InsertVote := mkInsertVote {
  iv_userId : string;
  iv_postId : option Z;
  iv_replyId : option Z;
  iv_voteType : string;
}.

Definition getVote (userId : string) (postId replyId : option Z)
    : M (option Vote.t) :=
  match truthy postId, truthy replyId with
  | Some p, _ =>
      read (fun db => firstDoc (filter
        (fun kv => Vote.userId kv.2 = userId /\ Vote.postId kv.2 = Some p)
        (votes db)))
  | None, Some r =>
      read (fun db => firstDoc (filter
        (fun kv => Vote.userId kv.2 = userId /\ Vote.replyId kv.2 = Some r)
        (votes db)))
  | None, None => throw "Either postId or replyId must be provided"
  end.

Definition isUpvote (voteType : string) : bool := String.eqb voteType "upvote".

Definition updateVote (voteId : Z) (voteType : string) : M Vote.t :=
  voteDoc <- read (fun db => votes db !! voteId) ;;
  match voteDoc with
  | None => throw "Vote not found"
  | Some vote =>
      (if negb (String.eqb (Vote.voteType vote) voteType) then
         match truthy (Vote.postId vote), truthy (Vote.replyId vote) with
         | Some postId, _ =>
             post <- getPost postId ;;
             match post with
             | Some post =>
                 (if isUpvote (Vote.voteType vote)
                  then updatePost postId
                         (setPostUpvotes (Z.max 0 (counter (Post.upvotes post) - 1)))
                  else updatePost postId
                         (setPostDownvotes (Z.max 0 (counter (Post.downvotes post) - 1)))) ;;;
                 (if isUpvote voteType
                  then updatePost postId (setPostUpvotes (counter (Post.upvotes post) + 1))
                  else updatePost postId (setPostDownvotes (counter (Post.downvotes post) + 1)))
             | None => ret tt
             end
         | None, Some replyId =>
             reply <- getReply replyId ;;
             match reply with
             | Some reply =>
                 (if isUpvote (Vote.voteType vote)
                  then updateReply replyId
                         (setReplyUpvotes (Z.max 0 (counter (Reply.upvotes reply) - 1)))
                  else updateReply replyId
                         (setReplyDownvotes (Z.max 0 (counter (Reply.downvotes reply) - 1)))) ;;;
                 (if isUpvote voteType
                  then updateReply replyId (setReplyUpvotes (counter (Reply.upvotes reply) + 1))
                  else updateReply replyId (setReplyDownvotes (counter (Reply.downvotes reply) + 1)))
             | None => ret tt
             end
         | None, None => ret tt
         end
       else ret tt) ;;;
      let updatedVote := setVoteType voteType vote in
      updateVoteDoc voteId (setVoteType voteType) ;;;
      ret updatedVote
  end.

Definition createVote (vote : InsertVote) : M Vote.t :=
  existingVote <- getVote (iv_userId vote) (iv_postId vote) (iv_replyId vote) ;;
  match existingVote with
  | Some existingVote =>
      if negb (String.eqb (Vote.voteType existingVote) (iv_voteType vote))
      then updateVote (Vote.id existingVote) (iv_voteType vote)
      else ret existingVote
  | None =>
      id <- read (fun db => nextId Vote.id (votes db)) ;;
      let newVote :=
        Vote.mk id (iv_userId vote) (truthy (iv_postId vote))
          (truthy (iv_replyId vote)) (iv_voteType vote) in
      write (withVotes (insert id newVote)) ;;;
      match truthy (iv_postId vote), truthy (iv_replyId vote) with
      | Some postId, _ =>
          post <- getPost postId ;;
          match post with
          | Some post =>
              if isUpvote (iv_voteType vote)
              then updatePost postId (setPostUpvotes (counter (Post.upvotes post) + 1))
              else updatePost postId (setPostDownvotes (counter (Post.downvotes post) + 1))
          | None => ret tt
          end
      | None, Some replyId =>
          reply <- getReply replyId ;;
          match reply with
          | Some reply =>
              if isUpvote (iv_voteType vote)
              then updateReply replyId (setReplyUpvotes (counter (Reply.upvotes reply) + 1))
              else updateReply replyId (setReplyDownvotes (counter (Reply.downvotes reply) + 1))
          | None => ret tt
          end
      | None, None => ret tt
      end ;;;
      ret newVote
  end.

(** *** Solutions *)

Definition markAsSolution (postId replyId : Z) : M unit :=
  post <- getPost postId ;;
  match post with
  | None => throw "Post not found"
  | Some post =>
      reply <- getReply replyId ;;
      match reply with
      | None => throw "Reply not found or does not belong to this post"
      | Some reply =>
          if negb (Reply.postId reply =? postId)
          then throw "Reply not found or does not belong to this post"
          else
            match truthy (Post.solutionId post) with
            | Some solutionId =>
                oldSolutionReply <- getReply solutionId ;;
                match oldSolutionReply with
                | Some oldSolutionReply =>
                    updateReply (Reply.id oldSolutionReply) (setIsSolution false)
                | None => ret tt
                end
            | None => ret tt
            end ;;;
            updateReply replyId (setIsSolution true) ;;;
            updatePost postId (setSolutionId (Some replyId))
      end
  end.

Definition removeSolution (postId : Z) : M unit :=
  post <- getPost postId ;;
  match post with
  | None => throw "Post not found"
  | Some post =>
      match truthy (Post.solutionId post) with
      | Some solutionId =>
          solutionReply <- getReply solutionId ;;
          match solutionReply with
          | Some solutionReply =>
              updateReply (Reply.id solutionReply) (setIsSolution false)
          | None => ret tt
          end ;;;
          updatePost postId (setSolutionId None)
      | None => ret tt
      end
  end.

(** *** Reachable states and their invariants *)

(** One call of a state-changing storage method with its arguments. *)
Inductive call : Type :=
  | CreateUser (user : User.t)
  | UpdateUsername (userId username : string)
  | CreatePost (post : InsertPost) (now : Z)
  | DeletePost (id : Z) (authorId : string)
  | CreateReply (reply : InsertReply) (now : Z)
  | DeleteReply (id : Z) (authorId : string)
  | CreateVote (vote : InsertVote)
  | UpdateVote (voteId : Z) (voteType : string)
  | MarkAsSolution (postId replyId : Z)
  | RemoveSolution (postId : Z).

(** The database after a call, whether the call returns or throws. *)
Definition exec (c : call) (db : Db) : Db :=
  match c with
  | CreateUser user => (createUser user db).2
  | UpdateUsername userId username => (updateUsername userId username db).2
  | CreatePost post now => (createPost post now db).2
  | DeletePost id authorId => (deletePost id authorId db).2
  | CreateReply reply now => (createReply reply now db).2
  | DeleteReply id authorId => (deleteReply id authorId db).2
  | CreateVote vote => (createVote vote db).2
  | UpdateVote voteId voteType => (updateVote voteId voteType db).2
  | MarkAsSolution postId replyId => (markAsSolution postId replyId db).2
  | RemoveSolution postId => (removeSolution postId db).2
  end.

Definition run (calls : list call) (db : Db) : Db :=
  foldl (fun db c => exec c db) db calls.

(** The states that sequences of calls reach from the empty database. *)
Definition reachable (db : Db) : Prop := exists calls, db = run calls emptyDb.

(** Every document sits under its own [id], and ids start at 1. *)
Definition keyed {A} (getId : A -> Z) (m : gmap Z A) : Prop :=
  forall k d, m !! k = Some d -> getId d = k /\ 1 <= k.

(** Every reply flagged as solution is the one its post references. *)
Definition flaggedIsReferenced (db : Db) : Prop :=
  forall k r, replies db !! k = Some r -> Reply.isSolution r = true ->
    exists p, posts db !! Reply.postId r = Some p /\ Post.solutionId p = Some k.

(** At most one reply of a post is flagged as solution. *)
Definition atMostOneSolution (db : Db) : Prop :=
  forall k1 k2 r1 r2,
    replies db !! k1 = Some r1 -> replies db !! k2 = Some r2 ->
    Reply.postId r1 = Reply.postId r2 ->
    Reply.isSolution r1 = true -> Reply.isSolution r2 = true -> k1 = k2.

Record wf (db : Db) : Prop := mkWf {
  wf_posts : keyed Post.id (posts db);
  wf_replies : keyed Reply.id (replies db);
  wf_votes : keyed Vote.id (votes db);
  wf_reply_post : forall k r, replies db !! k = Some r -> Reply.postId r <> 0;
  wf_solution : flaggedIsReferenced db;
}.

(** The tallies [(upvotes, downvotes)] of the target of a vote. *)
Definition tallies (db : Db) (postId replyId : option Z) : option (Z * Z) :=
  match truthy postId, truthy replyId with
  | Some p, _ =>
      (fun x => (Post.upvotes x, Post.downvotes x)) <$> posts db !! p
  | None, Some r =>
      (fun x => (Reply.upvotes x, Reply.downvotes x)) <$> replies db !! r
  | None, None => None
  end.

Definition validVoteType (voteType : string) : Prop :=
  voteType = "upvote" \/ voteType = "downvote".

(** A vote record as the data model has it: of one of the two types and
    on exactly one of a post and a reply. *)
Definition validVote (v : Vote.t) : Prop :=
  validVoteType (Vote.voteType v) /\
  (truthy (Vote.postId v) = None \/ truthy (Vote.replyId v) = None).

(** What createVote does to the vote records and to the tallies of an
    existing target, with [dec] the decrement applied to the tally of
    the old type on a switch: an identical vote changes nothing; a valid
    vote of the other type is retyped in place and one unit moves; with
    no vote, a vote is inserted under a fresh id and the matching tally
    grows by one. *)
Definition createVoteLaw (dec : Z -> Z) (db : Db) (vote : InsertVote) : Prop :=
  let db' := (createVote vote db).2 in
  let voteType := iv_voteType vote in
  forall up down,
    tallies db (iv_postId vote) (iv_replyId vote) = Some (up, down) ->
    match (getVote (iv_userId vote) (iv_postId vote) (iv_replyId vote) db).1 with
    | Return (Some existingVote) =>
        if String.eqb (Vote.voteType existingVote) voteType
        then db' = db
        else
          validVote existingVote ->
          votes db' = <[Vote.id existingVote := setVoteType voteType existingVote]>
                        (votes db) /\
          (exists stored,
             votes db' !! Vote.id existingVote = Some stored /\
             Vote.voteType stored = voteType /\
             Vote.id stored = Vote.id existingVote /\
             Vote.userId stored = Vote.userId existingVote /\
             Vote.postId stored = Vote.postId existingVote /\
             Vote.replyId stored = Vote.replyId existingVote) /\
          tallies db' (iv_postId vote) (iv_replyId vote) =
            Some (if isUpvote voteType then (up + 1, dec down)
                  else (dec up, down + 1))
    | Return None =>
        let id := nextId Vote.id (votes db) in
        votes db !! id = None /\
        votes db' = <[id := Vote.mk id (iv_userId vote) (truthy (iv_postId vote))
                             (truthy (iv_replyId vote)) voteType]> (votes db) /\
        tallies db' (iv_postId vote) (iv_replyId vote) =
          Some (if isUpvote voteType then (up + 1, down) else (up, down + 1))
    | Throw _ => False
    end.

(** The trace on which a vote outlives its reply: a post, a reply to it
    and an upvote on the reply; the post is deleted; a new post and a new
    reply take the ids 1 again. *)
Definition recycledReplyTrace : list call :=
  [CreatePost (mkInsertPost "t" "c" "hardware" "a") 10;
   CreateReply (mkInsertReply "r" 1 None "b") 11;
   CreateVote (mkInsertVote "u" None (Some 1) "upvote");
   DeletePost 1 "a";
   CreatePost (mkInsertPost "t2" "c2" "hardware" "a") 12;
   CreateReply (mkInsertReply "r2" 1 None "b") 13].

(** The post after a switch of a vote from [old] to [new]. *)
Definition switchedPost (old new : string) (post : Post.t) : Post.t :=
  (if isUpvote new
   then setPostUpvotes (Post.upvotes post + 1)
   else setPostDownvotes (Post.downvotes post + 1))
  ((if isUpvote old
    then setPostUpvotes (Z.max 0 (Post.upvotes post - 1))
    else setPostDownvotes (Z.max 0 (Post.downvotes post - 1))) post).

Definition switchedReply (old new : string) (reply : Reply.t) : Reply.t :=
  (if isUpvote new
   then setReplyUpvotes (Reply.upvotes reply + 1)
   else setReplyDownvotes (Reply.downvotes reply + 1))
  ((if isUpvote old
    then setReplyUpvotes (Z.max 0 (Reply.upvotes reply - 1))
    else setReplyDownvotes (Z.max 0 (Reply.downvotes reply - 1))) reply).

(** No two users share a display name. *)
Definition uniqueUsernames (db : Db) : Prop :=
  forall i j u v,
    users db !! i = Some u -> users db !! j = Some v ->
    User.username u = User.username v -> i = j.

(** A post, a reply to it and an upvote on the reply. *)
Definition votedReplyTrace : list call :=
  [CreatePost (mkInsertPost "t" "c" "hardware" "a") 10;
   CreateReply (mkInsertReply "r" 1 None "b") 11;
   CreateVote (mkInsertVote "u" None (Some 1) "upvote")].

(** A computation that keeps every well-formed database well-formed. *)
Definition preserves {A} (m : M A) : Prop := forall db, wf db -> wf (m db).2.

End Storage.

(** ** The reply cards of the thread page (the [Thread] component's render) *)
Module ThreadView.
Import Reply Thread.

(** The reply cards in the order the page renders them: every top-level
    reply, each followed by the cards of [childReplies[reply.id]] when
    that bucket exists. *)
Definition renderedReplies (out : Threads) : list Reply :=
  flat_map (fun reply => reply :: default [] (childReplies out !! id reply))
           (topLevelReplies out).


End ThreadView.

(** ** Display of a reply's content (the [ReplyCard] component) *)
Module Render.
Import Quote.

(** [s.indexOf(c)] for a one-character [c]: [-1] when [c] does not occur. *)
Fixpoint indexOf (c : ascii) (s : string) : Z :=
  match s with
  | EmptyString => -1
  | String d s' =>
      if Ascii.eqb d c then 0
      else let i := indexOf c s' in if i <? 0 then -1 else i + 1
  end.

(** [s.substring(start, end)]: an argument below 0 counts as 0, one above
    the length as the length, and the two are swapped when the first is
    the larger. *)
Definition jsSubstring (start finish : Z) (s : string) : string :=
  let len := Z.of_nat (String.length s) in
  let a := Z.max 0 (Z.min start len) in
  let b := Z.max 0 (Z.min finish len) in
  substring (Z.to_nat (Z.min a b)) (Z.to_nat (Z.max a b - Z.min a b)) s.

(** [s.substring(1)]. *)
Definition substringFrom1 (s : string) : string :=
  jsSubstring 1 (Z.of_nat (String.length s)) s.

(** What the card shows for a content: the text as it is, or the quote
    box (the quoted user, the quoted text) above the reply's own text;
    [TypeError] when evaluating the display throws. *)
Inductive view : Type :=
  | Plain (content : string)
  | Quoted (username : option string) (quotedText replyContent : string)
  | TypeError.

Definition renderContent (content : string) : view :=
  if includes "@" content && includes ">" content then
    let lines := split LF content in
    match findIndex (startsWith ">") lines with
    | Some quoteStartIndex =>
        (* [lines[quoteStartIndex - 1]] is [undefined] at index -1, and
           [usernameLine.startsWith] then throws *)
        match quoteStartIndex with
        | O => TypeError
        | S before =>
            match lines !! before with
            | None => TypeError
            | Some usernameLine =>
                let username :=
                  if startsWith "@" usernameLine
                  then Some (jsSubstring 1 (indexOf ":" usernameLine) usernameLine)
                  else None in
                let quoteEndIndex :=
                  scanQuoteEnd (drop (S quoteStartIndex) lines) quoteStartIndex in
                let replyContent :=
                  trim (String.concat newline (drop (S quoteEndIndex) lines)) in
                let quotedText :=
                  String.concat newline
                    ((fun line => trim (substringFrom1 line)) <$>
                     take (S quoteEndIndex - quoteStartIndex)
                          (drop quoteStartIndex lines)) in
                Quoted username quotedText replyContent
            end
        end
    | None => Plain content
    end
  else Plain content.

(** The body that the composer posts for a reply to [target] by the user
    [username]. *)
Definition composed (username : option string) (target : Reply.t)
    (content : string) : string :=
  finalContent (Some (mkReplyTo (Reply.id target) username
                        (Some (Reply.content target))))
               {[ Reply.id target := target ]} content.

End Render.

(** ** Further invariants of the stored data *)
Module Invariants.
Import Storage.

(** The reply that a post names as its solution is stored, is a reply
    to that post and carries the flag. *)
Definition referencedIsFlagged (db : Db) : Prop :=
  forall k p s, posts db !! k = Some p -> Post.solutionId p = Some s ->
    exists r, replies db !! s = Some r /\
              Reply.postId r = k /\ Reply.isSolution r = true.

(** No tally of a post or of a reply is negative. *)
Definition nonNegativeTallies (db : Db) : Prop :=
  (forall k p, posts db !! k = Some p ->
     0 <= Post.upvotes p /\ 0 <= Post.downvotes p) /\
  (forall k r, replies db !! k = Some r ->
     0 <= Reply.upvotes r /\ 0 <= Reply.downvotes r).

(** A user has at most one vote on a post. *)
Definition oneVotePerPost (db : Db) : Prop :=
  forall i j v w p,
    votes db !! i = Some v -> votes db !! j = Some w ->
    Vote.userId v = Vote.userId w ->
    Vote.postId v = Some p -> Vote.postId w = Some p -> i = j.

(** [p'] is [p] with other tallies, none of them negative unless it was
    before. *)
Definition tallyEdited (p p' : Post.t) : Prop :=
  p' = setPostUpvotes (Post.upvotes p') (setPostDownvotes (Post.downvotes p') p) /\
  (0 <= Post.upvotes p -> 0 <= Post.upvotes p') /\
  (0 <= Post.downvotes p -> 0 <= Post.downvotes p').

Definition tallyEditedReply (r r' : Reply.t) : Prop :=
  r' = setReplyUpvotes (Reply.upvotes r')
         (setReplyDownvotes (Reply.downvotes r') r) /\
  (0 <= Reply.upvotes r -> 0 <= Reply.upvotes r') /\
  (0 <= Reply.downvotes r -> 0 <= Reply.downvotes r').

(** The posts are as before, or one of them has other tallies. *)
Definition editedPosts (ps ps' : gmap Z Post.t) : Prop :=
  ps' = ps \/
  exists k p p', ps !! k = Some p /\ tallyEdited p p' /\ ps' = <[k := p']> ps.

Definition editedReplies (rs rs' : gmap Z Reply.t) : Prop :=
  rs' = rs \/
  exists k r r',
    rs !! k = Some r /\ tallyEditedReply r r' /\ rs' = <[k := r']> rs.

(** The votes are as before, or one vote has another type, or a vote of
    [userId] was stored under a fresh id, on a post only if the user had
    no vote on that post. *)
Definition editedVotes (userId : string) (vs vs' : gmap Z Vote.t) : Prop :=
  vs' = vs \/
  (exists i e t, vs !! i = Some e /\ vs' = <[i := setVoteType t e]> vs) \/
  (exists i v,
     vs !! i = None /\ Vote.userId v = userId /\
     (forall p j w, Vote.postId v = Some p -> vs !! j = Some w ->
        Vote.postId w = Some p -> Vote.userId w <> userId) /\
     vs' = <[i := v]> vs).

End Invariants.

(** ** The post card ([PostCard], client) *)
Module PostCard.

(** The score between the vote buttons:
    [(post.upvotes || 0) - (post.downvotes || 0)]. *)
Definition score (post : Post.t) : Z :=
  Storage.counter (Post.upvotes post) - Storage.counter (Post.downvotes post).

End PostCard.

(** ** The HTTP routes ([registerRoutes], server) *)
Module Api.
Import Storage.

(** The JSON body of a response. *)
Inductive json : Type :=
  | Message (message : string)
  | Failure (message details : string)
  | PostJson (post : Post.t)
  | ReplyJson (reply : Reply.t)
  | VoteJson (vote : Vote.t)
  | Success (success : bool).

(** A response: the status and the body. *)
Definition response : Type := nat * json.

(** A string field of a request is absent (or not a string), [None], or
    a string.  [!userId] holds for an absent and for an empty one. *)
Definition nonEmpty (field : option string) : option string :=
  match field with
  | Some EmptyString => None
  | other => other
  end.

(** [z.enum(["upvote", "downvote"])]. *)
Definition isVoteType (voteType : string) : bool :=
  String.eqb voteType "upvote" || String.eqb voteType "downvote".

(** [message.includes('Unauthorized')]. *)
Definition mentionsUnauthorized (message : string) : bool :=
  match String.index 0 "Unauthorized" message with
  | Some _ => true
  | None => false
  end.

(** [POST /api/posts]: [insertPostSchema] asks for the three strings;
    [authorId] is taken from the body as it is. *)
Definition postPosts (title content category : option string)
    (authorId : string) (now : Z) : M response :=
  tryCatch
    (match title, content, category with
     | Some title, Some content, Some category =>
         post <- createPost (mkInsertPost title content category authorId) now ;;
         ret (200%nat, PostJson post)
     | _, _, _ => throw "ZodError"
     end)
    (fun _ => ret (400%nat, Message "Invalid post data")).

(** [POST /api/posts/:id/replies], with [postId = Number(req.params.id)]. *)
Definition postReplies (postId : Z) (content : option string)
    (parentReplyId : option Z) (authorId : string) (now : Z) : M response :=
  tryCatch
    (post <- getPost postId ;;
     match post with
     | None => ret (404%nat, Message "Post not found")
     | Some _ =>
         match content with
         | Some content =>
             reply <- createReply
                        (mkInsertReply content postId parentReplyId authorId)
                        now ;;
             ret (200%nat, ReplyJson reply)
         | None => throw "ZodError"
         end
     end)
    (fun _ => ret (400%nat, Message "Invalid reply data")).

(** [POST /api/posts/:id/vote]. *)
Definition postPostVote (postId : Z) (userId voteType : option string)
    : M response :=
  tryCatch
    (post <- getPost postId ;;
     match post with
     | None => ret (404%nat, Message "Post not found")
     | Some _ =>
         match userId, voteType with
         | Some userId, Some voteType =>
             if isVoteType voteType then
               vote <- createVote (mkInsertVote userId (Some postId) None voteType) ;;
               ret (200%nat, VoteJson vote)
             else throw "ZodError"
         | _, _ => throw "ZodError"
         end
     end)
    (fun _ => ret (400%nat, Message "Invalid vote data")).

(** [GET /api/posts/:id/vote]; [postId] is [None] when
    [Number(req.params.id)] is [NaN]. *)
Definition getPostVote (postId : option Z) (userId : option string)
    : M response :=
  tryCatch
    (match nonEmpty userId with
     | None => ret (400%nat, Message "userId query parameter is required")
     | Some userId =>
         vote <- getVote userId postId None ;;
         match vote with
         | None => ret (404%nat, Message "Vote not found")
         | Some vote => ret (200%nat, VoteJson vote)
         end
     end)
    (fun message => ret (500%nat, Failure "Failed to retrieve vote" message)).

(** [POST /api/replies/:id/vote]. *)
Definition postReplyVote (replyId : Z) (userId voteType : option string)
    : M response :=
  tryCatch
    (reply <- getReply replyId ;;
     match reply with
     | None => ret (404%nat, Message "Reply not found")
     | Some _ =>
         match userId, voteType with
         | Some userId, Some voteType =>
             if isVoteType voteType then
               vote <- createVote (mkInsertVote userId None (Some replyId) voteType) ;;
               ret (200%nat, VoteJson vote)
             else throw "ZodError"
         | _, _ => throw "ZodError"
         end
     end)
    (fun _ => ret (400%nat, Message "Invalid vote data")).

(** [POST /api/posts/:postId/replies/:replyId/solution]. *)
Definition postSolution (postId replyId : Z) (userId : option string)
    : M response :=
  tryCatch
    (post <- getPost postId ;;
     match post with
     | None => ret (404%nat, Message "Post not found")
     | Some post =>
         if negb (bool_decide (Some (Post.authorId post) = userId))
         then ret (403%nat, Message "Only the post author can mark a solution")
         else
           markAsSolution postId replyId ;;;
           ret (200%nat, Success true)
     end)
    (fun _ => ret (400%nat, Message "Failed to mark solution")).

(** [DELETE /api/posts/:postId/solution]. *)
Definition deleteSolution (postId : Z) (userId : option string) : M response :=
  tryCatch
    (post <- getPost postId ;;
     match post with
     | None => ret (404%nat, Message "Post not found")
     | Some post =>
         if negb (bool_decide (Some (Post.authorId post) = userId))
         then ret (403%nat, Message "Only the post author can remove a solution")
         else
           removeSolution postId ;;;
           ret (200%nat, Success true)
     end)
    (fun _ => ret (400%nat, Message "Failed to remove solution")).

(** The [catch] of the two delete routes. *)
Definition deleteFailed (fallback message : string) : M response :=
  if mentionsUnauthorized message then ret (403%nat, Message message)
  else ret (500%nat,
            Message match message with
                    | EmptyString => fallback
                    | _ => message
                    end).

(** [DELETE /api/posts/:id]; [id] is [None] when [parseInt(req.params.id)]
    is [NaN]. *)
Definition deletePosts (id : option Z) (userId : option string) : M response :=
  tryCatch
    (match id with
     | None => ret (400%nat, Message "Invalid post ID")
     | Some postId =>
         match nonEmpty userId with
         | None => ret (401%nat, Message "User ID is required")
         | Some userId =>
             result <- deletePost postId userId ;;
             ret (200%nat, Success result)
         end
     end)
    (deleteFailed "Failed to delete post").

(** [DELETE /api/replies/:id]. *)
Definition deleteReplies (id : option Z) (userId : option string)
    : M response :=
  tryCatch
    (match id with
     | None => ret (400%nat, Message "Invalid reply ID")
     | Some replyId =>
         match nonEmpty userId with
         | None => ret (401%nat, Message "User ID is required")
         | Some userId =>
             result <- deleteReply replyId userId ;;
             ret (200%nat, Success result)
         end
     end)
    (deleteFailed "Failed to delete reply").

(** A request to one of the routes that write. *)
Inductive request : Type :=
  | PostUsers (body : User.t)
  | PatchUsername (id username : string)
  | PostPosts (title content category : option string) (authorId : string)
      (now : Z)
  | PostReplies (postId : Z) (content : option string)
      (parentReplyId : option Z) (authorId : string) (now : Z)
  | PostPostVote (postId : Z) (userId voteType : option string)
  | PostReplyVote (replyId : Z) (userId voteType : option string)
  | PostSolution (postId replyId : Z) (userId : option string)
  | DeleteSolution (postId : Z) (userId : option string)
  | DeletePosts (id : option Z) (userId : option string)
  | DeleteReplies (id : option Z) (userId : option string).

(** The database after a request is served. *)
Definition after (r : request) (db : Db) : Db :=
  match r with
  | PostUsers body => (postUsers body db).2
  | PatchUsername id username => (patchUsername id username db).2
  | PostPosts title content category authorId now =>
      (postPosts title content category authorId now db).2
  | PostReplies postId content parentReplyId authorId now =>
      (postReplies postId content parentReplyId authorId now db).2
  | PostPostVote postId userId voteType =>
      (postPostVote postId userId voteType db).2
  | PostReplyVote replyId userId voteType =>
      (postReplyVote replyId userId voteType db).2
  | PostSolution postId replyId userId =>
      (postSolution postId replyId userId db).2
  | DeleteSolution postId userId => (deleteSolution postId userId db).2
  | DeletePosts id userId => (deletePosts id userId db).2
  | DeleteReplies id userId => (deleteReplies id userId db).2
  end.

Definition serve (requests : list request) (db : Db) : Db :=
  foldl (fun db r => after r db) db requests.

(** The states that the routes reach from the empty database, the
    requests served one after another. *)
Definition served (db : Db) : Prop := exists requests, db = serve requests emptyDb.

(** The storage calls that the routes make, with what the route has
    checked before the call. *)
Inductive routed (db : Db) : call -> Prop :=
  | routed_createUser user : routed db (CreateUser user)
  | routed_updateUsername userId username :
      routed db (UpdateUsername userId username)
  | routed_createPost post now : routed db (CreatePost post now)
  | routed_createReply reply now :
      is_Some (posts db !! ir_postId reply) ->
      routed db (CreateReply reply now)
  | routed_votePost userId postId voteType :
      is_Some (posts db !! postId) -> validVoteType voteType ->
      routed db (CreateVote (mkInsertVote userId (Some postId) None voteType))
  | routed_voteReply userId replyId voteType :
      is_Some (replies db !! replyId) -> validVoteType voteType ->
      routed db (CreateVote (mkInsertVote userId None (Some replyId) voteType))
  | routed_markAsSolution postId replyId :
      routed db (MarkAsSolution postId replyId)
  | routed_removeSolution postId : routed db (RemoveSolution postId)
  | routed_deletePost id authorId : routed db (DeletePost id authorId)
  | routed_deleteReply id authorId : routed db (DeleteReply id authorId).

(** The number of stored votes of a type on a post. *)
Definition votesOn (votes : gmap Z Vote.t) (postId : Z) (voteType : string)
    : nat :=
  size (filter (fun kv : Z * Vote.t =>
                  Vote.postId kv.2 = Some postId /\ Vote.voteType kv.2 = voteType)
               votes).

(** The tallies of every post are the numbers of the votes on it. *)
Definition talliesCountVotes (db : Db) : Prop :=
  forall k p, posts db !! k = Some p ->
    Post.upvotes p = Z.of_nat (votesOn (votes db) k "upvote") /\
    Post.downvotes p = Z.of_nat (votesOn (votes db) k "downvote").

(** Every vote is an upvote or a downvote, and a vote on a post is on a
    stored post and on no reply. *)
Definition votesOnStoredPosts (db : Db) : Prop :=
  forall i v, votes db !! i = Some v ->
    validVoteType (Vote.voteType v) /\
    forall p, Vote.postId v = Some p ->
      is_Some (posts db !! p) /\ Vote.replyId v = None.

(** Every reply is a reply to a stored post. *)
Definition repliesOfStoredPosts (db : Db) : Prop :=
  forall k r, replies db !! k = Some r -> is_Some (posts db !! Reply.postId r).

(** [ps'] has the posts of [ps] with the same tallies. *)
Definition sameTallies (ps ps' : gmap Z Post.t) : Prop :=
  forall k,
    match ps' !! k with
    | Some p' =>
        exists p, ps !! k = Some p /\ Post.upvotes p' = Post.upvotes p /\
                  Post.downvotes p' = Post.downvotes p
    | None => ps !! k = None
    end.

End Api.

(** * Properties *)

Lemma truthy_Some v k : truthy v = Some k <-> v = Some k /\ k <> 0.
Proof.
  unfold truthy. destruct v as [j|]; [|split; [discriminate|intros [? _]; discriminate]].
  destruct (Z.eqb_spec j 0); split; intros Hj; try discriminate.
  - destruct Hj as [[= ->] ?]. contradiction.
  - injection Hj as ->. auto.
  - destruct Hj as [[= ->] ?]. reflexivity.
Qed.

Lemma truthy_None v : truthy v = None <-> v = None \/ v = Some 0.
Proof.
  unfold truthy. destruct v as [j|]; [|split; auto].
  destruct (Z.eqb_spec j 0) as [->|Hj]; split; auto; try discriminate.
  intros [?|[= ?]]; [discriminate|contradiction].
Qed.

Module ThreadFacts.
Import Reply Thread.

(** *** The stable sort *)

Lemma insertReply_perm x l : insertReply x l ≡ₚ x :: l.
Proof.
  induction l as [|y l IH]; simpl; [reflexivity|].
  destruct (compareCreatedAt x y <=? 0); [reflexivity|].
  rewrite IH. apply perm_swap.
Qed.

Lemma sortReplies_perm l : sortReplies l ≡ₚ l.
Proof.
  induction l as [|x l IH]; simpl; [reflexivity|].
  rewrite insertReply_perm. by rewrite IH.
Qed.

Lemma insertReply_hd x y l :
  createdAt y <= createdAt x ->
  HdRel (fun a b => createdAt a <= createdAt b) y l ->
  HdRel (fun a b => createdAt a <= createdAt b) y (insertReply x l).
Proof.
  intros Hyx Hhd. destruct l as [|z l]; simpl; [by constructor|].
  destruct (compareCreatedAt x z <=? 0); constructor; [done|].
  by inversion Hhd.
Qed.

Lemma insertReply_ascending x l : ascending l -> ascending (insertReply x l).
Proof.
  unfold ascending. induction 1 as [|y l Hs IH Hhd]; simpl.
  - repeat constructor.
  - unfold compareCreatedAt. destruct (Z.leb_spec (createdAt x - createdAt y) 0).
    + constructor; [by constructor|]. constructor. lia.
    + constructor; [done|]. apply insertReply_hd; [lia|done].
Qed.

Lemma sortReplies_ascending l : ascending (sortReplies l).
Proof.
  induction l as [|x l IH]; simpl; [constructor|].
  by apply insertReply_ascending.
Qed.

Lemma elem_of_sortReplies r l : r ∈ sortReplies l <-> r ∈ l.
Proof. by rewrite sortReplies_perm. Qed.

(** *** The reply map *)

Lemma lookup_foldl_insert (l : list Reply) (m : gmap Z Reply) k r :
  foldl (fun m r => <[id r := r]> m) m l !! k = Some r ->
  (r ∈ l /\ id r = k) \/ m !! k = Some r.
Proof.
  revert m. induction l as [|x l IH]; simpl; intros m Hk; [by right|].
  destruct (IH _ Hk) as [[Hin Hid]|Hm].
  - left. split; [by right|done].
  - destruct (decide (id x = k)) as [<-|Hne].
    + rewrite lookup_insert_eq in Hm. injection Hm as <-. left. split; [by left|done].
    + rewrite lookup_insert_ne in Hm by done. by right.
Qed.

Lemma lookup_buildReplyMap l k r :
  buildReplyMap l !! k = Some r -> r ∈ l /\ id r = k.
Proof.
  intros H. apply lookup_foldl_insert in H as [H|H]; [done|].
  by rewrite lookup_empty in H.
Qed.




Lemma size_foldl_insert (l : list Reply) (m : gmap Z Reply) :
  (size (foldl (fun m r => <[id r := r]> m) m l) <= size m + length l)%nat.
Proof.
  revert m. induction l as [|x l IH]; simpl; intros m; [lia|].
  etrans; [apply IH|].
  destruct (m !! id x) as [y|] eqn:Hx.
  - rewrite map_size_insert_Some by eauto. lia.
  - rewrite map_size_insert_None by done. lia.
Qed.

Lemma size_buildReplyMap l : (size (buildReplyMap l) <= length l)%nat.
Proof.
  unfold buildReplyMap. etrans; [apply size_foldl_insert|].
  rewrite map_size_empty. lia.
Qed.

(** *** Parent chains *)

Lemma parentOf_Some rm k q :
  parentOf rm k = Some q ->
  exists r, rm !! k = Some r /\ parentReplyId r = Some q /\ q <> 0.
Proof.
  unfold parentOf. destruct (rm !! k) as [r|]; simpl; [|done].
  intros [Hp Hq]%truthy_Some. by exists r.
Qed.

Lemma parentOf_next rm k q :
  parentOf rm k = Some q -> orZero (rm !! k ≫= parentReplyId) = q.
Proof.
  intros (r & Hr & Hp & Hq)%parentOf_Some. rewrite Hr. simpl. rewrite Hp.
  unfold orZero. by rewrite (proj2 (truthy_Some (Some q) q)).
Qed.

Lemma ancestorAt_add rm a b k :
  ancestorAt rm (a + b) k = ancestorAt rm a k ≫= ancestorAt rm b.
Proof.
  revert k. induction a as [|a IH]; intros k; simpl; [done|].
  destruct (parentOf rm k) as [q|]; simpl; [apply IH|done].
Qed.

Lemma ancestorAt_last rm n k :
  ancestorAt rm (S n) k = ancestorAt rm n k ≫= parentOf rm.
Proof.
  replace (S n) with (n + 1)%nat by lia. rewrite ancestorAt_add.
  destruct (ancestorAt rm n k) as [x|]; simpl; [|done].
  by destruct (parentOf rm x).
Qed.

Lemma onCycle_nonzero rm k : onCycle rm k -> k <> 0.
Proof.
  intros [n Hn]. rewrite ancestorAt_last in Hn.
  destruct (ancestorAt rm n k) as [x|]; simpl in Hn; [|done].
  by apply parentOf_Some in Hn as (_ & _ & _ & ?).
Qed.

Lemma onCycle_parent rm k :
  onCycle rm k -> exists q, parentOf rm k = Some q /\ onCycle rm q.
Proof.
  intros [n Hn]. simpl in Hn.
  destruct (parentOf rm k) as [q|] eqn:Hq; simpl in Hn; [|done].
  exists q. split; [done|]. exists n. rewrite ancestorAt_last, Hn. done.
Qed.

Lemma chaseAncestor_unfold f rm c t :
  chaseAncestor (S f) rm c t =
    if decide (c = 0) then Some t
    else match parentOf rm c with
         | Some q => chaseAncestor f rm q q
         | None => Some t
         end.
Proof.
  cbn [chaseAncestor]. case_decide as Hc.
  - subst c. done.
  - rewrite (proj2 (truthy_Some (Some c) c)) by done.
    destruct (parentOf rm c) as [q|] eqn:Hq; [|done].
    by rewrite (parentOf_next _ _ _ Hq).
Qed.

(** A walk that starts on a cycle never leaves the loop. *)
Lemma chaseAncestor_cycle rm f c t :
  onCycle rm c -> chaseAncestor f rm c t = None.
Proof.
  revert c t. induction f as [|f IH]; intros c t Hc; [done|].
  rewrite chaseAncestor_unfold.
  rewrite decide_False by by apply (onCycle_nonzero rm).
  destruct (onCycle_parent _ _ Hc) as (q & -> & Hq). by apply IH.
Qed.

(** A finished walk ends at the top of the chain. *)
Lemma chaseAncestor_top rm f c t :
  c <> 0 -> chaseAncestor f rm c c = Some t ->
  t <> 0 /\ onChain rm c t /\ parentOf rm t = None.
Proof.
  revert c. induction f as [|f IH]; intros c Hc; [done|].
  rewrite chaseAncestor_unfold, decide_False by done.
  destruct (parentOf rm c) as [q|] eqn:Hq.
  - intros Hw. destruct (parentOf_Some _ _ _ Hq) as (_ & _ & _ & Hq0).
    destruct (IH q Hq0 Hw) as (? & ? & ?).
    split; [done|]. split; [|done]. by eapply onChain_step.
  - intros [= <-]. split; [done|]. split; [constructor|done].
Qed.

Lemma chaseAncestor_None_chain rm f c t :
  chaseAncestor f rm c t = None ->
  forall i, (i < f)%nat -> is_Some (ancestorAt rm (S i) c).
Proof.
  revert c t. induction f as [|f IH]; intros c t Hw i Hi; [lia|].
  rewrite chaseAncestor_unfold in Hw. case_decide; [done|].
  destruct (parentOf rm c) as [q|] eqn:Hq; [|done].
  destruct i as [|i]; simpl; rewrite Hq; simpl; [by eexists|].
  apply (IH q q Hw). lia.
Qed.

(** Pigeonhole: more steps than the set has elements revisit an element. *)
Lemma bounded_search (g : nat -> Z) n v :
  (exists i, (i < n)%nat /\ g i = v) \/ (forall i, (i < n)%nat -> g i <> v).
Proof.
  induction n as [|n [(i & Hi & Hg)|IH]].
  - right. lia.
  - left. exists i. split; [lia|done].
  - destruct (decide (g n = v)) as [Hn|Hn].
    + left. exists n. split; [lia|done].
    + right. intros i Hi. destruct (decide (i = n)) as [->|]; [done|].
      apply IH. lia.
Qed.

Lemma pigeonhole (g : nat -> Z) n (X : gset Z) :
  (forall i, (i < n)%nat -> g i ∈ X) -> (size X < n)%nat ->
  exists i j, (i < j < n)%nat /\ g i = g j.
Proof.
  revert X. induction n as [|n IH]; intros X Hin Hsz; [lia|].
  destruct (bounded_search g n (g n)) as [(i & Hi & Hg)|Hfresh].
  - exists i, n. split; [lia|done].
  - destruct (IH (X ∖ {[g n]})) as (i & j & Hij & Hg).
    + intros i Hi. apply elem_of_difference. split; [apply Hin; lia|].
      rewrite elem_of_singleton. by apply Hfresh.
    + assert (g n ∈ X) by (apply Hin; lia).
      rewrite size_difference by set_solver. rewrite size_singleton.
      assert (size X <> 0%nat); [|lia].
      intros Hz%size_empty_inv. set_solver.
    + exists i, j. split; [lia|done].
Qed.

(** Without a cycle the walk ends after at most [size rm] steps. *)
Lemma chaseAncestor_terminates rm f c t :
  (forall k, ~ onCycle rm k) -> (size rm < f)%nat ->
  is_Some (chaseAncestor f rm c t).
Proof.
  intros Hacyc Hsz. destruct (chaseAncestor f rm c t) as [r|] eqn:Hw; [by eexists|].
  exfalso. pose proof (chaseAncestor_None_chain _ _ _ _ Hw) as Hchain.
  assert (forall i, (i < f)%nat ->
    exists x, ancestorAt rm i c = Some x /\ x ∈ dom rm) as Hnodes.
  { intros i Hi. destruct (Hchain i Hi) as [y Hy].
    rewrite ancestorAt_last in Hy.
    destruct (ancestorAt rm i c) as [x|]; simpl in Hy; [|done].
    exists x. split; [done|].
    apply parentOf_Some in Hy as (r & Hr & _). apply elem_of_dom. by eexists. }
  destruct (pigeonhole (fun i => default 0 (ancestorAt rm i c)) f (dom rm))
    as (i & j & Hij & Heq).
  - intros i Hi. destruct (Hnodes i Hi) as (x & -> & Hx). done.
  - by rewrite size_dom.
  - destruct (Hnodes i) as (x & Hx & _); [lia|].
    destruct (Hnodes j) as (y & Hy & _); [lia|].
    rewrite Hx, Hy in Heq. simpl in Heq. subst y.
    apply (Hacyc x). exists (j - i - 1)%nat.
    replace j with (i + S (j - i - 1))%nat in Hy by lia.
    by rewrite ancestorAt_add, Hx in Hy.
Qed.

(** *** Placing replies into buckets *)

Lemma onChain_end_unique rm p k k' :
  onChain rm p k -> parentOf rm k = None ->
  onChain rm p k' -> parentOf rm k' = None -> k = k'.
Proof.
  induction 1 as [p|p q k Hpq _ IH]; intros Hk Hc Hk'.
  - destruct Hc as [|? q ? Hq]; [done|congruence].
  - destruct Hc as [|? q' ? Hq' Hc]; [congruence|].
    apply IH; [done| |done]. congruence.
Qed.

Lemma placedIn_unique rm r b b' : placedIn rm r b -> placedIn rm r b' -> b = b'.
Proof.
  destruct b as [k|], b' as [k'|]; simpl; try done.
  - intros (p & Hp & Hc & Hk) (p' & Hp' & Hc' & Hk').
    assert (p' = p) as -> by congruence.
    f_equal. by eapply onChain_end_unique.
  - intros (p & Hp & _) Hn. congruence.
  - intros Hn (p & Hp & _). congruence.
Qed.

Lemma pushChild_perm k r (ch : gmap Z (list Reply)) :
  concat (map_to_list (pushChild k r ch)).*2 ≡ₚ r :: concat (map_to_list ch).*2.
Proof.
  unfold pushChild. destruct (ch !! k) as [b|] eqn:Hk; simpl.
  - rewrite <-(insert_delete_id ch k b) at 2 by done.
    rewrite <-insert_delete_eq.
    rewrite !map_to_list_insert by apply lookup_delete_eq.
    simpl. rewrite <-app_assoc. simpl.
    by rewrite <-Permutation_middle.
  - rewrite map_to_list_insert by done. done.
Qed.

Lemma bucketOf_pushChild top ch k r b x :
  x ∈ bucketOf (top, pushChild k r ch) b <->
  x ∈ bucketOf (top, ch) b \/ (b = Some k /\ x = r).
Proof.
  destruct b as [j|]; simpl; [|naive_solver].
  unfold pushChild. destruct (decide (k = j)) as [->|Hne].
  - rewrite lookup_insert_eq. simpl. rewrite elem_of_app, list_elem_of_singleton.
    naive_solver.
  - rewrite lookup_insert_ne by done. naive_solver.
Qed.

Lemma placeReply_spec f rm st r st' :
  placeReply f rm st r = Some st' ->
  exists b, placedIn rm r b /\ held st' ≡ₚ r :: held st /\
    forall b' x, x ∈ bucketOf st' b' <-> x ∈ bucketOf st b' \/ (b' = b /\ x = r).
Proof.
  destruct st as [top ch]. unfold placeReply.
  destruct (truthy (parentReplyId r)) as [pid|] eqn:Hpid.
  - pose proof Hpid as [_ Hpid0]%truthy_Some.
    destruct (parentOf rm pid) as [q|] eqn:Hq.
    + destruct (chaseAncestor f rm pid pid) as [t|] eqn:Hw; [|done].
      destruct (chaseAncestor_top _ _ _ _ Hpid0 Hw) as (Ht0 & Hc & Ht).
      rewrite (proj2 (truthy_Some (Some t) t)) by done.
      intros [= <-]. exists (Some t). split; [by exists pid|]. split.
      * unfold held. simpl. rewrite pushChild_perm.
        by rewrite <-Permutation_middle.
      * intros b' x. apply bucketOf_pushChild.
    + intros [= <-]. exists (Some pid). split.
      { exists pid. split; [done|]. split; [constructor|done]. }
      split.
      * unfold held. simpl. rewrite pushChild_perm.
        by rewrite <-Permutation_middle.
      * intros b' x. apply bucketOf_pushChild.
  - intros [= <-]. exists None. split; [done|]. split.
    + unfold held. simpl. rewrite <-app_assoc. simpl.
      by rewrite <-Permutation_middle.
    + intros [j|] x; simpl; [naive_solver|].
      rewrite elem_of_app, list_elem_of_singleton. naive_solver.
Qed.

Lemma placeAll_spec f rm l st st' :
  placeAll f rm st l = Some st' ->
  held st' ≡ₚ l ++ held st /\
  forall b x, x ∈ bucketOf st' b ->
    x ∈ bucketOf st b \/ (x ∈ l /\ placedIn rm x b).
Proof.
  revert st. induction l as [|r l IH]; simpl; intros st.
  - intros [= <-]. split; [done|]. by left.
  - destruct (placeReply f rm st r) as [st1|] eqn:H1; [|done].
    intros Hall. destruct (IH _ Hall) as [Hperm Hb].
    destruct (placeReply_spec _ _ _ _ _ H1) as (b0 & Hp0 & Hperm1 & Hb1).
    split.
    + rewrite Hperm, Hperm1. by rewrite <-Permutation_middle.
    + intros b x Hx. destruct (Hb b x Hx) as [Hx1|[Hx1 Hp]].
      * apply Hb1 in Hx1 as [?|[-> ->]]; [by left|].
        right. split; [by left|done].
      * right. split; [by right|done].
Qed.

Lemma placeReply_is_Some f rm st r :
  (forall c t, is_Some (chaseAncestor f rm c t)) ->
  is_Some (placeReply f rm st r).
Proof.
  intros Hw. destruct st as [top ch]. unfold placeReply.
  destruct (truthy (parentReplyId r)) as [pid|]; [|by eexists].
  destruct (parentOf rm pid); [|by eexists].
  destruct (Hw pid pid) as [t ->].
  destruct (truthy (Some t)); by eexists.
Qed.

Lemma placeAll_is_Some f rm l st :
  (forall c t, is_Some (chaseAncestor f rm c t)) ->
  is_Some (placeAll f rm st l).
Proof.
  intros Hw. revert st. induction l as [|r l IH]; simpl; intros st; [by eexists|].
  destruct (placeReply_is_Some f rm st r Hw) as [st1 ->]. apply IH.
Qed.

Lemma placeAll_stuck f rm l st r :
  r ∈ l -> (forall st0, placeReply f rm st0 r = None) ->
  placeAll f rm st l = None.
Proof.
  intros Hin Hr. revert st. induction l as [|x l IH]; simpl; intros st.
  - by apply elem_of_nil in Hin.
  - apply elem_of_cons in Hin as [<-|Hin]; [by rewrite Hr|].
    destruct (placeReply f rm st x); [by apply IH|done].
Qed.

Lemma placeReply_cycle f rm st r k :
  rm !! k = Some r -> onCycle rm k -> placeReply f rm st r = None.
Proof.
  intros Hr Hk. destruct (onCycle_parent _ _ Hk) as (q & Hq & Hcq).
  destruct (onCycle_parent _ _ Hcq) as (q' & Hq' & _).
  destruct st as [top ch]. unfold placeReply.
  unfold parentOf in Hq. rewrite Hr in Hq. simpl in Hq. rewrite Hq, Hq'.
  by rewrite chaseAncestor_cycle.
Qed.

(** *** The assembled output *)

Lemma organize_cycle fuel replies k :
  onCycle (buildReplyMap (sortReplies replies)) k ->
  organizeRepliesIntoThreads fuel replies = None.
Proof.
  intros Hk. unfold organizeRepliesIntoThreads.
  destruct (onCycle_parent _ _ Hk) as (q & Hq & _).
  apply parentOf_Some in Hq as (r & Hr & _).
  destruct (lookup_buildReplyMap _ _ _ Hr) as [Hin _].
  rewrite (placeAll_stuck _ _ _ _ r Hin); [done|].
  intros st0. by eapply placeReply_cycle.
Qed.

Lemma organize_acyclic fuel replies :
  acyclic replies -> (length replies < fuel)%nat ->
  is_Some (organizeRepliesIntoThreads fuel replies).
Proof.
  intros Hacyc Hfuel. unfold organizeRepliesIntoThreads.
  destruct (placeAll_is_Some fuel (buildReplyMap (sortReplies replies))
              (sortReplies replies) ([], ∅)) as [[top ch] ->]; [|by eexists].
  intros c t. apply chaseAncestor_terminates; [intros k Hk; apply Hacyc; by exists k|].
  eapply Nat.le_lt_trans; [apply size_buildReplyMap|].
  by rewrite sortReplies_perm.
Qed.

Lemma concat_sorted_perm (bs : list (Z * list Reply)) :
  concat (prod_map Datatypes.id sortReplies <$> bs).*2 ≡ₚ concat bs.*2.
Proof.
  induction bs as [|[k b] bs IH]; simpl; [done|].
  by rewrite IH, sortReplies_perm.
Qed.

Lemma organize_spec fuel replies out :
  organizeRepliesIntoThreads fuel replies = Some out ->
  replyMap out = buildReplyMap (sortReplies replies) /\
  allPlaced out ≡ₚ replies /\
  forall b x, x ∈ bucket out b -> x ∈ replies /\ placedIn (replyMap out) x b.
Proof.
  unfold organizeRepliesIntoThreads.
  destruct (placeAll _ _ _ _) as [[top ch]|] eqn:Hall; [|done].
  intros [= <-]. simpl. split; [done|].
  destruct (placeAll_spec _ _ _ _ _ Hall) as [Hperm Hb]. split.
  - unfold allPlaced. simpl. rewrite sortReplies_perm.
    rewrite map_to_list_fmap, concat_sorted_perm.
    unfold held in Hperm. simpl in Hperm. rewrite Hperm.
    rewrite map_to_list_empty. simpl. by rewrite !app_nil_r, sortReplies_perm.
  - intros b x Hx.
    assert (x ∈ bucketOf (top, ch) b) as Hx'.
    { destruct b as [k|]; simpl in *.
      - rewrite lookup_fmap in Hx. destruct (ch !! k); simpl in *; [|done].
        by rewrite elem_of_sortReplies in Hx.
      - by rewrite elem_of_sortReplies in Hx. }
    destruct (Hb b x Hx') as [Hx0|[Hin Hp]].
    + destruct b; simpl in Hx0; [rewrite lookup_empty in Hx0; simpl in Hx0|];
        by apply elem_of_nil in Hx0.
    + split; [|done]. by rewrite elem_of_sortReplies in Hin.
Qed.

Lemma elem_of_concat (x : Reply) (ls : list (list Reply)) :
  x ∈ concat ls <-> exists l, x ∈ l /\ l ∈ ls.
Proof.
  induction ls as [|l ls IH]; simpl.
  - split; [by intros ?%elem_of_nil|by intros (l & _ & ?%elem_of_nil)].
  - rewrite elem_of_app, IH. split.
    + intros [Hx|(l' & Hx & Hl)]; [exists l|exists l']; split; try done;
        [by left|by right].
    + intros (l' & Hx & [->|Hl]%elem_of_cons); [by left|right; by exists l'].
Qed.

Lemma elem_of_allPlaced out x :
  x ∈ allPlaced out <-> exists b, x ∈ bucket out b.
Proof.
  unfold allPlaced. rewrite elem_of_app. split.
  - intros [Hx|Hx]; [by exists None|].
    apply elem_of_concat in Hx as (l & Hx & Hl).
    apply list_elem_of_fmap in Hl as ([k l'] & -> & Hkl).
    apply elem_of_map_to_list in Hkl. exists (Some k). simpl. by rewrite Hkl.
  - intros [[k|] Hx]; simpl in Hx; [|by left].
    right. destruct (childReplies out !! k) as [l|] eqn:Hk; simpl in Hx.
    + apply elem_of_concat. exists l. split; [done|].
      apply list_elem_of_fmap. exists (k, l). split; [done|].
      by apply elem_of_map_to_list.
    + by apply elem_of_nil in Hx.
Qed.

(** More fuel never changes a finished walk. *)
Lemma chaseAncestor_mono rm f f' c t r :
  (f <= f')%nat -> chaseAncestor f rm c t = Some r ->
  chaseAncestor f' rm c t = Some r.
Proof.
  revert f' c t. induction f as [|f IH]; intros f' c t Hle; [done|].
  destruct f' as [|f']; [lia|]. rewrite !chaseAncestor_unfold.
  case_decide; [done|]. destruct (parentOf rm c); [|done].
  apply IH. lia.
Qed.

Lemma placeAll_mono rm f f' l st st' :
  (f <= f')%nat -> placeAll f rm st l = Some st' ->
  placeAll f' rm st l = Some st'.
Proof.
  intros Hle. revert st. induction l as [|x l IH]; simpl; intros st; [done|].
  destruct (placeReply f rm st x) as [st1|] eqn:H1; [|done].
  assert (placeReply f' rm st x = Some st1) as ->; [|apply IH].
  destruct st as [top ch]. unfold placeReply in *.
  destruct (truthy (parentReplyId x)) as [pid|]; [|done].
  destruct (parentOf rm pid); [|done].
  destruct (chaseAncestor f rm pid pid) as [t|] eqn:Hw; [|done].
  by rewrite (chaseAncestor_mono _ _ _ _ _ _ Hle Hw).
Qed.

Lemma organize_mono f f' replies out :
  (f <= f')%nat -> organizeRepliesIntoThreads f replies = Some out ->
  organizeRepliesIntoThreads f' replies = Some out.
Proof.
  intros Hle. unfold organizeRepliesIntoThreads.
  destruct (placeAll f _ _ _) as [[top ch]|] eqn:Hall; [|done].
  by rewrite (placeAll_mono _ _ _ _ _ _ Hle Hall).
Qed.

(** The executable cycle test decides [acyclic]. *)
Lemma acyclicb_spec replies : acyclicb replies = true <-> acyclic replies.
Proof.
  unfold acyclicb. rewrite forallb_forall. split.
  - intros Hall [k Hk]. destruct (onCycle_parent _ _ Hk) as (q & Hq & _).
    apply parentOf_Some in Hq as (r & Hr & _).
    destruct (lookup_buildReplyMap _ _ _ Hr) as [Hin <-].
    apply elem_of_sortReplies, list_elem_of_In, Hall in Hin.
    apply bool_decide_eq_true in Hin as [t Ht].
    by rewrite chaseAncestor_cycle in Ht.
  - intros Hacyc r _. apply bool_decide_eq_true.
    apply chaseAncestor_terminates; [intros k Hk; apply Hacyc; by exists k|].
    eapply Nat.le_lt_trans; [apply size_buildReplyMap|].
    rewrite sortReplies_perm. lia.
Qed.

(** C1 (as amended): on every reply list whose parent references are
    acyclic the assembler returns an output that holds each reply in
    exactly one bucket (the top-level list, or the children list keyed by
    an id on the reply's parent chain), nothing lost and nothing
    duplicated; and the three-reply chain of the specification's example
    yields top level [1] and children[1] = [2, 3]. *)
Theorem organize_places_each_reply_once :
  (forall replies, acyclic replies -> everyReplyInOneBucket replies) /\
  (forall fuel, (2 <= fuel)%nat ->
     organizeRepliesIntoThreads fuel
       [sampleReply 1 None 1; sampleReply 2 (Some 1) 2; sampleReply 3 (Some 2) 3]
     = Some (mkThreads
         [sampleReply 1 None 1]
         {[ 1 := [sampleReply 2 (Some 1) 2; sampleReply 3 (Some 2) 3] ]}
         (buildReplyMap
           [sampleReply 1 None 1; sampleReply 2 (Some 1) 2; sampleReply 3 (Some 2) 3]))).
Proof.
  split.
  - intros replies Hacyc.
    destruct (organize_acyclic (S (length replies)) replies Hacyc) as [out Hout];
      [lia|].
    destruct (organize_spec _ _ _ Hout) as (Hrm & Hperm & Hb).
    exists (S (length replies)), out. repeat split; [done|done| |].
    + intros r Hr. rewrite <-Hperm in Hr.
      apply elem_of_allPlaced in Hr as [b Hrb]. exists b. split; [done|].
      intros b' Hrb'. eapply placedIn_unique; by apply Hb.
    + intros r k Hrk. destruct (Hb _ _ Hrk) as [_ (p & Hp & Hc & _)].
      by exists p.
  - intros fuel Hfuel. apply (organize_mono 2); [done|]. by vm_compute.
Qed.

Lemma organize_places_each_reply_once_witness :
  everyReplyInOneBucket
    [sampleReply 1 None 1; sampleReply 2 (Some 1) 2; sampleReply 3 (Some 2) 3].
Proof.
  apply (proj1 organize_places_each_reply_once).
  apply acyclicb_spec. vm_compute. reflexivity.
Defined.

(** C1 as stated fails on a reply that names itself as parent: the
    assembler returns no output at all, so the reply is in no bucket. *)
Lemma self_parent_reply_is_never_placed :
  ~ everyReplyInOneBucket [sampleReply 1 (Some 1) 1].
Proof.
  intros (fuel & out & Hout & _).
  rewrite (organize_cycle fuel _ 1) in Hout; [done|].
  exists 0%nat. by vm_compute.
Qed.

(** C2 (as amended): on every reply list whose parent references are
    acyclic the assembler returns an output, and in every output that it
    returns the top-level list holds exactly the replies whose
    [parentReplyId] is null or 0, whether or not a reply's parent is in
    the list; a reply whose non-zero [parentReplyId] matches the id of no
    reply of the input is in the children bucket keyed by that declared
    parent id, and not in the top-level list. *)
Theorem orphan_reply_goes_under_declared_parent replies :
  (acyclic replies ->
     is_Some (organizeRepliesIntoThreads (S (length replies)) replies)) /\
  forall fuel out,
    organizeRepliesIntoThreads fuel replies = Some out ->
    acyclic replies /\
    (forall r, r ∈ topLevelReplies out <->
               r ∈ replies /\ truthy (parentReplyId r) = None) /\
    (forall r p,
       r ∈ replies -> truthy (parentReplyId r) = Some p ->
       (forall r', r' ∈ replies -> id r' <> p) ->
       r ∈ bucket out (Some p) /\ r ∉ topLevelReplies out).
Proof.
  split; [intros Hacyc; apply organize_acyclic; [done|lia]|].
  intros fuel out Hout.
  destruct (organize_spec _ _ _ Hout) as (Hrm & Hperm & Hb).
  assert (forall r, r ∈ topLevelReplies out <->
                    r ∈ replies /\ truthy (parentReplyId r) = None) as Htop.
  { intros r. split.
    - intros Hr. by destruct (Hb None r Hr).
    - intros [Hr Hnone]. rewrite <-Hperm in Hr.
      apply elem_of_allPlaced in Hr as [[k|] Hrb]; [|done].
      destruct (Hb _ _ Hrb) as [_ (p & Hp & _)]. congruence. }
  split; [|split; [done|]].
  - intros [k Hk]. by rewrite (organize_cycle fuel replies k Hk) in Hout.
  - intros r p Hr Htr Horphan.
    assert (r ∉ topLevelReplies out) as Hnot.
    { intros [_ Hnone]%Htop. congruence. }
    split; [|done].
    assert (parentOf (replyMap out) p = None) as Hpar.
    { unfold parentOf. destruct (replyMap out !! p) as [r'|] eqn:Hr'; [|done].
      rewrite Hrm in Hr'. apply lookup_buildReplyMap in Hr' as [Hin Hid].
      rewrite elem_of_sortReplies in Hin. by destruct (Horphan r' Hin). }
    rewrite <-Hperm in Hr. apply elem_of_allPlaced in Hr as [[k|] Hrb]; [|done].
    destruct (Hb _ _ Hrb) as [_ (p' & Hp' & Hc & Hk)].
    assert (p' = p) as -> by congruence.
    assert (k = p) as ->; [|done].
    eapply onChain_end_unique; [done|done|constructor|done].
Qed.

Lemma orphan_reply_goes_under_declared_parent_witness :
  sampleReply 2 (Some 5) 1 ∈
    bucket (mkThreads [] {[ 5 := [sampleReply 2 (Some 5) 1] ]}
              {[ 2 := sampleReply 2 (Some 5) 1 ]}) (Some 5).
Proof.
  destruct (proj2 (orphan_reply_goes_under_declared_parent
                     [sampleReply 2 (Some 5) 1]) 1%nat
              (mkThreads [] {[ 5 := [sampleReply 2 (Some 5) 1] ]}
                 {[ 2 := sampleReply 2 (Some 5) 1 ]}))
    as (_ & _ & Horphan).
  - vm_compute. reflexivity.
  - apply (Horphan (sampleReply 2 (Some 5) 1) 5).
    + apply list_elem_of_singleton. reflexivity.
    + reflexivity.
    + intros r' ->%list_elem_of_singleton. simpl. discriminate.
Defined.

(** C2 as stated fails: the only reply of this list cites parent 5, which
    is no reply's id, and the top-level list of the output is empty. *)
Lemma orphan_reply_is_not_top_level :
  ~ orphansAreTopLevel [sampleReply 2 (Some 5) 1].
Proof.
  intros H.
  specialize (H 1%nat (mkThreads [] {[ 5 := [sampleReply 2 (Some 5) 1] ]}
                        {[ 2 := sampleReply 2 (Some 5) 1 ]})
                (sampleReply 2 (Some 5) 1)).
  simpl in H. eapply elem_of_nil, H.
  - vm_compute. reflexivity.
  - apply list_elem_of_singleton. reflexivity.
  - intros r' ->%list_elem_of_singleton. simpl. discriminate.
Qed.

(** C7: in every output of the assembler the top-level list and every
    children bucket are in ascending order of [createdAt]; the assembler
    returns an output on every acyclic input. *)
Theorem buckets_sorted_by_creation_time replies :
  (acyclic replies ->
     is_Some (organizeRepliesIntoThreads (S (length replies)) replies)) /\
  forall fuel out,
    organizeRepliesIntoThreads fuel replies = Some out ->
    ascending (topLevelReplies out) /\
    forall k l, childReplies out !! k = Some l -> ascending l.
Proof.
  split; [intros Hacyc; apply organize_acyclic; [done|lia]|].
  intros fuel out. unfold organizeRepliesIntoThreads.
  destruct (placeAll _ _ _ _) as [[top ch]|]; [|done].
  intros [= <-]. simpl. split; [apply sortReplies_ascending|].
  intros k l. rewrite lookup_fmap.
  destruct (ch !! k) as [l0|]; simpl; [|done].
  intros [= <-]. apply sortReplies_ascending.
Qed.

Lemma buckets_sorted_by_creation_time_witness :
  ascending [sampleReply 2 (Some 1) 2; sampleReply 3 (Some 2) 3].
Proof.
  refine (proj2 (proj2 (buckets_sorted_by_creation_time
    [sampleReply 3 (Some 2) 3; sampleReply 1 None 1; sampleReply 2 (Some 1) 2])
    4%nat (mkThreads [sampleReply 1 None 1]
             {[ 1 := [sampleReply 2 (Some 1) 2; sampleReply 3 (Some 2) 3] ]}
             (buildReplyMap [sampleReply 1 None 1; sampleReply 2 (Some 1) 2;
                             sampleReply 3 (Some 2) 3])) _) 1 _ _).
  - vm_compute. reflexivity.
  - vm_compute. reflexivity.
Defined.

(** C10: the assembler returns on every reply list whose parent
    references are acyclic (one more loop iteration than there are
    replies is enough for each walk), and on a list whose references
    contain a cycle no number of iterations lets it return; two replies
    naming each other as parent form such a list. *)
Theorem organize_terminates_exactly_without_cycles :
  (forall replies fuel,
     acyclic replies -> (length replies < fuel)%nat ->
     is_Some (organizeRepliesIntoThreads fuel replies)) /\
  (forall replies fuel,
     cyclic replies -> organizeRepliesIntoThreads fuel replies = None) /\
  cyclic [sampleReply 1 (Some 2) 1; sampleReply 2 (Some 1) 2].
Proof.
  split; [|split].
  - intros replies fuel Hacyc Hfuel. by apply organize_acyclic.
  - intros replies fuel [k Hk]. by eapply organize_cycle.
  - exists 1. exists 1%nat. vm_compute. reflexivity.
Qed.

Lemma organize_terminates_exactly_without_cycles_witness :
  is_Some (organizeRepliesIntoThreads 4
    [sampleReply 1 None 1; sampleReply 2 (Some 1) 2; sampleReply 3 (Some 2) 3]) /\
  organizeRepliesIntoThreads 1000
    [sampleReply 1 (Some 2) 1; sampleReply 2 (Some 1) 2] = None.
Proof.
  destruct organize_terminates_exactly_without_cycles as (Hterm & Hloop & Hcyc).
  split.
  - apply Hterm; [|simpl; lia]. apply acyclicb_spec. vm_compute. reflexivity.
  - apply Hloop, Hcyc.
Defined.

End ThreadFacts.


Module QuoteFacts.
Import Quote.
Local Open Scope string_scope.

Lemma length_substring_prefix n s :
  (n <= String.length s)%nat -> String.length (substring 0 n s) = n.
Proof.
  revert s. induction n as [|n IH]; intros s Hn; [by destruct s|].
  destruct s as [|c s]; simpl in *; [lia|]. rewrite IH; [done|lia].
Qed.

Lemma length_app s t :
  String.length (s ++ t) = (String.length s + String.length t)%nat.
Proof. induction s as [|c s IH]; simpl; [done|]. by rewrite IH. Qed.

(** Text of at most 100 code units is quoted whole; longer text is cut to
    its first 100 code units followed by three dots. *)
Lemma quoteText_truncates replyText :
  ((String.length replyText <= 100)%nat -> quoteText replyText = replyText) /\
  ((100 < String.length replyText)%nat ->
     quoteText replyText = substring 0 100 replyText ++ "..." /\
     String.length (quoteText replyText) = 103%nat).
Proof.
  unfold quoteText. split; intros Hlen.
  - destruct (Nat.ltb_spec 100 (String.length replyText)); [lia|done].
  - destruct (Nat.ltb_spec 100 (String.length replyText)); [|lia].
    split; [done|]. rewrite length_app, length_substring_prefix by lia. done.
Qed.

(** C6 fails on the code.  A reply whose body has two lines is quoted by
    the composer with the marker on the first line only; quoting that
    composed reply again strips the marked line alone, so the new quote
    carries the second line of the embedded quote in front of the text
    authored after it.  A reply whose own text starts with the quote
    marker, below a quote, is re-quoted as a quote within a quote. *)
Theorem requote_keeps_part_of_embedded_quote :
  let bodyA := "line1" ++ newline ++ "line2" in
  let bodyB :=
    finalContent (Some (mkReplyTo 1 (Some "A") (Some bodyA)))
      {[ 1%Z := replyWith 1 bodyA ]} "Btext" in
  let bodyC :=
    finalContent (Some (mkReplyTo 2 (Some "B") (Some bodyB)))
      {[ 2%Z := replyWith 2 bodyB ]} "Ctext" in
  let bodyD := "@A:" ++ newline ++ "> q" ++ newline ++ newline ++ "> mine" in
  let bodyE :=
    finalContent (Some (mkReplyTo 3 (Some "D") (Some bodyD)))
      {[ 3%Z := replyWith 3 bodyD ]} "Etext" in
  bodyB = "@A:" ++ newline ++ "> line1" ++ newline ++ "line2" ++
          newline ++ newline ++ "Btext" /\
  stripQuote bodyB = "line2" ++ newline ++ newline ++ "Btext" /\
  bodyC = "@B:" ++ newline ++ "> line2" ++ newline ++ newline ++ "Btext" ++
          newline ++ newline ++ "Ctext" /\
  bodyE = "@D:" ++ newline ++ "> > mine" ++ newline ++ newline ++ "Etext".
Proof. repeat split; by vm_compute. Qed.

End QuoteFacts.

Module StorageFacts.
Import Storage.

#[local] Arguments truthy : simpl never.
#[local] Arguments nextId : simpl never.
Create HintDb preserve.

(** *** Queries *)

Lemma firstDoc_Some {K A} `{Countable K} (m : gmap K A) d :
  firstDoc m = Some d -> exists k, m !! k = Some d.
Proof.
  unfold firstDoc. destruct (map_to_list m) as [|[k d'] l] eqn:Hl; [done|].
  simpl. intros [= ->]. exists k. apply elem_of_map_to_list. rewrite Hl. by left.
Qed.

Lemma firstDoc_None {K A} `{Countable K} (m : gmap K A) :
  firstDoc m = None -> m = ∅.
Proof.
  unfold firstDoc. destruct (map_to_list m) as [|[k d'] l] eqn:Hl; [|done].
  intros _. by apply map_to_list_empty_iff.
Qed.

Lemma maxById_None {A} (getId : A -> Z) l : maxById getId l = None -> l = [].
Proof.
  destruct l as [|d l]; [done|]. simpl.
  destruct (maxById getId l); [|done]. by destruct (_ <? _).
Qed.

Lemma maxById_Some {A} (getId : A -> Z) l d :
  maxById getId l = Some d ->
  d ∈ l /\ forall e, e ∈ l -> getId e <= getId d.
Proof.
  revert d. induction l as [|x l IH]; intros d; [done|]. simpl.
  destruct (maxById getId l) as [e|] eqn:Hl.
  - destruct (IH e eq_refl) as [Hin Hmax].
    destruct (Z.ltb_spec (getId e) (getId x)); intros [= <-].
    + split; [by left|]. intros y [->|Hy]%elem_of_cons; [lia|].
      specialize (Hmax y Hy). lia.
    + split; [by right|]. intros y [->|Hy]%elem_of_cons; [lia|by apply Hmax].
  - apply maxById_None in Hl as ->. intros [= <-].
    split; [by left|]. by intros y ->%list_elem_of_singleton.
Qed.

Lemma counter_id v : counter v = v.
Proof.
  unfold counter, orZero, truthy. by destruct (Z.eqb_spec v 0) as [->|].
Qed.

Lemma nextId_fresh {A} (getId : A -> Z) (m : gmap Z A) :
  keyed getId m -> m !! nextId getId m = None /\ 1 <= nextId getId m.
Proof.
  intros Hk. unfold nextId. fold (counter (default 0 (getId <$> lastDoc getId m))).
  rewrite counter_id. unfold lastDoc.
  destruct (maxById getId (map_to_list m).*2) as [d|] eqn:Hmax; simpl.
  - apply maxById_Some in Hmax as [Hin Hmax].
    apply list_elem_of_fmap in Hin as ([k d'] & -> & Hin).
    apply elem_of_map_to_list in Hin. destruct (Hk _ _ Hin) as [Hid Hpos].
    simpl in *. split; [|lia].
    destruct (m !! (getId d' + 1)) as [e|] eqn:He; [|done].
    destruct (Hk _ _ He) as [Hide _].
    assert (getId e <= getId d'); [|lia].
    apply Hmax. apply list_elem_of_fmap. exists (getId d' + 1, e).
    split; [done|]. by apply elem_of_map_to_list.
  - apply maxById_None, fmap_nil_inv, map_to_list_empty_iff in Hmax as ->.
    split; [apply lookup_empty|lia].
Qed.

(** *** Document updates *)

Lemma updatePost_Some k f us ps rs vs p :
  ps !! k = Some p ->
  updatePost k f (mkDb us ps rs vs) = (Return tt, mkDb us (<[k := f p]> ps) rs vs).
Proof. intros Hk. unfold updatePost, updateDoc. simpl. by rewrite Hk. Qed.

Lemma updateReply_Some k f us ps rs vs r :
  rs !! k = Some r ->
  updateReply k f (mkDb us ps rs vs) = (Return tt, mkDb us ps (<[k := f r]> rs) vs).
Proof. intros Hk. unfold updateReply, updateDoc. simpl. by rewrite Hk. Qed.

Lemma updateVoteDoc_Some k f us ps rs vs v :
  vs !! k = Some v ->
  updateVoteDoc k f (mkDb us ps rs vs) = (Return tt, mkDb us ps rs (<[k := f v]> vs)).
Proof. intros Hk. unfold updateVoteDoc, updateDoc. simpl. by rewrite Hk. Qed.

(** *** Preservation of well-formedness by the single writes *)

Lemma lookup_insert_Z {A} (m : gmap Z A) i j x :
  <[i := x]> m !! j = if decide (i = j) then Some x else m !! j.
Proof. apply lookup_insert. Qed.

Lemma keyed_insert {A} (getId : A -> Z) m k d :
  keyed getId m -> getId d = k -> 1 <= k -> keyed getId (<[k := d]> m).
Proof.
  intros Hm Hid Hk j e. rewrite (lookup_insert_Z m). case_decide.
  - intros [= <-]. by subst.
  - apply Hm.
Qed.

Lemma keyed_subseteq {A} (getId : A -> Z) (m m' : gmap Z A) :
  keyed getId m -> m' ⊆ m -> keyed getId m'.
Proof. intros Hm Hsub j e He. apply (Hm j e). by eapply lookup_weaken. Qed.

Lemma keyed_difference {A} (getId : A -> Z) (m m' : gmap Z A) :
  keyed getId m -> keyed getId (m ∖ m').
Proof.
  intros Hm j e [He _]%lookup_difference_Some. by apply Hm.
Qed.

Lemma keyed_delete {A} (getId : A -> Z) (m : gmap Z A) k :
  keyed getId m -> keyed getId (delete k m).
Proof. intros Hm j e [_ He]%lookup_delete_Some. by apply Hm. Qed.

Section writes.
Context (us : gmap string User.t) (ps : gmap Z Post.t)
  (rs : gmap Z Reply.t) (vs : gmap Z Vote.t).
Hypothesis Hwf : wf (mkDb us ps rs vs).

Lemma wf_set_users us' : wf (mkDb us' ps rs vs).
Proof. destruct Hwf. by constructor. Qed.

Lemma wf_set_votes vs' : keyed Vote.id vs' -> wf (mkDb us ps rs vs').
Proof. destruct Hwf. by constructor. Qed.

Lemma wf_post_counters k p p' :
  ps !! k = Some p -> Post.id p' = Post.id p ->
  Post.solutionId p' = Post.solutionId p ->
  wf (mkDb us (<[k := p']> ps) rs vs).
Proof.
  intros Hk Hid Hsol. destruct Hwf as [Hp Hr Hv Hrp Hs]. simpl in *.
  constructor; unfold flaggedIsReferenced in *; simpl in *; try done.
  - apply keyed_insert; [done| |]; destruct (Hp _ _ Hk); congruence.
  - intros j r Hj Hflag. destruct (Hs j r Hj Hflag) as (q & Hq & Hqs). simpl in *.
    destruct (decide (k = Reply.postId r)) as [->|Hne].
    + exists p'. rewrite lookup_insert_eq. split; [done|]. congruence.
    + exists q. by rewrite lookup_insert_ne.
Qed.

Lemma wf_new_post k p :
  ps !! k = None -> Post.id p = k -> 1 <= k ->
  wf (mkDb us (<[k := p]> ps) rs vs).
Proof.
  intros Hk Hid Hpos. destruct Hwf as [Hp Hr Hv Hrp Hs]. simpl in *.
  constructor; unfold flaggedIsReferenced in *; simpl in *; try done.
  - by apply keyed_insert.
  - intros j r Hj Hflag. destruct (Hs j r Hj Hflag) as (q & Hq & Hqs). simpl in *.
    exists q. rewrite lookup_insert_ne; [done|]. congruence.
Qed.

Lemma wf_reply_counters k r r' :
  rs !! k = Some r -> Reply.id r' = Reply.id r ->
  Reply.postId r' = Reply.postId r ->
  Reply.isSolution r' = Reply.isSolution r ->
  wf (mkDb us ps (<[k := r']> rs) vs).
Proof.
  intros Hk Hid Hpost Hflag. destruct Hwf as [Hp Hr Hv Hrp Hs]. simpl in *.
  constructor; unfold flaggedIsReferenced in *; simpl in *; try done.
  - apply keyed_insert; [done| |]; destruct (Hr _ _ Hk); congruence.
  - intros j x. rewrite (lookup_insert_Z rs). case_decide; [|apply Hrp].
    intros [= <-]. rewrite Hpost. by eapply Hrp.
  - intros j x. rewrite (lookup_insert_Z rs). case_decide; [|apply Hs].
    intros [= <-] Hx. subst j. rewrite Hpost. apply (Hs k r Hk). congruence.
Qed.

Lemma wf_unflagged_reply k r :
  Reply.id r = k -> 1 <= k -> Reply.postId r <> 0 ->
  Reply.isSolution r = false ->
  wf (mkDb us ps (<[k := r]> rs) vs).
Proof.
  intros Hid Hpos Hpost Hflag. destruct Hwf as [Hp Hr Hv Hrp Hs]. simpl in *.
  constructor; unfold flaggedIsReferenced in *; simpl in *; try done.
  - by apply keyed_insert.
  - intros j x. rewrite (lookup_insert_Z rs). case_decide; [|apply Hrp]. by intros [= <-].
  - intros j x. rewrite (lookup_insert_Z rs). case_decide; [|apply Hs].
    intros [= <-] Hx. congruence.
Qed.

Lemma wf_unflag k r :
  rs !! k = Some r -> wf (mkDb us ps (<[k := setIsSolution false r]> rs) vs).
Proof.
  intros Hk. destruct Hwf as [Hp Hr Hv Hrp Hs]. simpl in *.
  destruct (Hr _ _ Hk). apply wf_unflagged_reply; try done.
  simpl. by eapply Hrp.
Qed.

Lemma wf_clear_solution k p :
  ps !! k = Some p ->
  (forall s r, Post.solutionId p = Some s -> rs !! s = Some r ->
     Reply.isSolution r = false) ->
  wf (mkDb us (<[k := setSolutionId None p]> ps) rs vs).
Proof.
  intros Hk Hold. destruct Hwf as [Hp Hr Hv Hrp Hs]. simpl in *.
  constructor; unfold flaggedIsReferenced in *; simpl in *; try done.
  - apply keyed_insert; [done| |]; destruct (Hp _ _ Hk); done.
  - intros j r Hj Hflag. destruct (Hs j r Hj Hflag) as (q & Hq & Hqs). simpl in *.
    destruct (decide (k = Reply.postId r)) as [->|Hne].
    + assert (q = p) as -> by congruence.
      rewrite (Hold j r Hqs Hj) in Hflag. done.
    + exists q. by rewrite lookup_insert_ne.
Qed.

Lemma wf_mark k p j r :
  ps !! k = Some p -> rs !! j = Some r -> Reply.postId r = k ->
  (forall s r', Post.solutionId p = Some s -> rs !! s = Some r' -> s <> j ->
     Reply.isSolution r' = false) ->
  wf (mkDb us (<[k := setSolutionId (Some j) p]> ps)
           (<[j := setIsSolution true r]> rs) vs).
Proof.
  intros Hk Hj Hpost Hold. destruct Hwf as [Hp Hr Hv Hrp Hs]. simpl in *.
  constructor; unfold flaggedIsReferenced in *; simpl in *; try done.
  - apply keyed_insert; [done| |]; destruct (Hp _ _ Hk); done.
  - apply keyed_insert; [done| |]; destruct (Hr _ _ Hj); done.
  - intros i x. rewrite (lookup_insert_Z rs). case_decide; [|apply Hrp].
    intros [= <-]. simpl. by eapply Hrp.
  - intros i x. rewrite (lookup_insert_Z rs). case_decide as Hi.
    + intros [= <-] _. subst i. simpl. rewrite Hpost.
      eexists. by rewrite lookup_insert_eq.
    + intros Hx Hflag. destruct (Hs i x Hx Hflag) as (q & Hq & Hqs). simpl in *.
      destruct (decide (k = Reply.postId x)) as [->|Hne].
      * assert (q = p) as -> by congruence.
        rewrite (Hold i x Hqs Hx) in Hflag by done. done.
      * exists q. by rewrite lookup_insert_ne.
Qed.

Lemma wf_delete_reply id ps' vs' :
  ps' = ps \/
    (exists k p, ps !! k = Some p /\ Post.solutionId p = Some id /\
                 ps' = <[k := setSolutionId None p]> ps) ->
  keyed Vote.id vs' ->
  wf (mkDb us ps' (delete id rs) vs').
Proof.
  intros Hps Hvs'. destruct Hwf as [Hp Hr Hv Hrp Hs]. simpl in *.
  constructor; unfold flaggedIsReferenced in *; simpl in *; try done.
  - destruct Hps as [->|(k & p & Hk & _ & ->)]; [done|].
    apply keyed_insert; [done| |]; destruct (Hp _ _ Hk); done.
  - by apply keyed_delete.
  - intros j r [_ Hj]%lookup_delete_Some. by eapply Hrp.
  - intros j r [Hne Hj]%lookup_delete_Some Hflag.
    destruct (Hs j r Hj Hflag) as (q & Hq & Hqs). simpl in *.
    destruct Hps as [->|(k & p & Hk & Hsol & ->)]; [by exists q|].
    destruct (decide (k = Reply.postId r)) as [->|Hne'].
    + assert (q = p) as -> by congruence. congruence.
    + exists q. by rewrite lookup_insert_ne.
Qed.

Lemma wf_delete_post id vs' :
  keyed Vote.id vs' ->
  wf (mkDb us (delete id ps)
           (rs ∖ filter (fun kv => Reply.postId kv.2 = id) rs) vs').
Proof.
  intros Hvs'. destruct Hwf as [Hp Hr Hv Hrp Hs]. simpl in *.
  constructor; unfold flaggedIsReferenced in *; simpl in *; try done.
  - by apply keyed_delete.
  - by apply keyed_difference.
  - intros j r [Hj _]%lookup_difference_Some. by eapply Hrp.
  - intros j r [Hj Hnot]%lookup_difference_Some Hflag.
    destruct (Hs j r Hj Hflag) as (q & Hq & Hqs). simpl in *.
    exists q. split; [|done]. rewrite lookup_delete_ne; [done|].
    intros Heq. rewrite map_lookup_filter_None in Hnot.
    destruct Hnot as [Hnot|Hnot]; [congruence|]. by apply (Hnot r).
Qed.
End writes.

(** *** Preservation of well-formedness by the storage methods *)

Lemma preserves_ret {A} (a : A) : preserves (ret a).
Proof. by intros db. Qed.

Lemma preserves_throw {A} e : preserves (@throw A e).
Proof. by intros db. Qed.

Lemma preserves_read {A} (f : Db -> A) : preserves (read f).
Proof. by intros db. Qed.

Lemma preserves_bind {A B} (m : M A) (k : A -> M B) :
  preserves m -> (forall a, preserves (k a)) -> preserves (bind m k).
Proof.
  intros Hm Hk db Hdb. unfold bind. specialize (Hm db Hdb).
  destruct (m db) as [[a|e] db']; simpl in *; [by apply Hk|done].
Qed.

Lemma preserves_getPost id : preserves (getPost id).
Proof. apply preserves_read. Qed.

Lemma preserves_getReply id : preserves (getReply id).
Proof. apply preserves_read. Qed.

Lemma preserves_getVote u p r : preserves (getVote u p r).
Proof.
  unfold getVote. destruct (truthy p), (truthy r);
    auto using preserves_read, preserves_throw.
Qed.

Lemma preserves_updatePost_counters k f :
  (forall p, Post.id (f p) = Post.id p /\
             Post.solutionId (f p) = Post.solutionId p) ->
  preserves (updatePost k f).
Proof.
  intros Hf [us ps rs vs] Hdb. unfold updatePost, updateDoc. simpl.
  destruct (ps !! k) as [p|] eqn:Hk; simpl; [|done].
  destruct (Hf p). by eapply wf_post_counters.
Qed.

Lemma preserves_updateReply_counters k f :
  (forall r, Reply.id (f r) = Reply.id r /\
             Reply.postId (f r) = Reply.postId r /\
             Reply.isSolution (f r) = Reply.isSolution r) ->
  preserves (updateReply k f).
Proof.
  intros Hf [us ps rs vs] Hdb. unfold updateReply, updateDoc. simpl.
  destruct (rs !! k) as [r|] eqn:Hk; simpl; [|done].
  destruct (Hf r) as (? & ? & ?). by eapply wf_reply_counters.
Qed.

Lemma preserves_updateVoteDoc k t : preserves (updateVoteDoc k (setVoteType t)).
Proof.
  intros [us ps rs vs] Hdb. unfold updateVoteDoc, updateDoc. simpl.
  destruct (vs !! k) as [v|] eqn:Hk; simpl; [|done].
  eapply wf_set_votes; [done|]. destruct Hdb as [_ _ Hv _ _]. simpl in Hv.
  apply keyed_insert; [done| |]; destruct (Hv _ _ Hk); done.
Qed.

Lemma preserves_unflag k : preserves (updateReply k (setIsSolution false)).
Proof.
  intros [us ps rs vs] Hdb. unfold updateReply, updateDoc. simpl.
  destruct (rs !! k) as [r|] eqn:Hk; simpl; [|done]. by apply wf_unflag.
Qed.

#[local] Hint Resolve preserves_ret preserves_throw preserves_read
  preserves_getPost preserves_getReply preserves_getVote
  preserves_updateVoteDoc preserves_unflag : preserve.

Ltac preserve_counters :=
  first [ apply preserves_updatePost_counters; by intros []
        | apply preserves_updateReply_counters; by intros [] ].

Ltac preserve :=
  repeat first
    [ progress auto with preserve
    | preserve_counters
    | apply preserves_bind; [|intros ?]
    | match goal with
      | |- preserves (match ?x with _ => _ end) => destruct x
      | |- preserves (if ?b then _ else _) => destruct b
      end ].

Lemma createUser_wf user : preserves (createUser user).
Proof. intros [us ps rs vs] Hdb. by eapply wf_set_users. Qed.

Lemma updateUsername_wf userId username : preserves (updateUsername userId username).
Proof.
  intros [us ps rs vs] Hdb. unfold updateUsername, bind, read. simpl.
  destruct (us !! userId); simpl; [by eapply wf_set_users|done].
Qed.

Lemma createPost_wf post now : preserves (createPost post now).
Proof.
  intros [us ps rs vs] Hdb. unfold createPost, bind, read. simpl.
  destruct (nextId_fresh Post.id ps) as [Hfresh Hpos]; [apply Hdb|].
  by apply wf_new_post.
Qed.

Lemma deletePost_wf id authorId : preserves (deletePost id authorId).
Proof.
  intros [us ps rs vs] Hdb. unfold deletePost, bind, getPost, read. simpl.
  destruct (ps !! id) as [post|]; simpl; [|done].
  destruct (negb _); simpl; [done|].
  eapply wf_delete_post; [done|]. apply keyed_difference, Hdb.
Qed.

Lemma createReply_wf reply now : preserves (createReply reply now).
Proof.
  intros [us ps rs vs] Hdb. unfold createReply.
  destruct (truthy (Some (ir_postId reply))) as [postId|] eqn:Hpost; [|done].
  unfold bind, read. simpl.
  destruct (nextId_fresh Reply.id rs) as [_ Hpos]; [apply Hdb|].
  apply truthy_Some in Hpost as [_ Hpost].
  by apply wf_unflagged_reply.
Qed.

Lemma deleteReply_wf id authorId : preserves (deleteReply id authorId).
Proof.
  intros [us ps rs vs] Hdb. unfold deleteReply, bind, getPost, getReply, read.
  simpl. destruct (rs !! id) as [reply|]; simpl; [|done].
  destruct (negb _); simpl; [done|].
  assert (keyed Vote.id (vs ∖ filter (fun kv => Vote.replyId kv.2 = Some id) vs))
    as Hvs by apply keyed_difference, Hdb.
  destruct (truthy (Some (Reply.postId reply))) as [postId|]; simpl;
    [|by eapply wf_delete_reply; [done|left|done]].
  unfold bind, getPost, read. simpl.
  destruct (ps !! postId) as [post|] eqn:Hpost; simpl;
    [|by eapply wf_delete_reply; [done|left|done]].
  case_bool_decide as Hsol; simpl;
    [|by eapply wf_delete_reply; [done|left|done]].
  rewrite (updatePost_Some _ _ _ _ _ _ post) by done. simpl.
  eapply wf_delete_reply; [done| |done]. right. by exists postId, post.
Qed.

Lemma updateVote_wf voteId voteType : preserves (updateVote voteId voteType).
Proof. unfold updateVote. preserve. Qed.

Lemma bind_read {A B} (f : Db -> A) (k : A -> M B) db :
  bind (read f) k db = k (f db) db.
Proof. reflexivity. Qed.

Lemma bind_write {B} (g : Db -> Db) (k : unit -> M B) db :
  bind (write g) k db = k tt (g db).
Proof. reflexivity. Qed.

Lemma getVote_state u p r db :
  getVote u p r db = ((getVote u p r db).1, db).
Proof. unfold getVote. by destruct (truthy p), (truthy r). Qed.

Lemma createVote_wf vote : preserves (createVote vote).
Proof.
  intros db Hdb. unfold createVote. unfold bind at 1. rewrite getVote_state.
  destruct (getVote _ _ _ db).1 as [[existing|]|e]; [| |done].
  - destruct (negb _); [by apply updateVote_wf|done].
  - rewrite bind_read, bind_write.
    match goal with |- wf (bind ?m ?k ?d).2 => cut (preserves (bind m k)) end.
    + intros Hrest. apply Hrest. destruct db as [us ps rs vs]. simpl.
      eapply wf_set_votes; [done|].
      destruct (nextId_fresh Vote.id vs) as [_ Hpos]; [apply Hdb|].
      apply keyed_insert; [apply Hdb|done|done].
    + preserve.
Qed.

Lemma removeSolution_wf postId : preserves (removeSolution postId).
Proof.
  intros [us ps rs vs] Hdb. unfold removeSolution, bind, getPost, getReply, read.
  simpl. destruct (ps !! postId) as [post|] eqn:Hpost; simpl; [|done].
  destruct (truthy (Post.solutionId post)) as [s|] eqn:Hs; simpl; [|done].
  apply truthy_Some in Hs as [Hs _].
  destruct (rs !! s) as [old|] eqn:Hold; simpl.
  - assert (Reply.id old = s) as -> by by apply Hdb in Hold as [? _].
    rewrite (updateReply_Some _ _ _ _ _ _ old) by done. simpl.
    rewrite (updatePost_Some _ _ _ _ _ _ post) by done. simpl.
    apply wf_clear_solution; [by apply wf_unflag|done|].
    intros s' r Hs'. assert (s' = s) as -> by congruence.
    rewrite lookup_insert_eq. by intros [= <-].
  - rewrite (updatePost_Some _ _ _ _ _ _ post) by done. simpl.
    apply wf_clear_solution; [done|done|].
    intros s' r Hs'. assert (s' = s) as -> by congruence. congruence.
Qed.

Lemma markAsSolution_wf postId replyId : preserves (markAsSolution postId replyId).
Proof.
  intros [us ps rs vs] Hdb. unfold markAsSolution, bind, getPost, getReply, read.
  simpl. destruct (ps !! postId) as [post|] eqn:Hpost; simpl; [|done].
  destruct (rs !! replyId) as [reply|] eqn:Hreply; simpl; [|done].
  destruct (Z.eqb_spec (Reply.postId reply) postId) as [Hbelongs|]; simpl; [|done].
  pose proof (wf_replies _ Hdb) as Hkeyed. simpl in Hkeyed.
  destruct (truthy (Post.solutionId post)) as [s|] eqn:Hs; simpl.
  - apply truthy_Some in Hs as [Hs _].
    destruct (rs !! s) as [old|] eqn:Hold; simpl.
    + assert (Reply.id old = s) as -> by by apply Hkeyed in Hold as [? _].
      rewrite (updateReply_Some _ _ _ _ _ _ old) by done. simpl.
      destruct (<[s := setIsSolution false old]> rs !! replyId) as [r1|] eqn:Hr1.
      2:{ rewrite (lookup_insert_Z rs) in Hr1. case_decide; congruence. }
      rewrite (updateReply_Some _ _ _ _ _ _ r1) by done. simpl.
      rewrite (updatePost_Some _ _ _ _ _ _ post) by done. simpl.
      apply wf_mark; [by apply wf_unflag|done|done| |].
      * rewrite (lookup_insert_Z rs) in Hr1. case_decide; simplify_eq; done.
      * intros s' r' Hs' Hr' Hne. assert (s' = s) as -> by congruence.
        rewrite lookup_insert_eq in Hr'. by simplify_eq.
    + rewrite (updateReply_Some _ _ _ _ _ _ reply) by done. simpl.
      rewrite (updatePost_Some _ _ _ _ _ _ post) by done. simpl.
      apply wf_mark; [done|done|done|done|].
      intros s' r' Hs' Hr'. congruence.
  - apply truthy_None in Hs.
    rewrite (updateReply_Some _ _ _ _ _ _ reply) by done. simpl.
    rewrite (updatePost_Some _ _ _ _ _ _ post) by done. simpl.
    apply wf_mark; [done|done|done|done|].
    intros s' r' Hs' Hr' _. destruct Hs as [Hs|Hs]; [congruence|].
    assert (s' = 0) as -> by congruence.
    apply Hkeyed in Hr' as [_ ?]. lia.
Qed.

Lemma emptyDb_wf : wf emptyDb.
Proof. constructor; intros k d; simpl; by rewrite lookup_empty. Qed.

Lemma exec_wf c db : wf db -> wf (exec c db).
Proof.
  intros Hdb. destruct c; simpl.
  - by apply createUser_wf.
  - by apply updateUsername_wf.
  - by apply createPost_wf.
  - by apply deletePost_wf.
  - by apply createReply_wf.
  - by apply deleteReply_wf.
  - by apply createVote_wf.
  - by apply updateVote_wf.
  - by apply markAsSolution_wf.
  - by apply removeSolution_wf.
Qed.

Lemma run_wf calls db : wf db -> wf (run calls db).
Proof.
  revert db. induction calls as [|c calls IH]; intros db Hdb; [done|].
  simpl. by apply IH, exec_wf.
Qed.

Lemma reachable_wf db : reachable db -> wf db.
Proof. intros [calls ->]. apply run_wf, emptyDb_wf. Qed.

Lemma wf_atMostOneSolution db : wf db -> atMostOneSolution db.
Proof.
  intros Hdb k1 k2 r1 r2 H1 H2 Hsame Hf1 Hf2.
  destruct (wf_solution _ Hdb _ _ H1 Hf1) as (p1 & Hp1 & Hs1).
  destruct (wf_solution _ Hdb _ _ H2 Hf2) as (p2 & Hp2 & Hs2).
  rewrite Hsame in Hp1. congruence.
Qed.

(** *** Votes *)

Lemma firstDoc_filter_Some {A} (P : Z * A -> Prop) `{!forall kv, Decision (P kv)}
    (m : gmap Z A) d :
  firstDoc (filter P m) = Some d -> exists k, m !! k = Some d /\ P (k, d).
Proof.
  intros [k Hk]%firstDoc_Some. exists k. by apply map_lookup_filter_Some in Hk.
Qed.

Lemma updateVote_post us ps rs vs i e t p post :
  vs !! i = Some e -> Vote.voteType e <> t ->
  truthy (Vote.postId e) = Some p -> ps !! p = Some post ->
  updateVote i t (mkDb us ps rs vs) =
    (Return (setVoteType t e),
     mkDb us (<[p := switchedPost (Vote.voteType e) t post]> ps) rs
          (<[i := setVoteType t e]> vs)).
Proof.
  intros Hi Hne Hp Hpost. unfold updateVote, bind, read, getPost, switchedPost.
  simpl. rewrite Hi. simpl. rewrite (proj2 (String.eqb_neq _ _)) by done. simpl.
  rewrite Hp. simpl. rewrite Hpost. simpl. rewrite !counter_id.
  destruct (isUpvote (Vote.voteType e)), (isUpvote t);
    erewrite updatePost_Some by done; simpl;
    erewrite updatePost_Some by apply lookup_insert_eq; simpl;
    erewrite updateVoteDoc_Some by done; simpl;
    by rewrite insert_insert_eq.
Qed.

Lemma updateVote_reply us ps rs vs i e t r reply :
  vs !! i = Some e -> Vote.voteType e <> t ->
  truthy (Vote.postId e) = None -> truthy (Vote.replyId e) = Some r ->
  rs !! r = Some reply ->
  updateVote i t (mkDb us ps rs vs) =
    (Return (setVoteType t e),
     mkDb us ps (<[r := switchedReply (Vote.voteType e) t reply]> rs)
          (<[i := setVoteType t e]> vs)).
Proof.
  intros Hi Hne Hp Hr Hreply.
  unfold updateVote, bind, read, getReply, switchedReply.
  simpl. rewrite Hi. simpl. rewrite (proj2 (String.eqb_neq _ _)) by done. simpl.
  rewrite Hp, Hr. simpl. rewrite Hreply. simpl. rewrite !counter_id.
  destruct (isUpvote (Vote.voteType e)), (isUpvote t);
    erewrite updateReply_Some by done; simpl;
    erewrite updateReply_Some by apply lookup_insert_eq; simpl;
    erewrite updateVoteDoc_Some by done; simpl;
    by rewrite insert_insert_eq.
Qed.

Lemma createVote_existing vote db e :
  (getVote (iv_userId vote) (iv_postId vote) (iv_replyId vote) db).1
    = Return (Some e) ->
  createVote vote db =
    if negb (String.eqb (Vote.voteType e) (iv_voteType vote))
    then updateVote (Vote.id e) (iv_voteType vote) db
    else (Return e, db).
Proof.
  intros Hget. unfold createVote. unfold bind at 1.
  rewrite getVote_state, Hget. by destruct (negb _).
Qed.

Lemma createVote_new_post vote us ps rs vs p post :
  (getVote (iv_userId vote) (iv_postId vote) (iv_replyId vote)
     (mkDb us ps rs vs)).1 = Return None ->
  truthy (iv_postId vote) = Some p -> ps !! p = Some post ->
  let id := nextId Vote.id vs in
  let newVote := Vote.mk id (iv_userId vote) (truthy (iv_postId vote))
                   (truthy (iv_replyId vote)) (iv_voteType vote) in
  createVote vote (mkDb us ps rs vs) =
    (Return newVote,
     mkDb us
       (<[p := (if isUpvote (iv_voteType vote)
                then setPostUpvotes (Post.upvotes post + 1)
                else setPostDownvotes (Post.downvotes post + 1)) post]> ps)
       rs (<[id := newVote]> vs)).
Proof.
  intros Hget Hp Hpost. unfold createVote. unfold bind at 1.
  rewrite getVote_state, Hget. rewrite bind_read, bind_write.
  unfold bind, getPost, read, withVotes. simpl. rewrite Hp. simpl.
  rewrite Hpost. simpl. rewrite !counter_id.
  destruct (isUpvote (iv_voteType vote));
    erewrite updatePost_Some by done; done.
Qed.

Lemma createVote_new_reply vote us ps rs vs r reply :
  (getVote (iv_userId vote) (iv_postId vote) (iv_replyId vote)
     (mkDb us ps rs vs)).1 = Return None ->
  truthy (iv_postId vote) = None -> truthy (iv_replyId vote) = Some r ->
  rs !! r = Some reply ->
  let id := nextId Vote.id vs in
  let newVote := Vote.mk id (iv_userId vote) (truthy (iv_postId vote))
                   (truthy (iv_replyId vote)) (iv_voteType vote) in
  createVote vote (mkDb us ps rs vs) =
    (Return newVote,
     mkDb us ps
       (<[r := (if isUpvote (iv_voteType vote)
                then setReplyUpvotes (Reply.upvotes reply + 1)
                else setReplyDownvotes (Reply.downvotes reply + 1)) reply]> rs)
       (<[id := newVote]> vs)).
Proof.
  intros Hget Hp Hr Hreply. unfold createVote. unfold bind at 1.
  rewrite getVote_state, Hget. rewrite bind_read, bind_write.
  unfold bind, getReply, read, withVotes. simpl. rewrite Hp, Hr. simpl.
  rewrite Hreply. simpl. rewrite !counter_id.
  destruct (isUpvote (iv_voteType vote));
    erewrite updateReply_Some by done; done.
Qed.

Lemma isUpvote_valid t :
  validVoteType t -> isUpvote t = true /\ t = "upvote" \/
                     isUpvote t = false /\ t = "downvote".
Proof. intros [->| ->]; [by left|by right]. Qed.

Lemma getVote_post u p r db k :
  truthy p = Some k ->
  (getVote u p r db).1 =
    Return (firstDoc (filter
      (fun kv => Vote.userId kv.2 = u /\ Vote.postId kv.2 = Some k) (votes db))).
Proof. intros Hp. unfold getVote. by rewrite Hp. Qed.

Lemma getVote_reply u p r db k :
  truthy p = None -> truthy r = Some k ->
  (getVote u p r db).1 =
    Return (firstDoc (filter
      (fun kv => Vote.userId kv.2 = u /\ Vote.replyId kv.2 = Some k) (votes db))).
Proof. intros Hp Hr. unfold getVote. by rewrite Hp, Hr. Qed.

(** C4 (as amended): in every reachable state, for a vote of type
    "upvote" or "downvote" on an existing target, createVote changes
    nothing when the voter's vote on the target has that type; when it
    has the other type, it retypes the vote in place, adds one to the
    tally of the new type and takes one from the tally of the old type
    unless that tally is already 0 ([Math.max(0, old - 1)]); when the
    voter has no vote on the target, it inserts a vote under a fresh id
    and adds one to the matching tally. *)
Theorem createVote_moves_one_unit_clamped db vote :
  reachable db -> validVoteType (iv_voteType vote) ->
  createVoteLaw (fun x => Z.max 0 (x - 1)) db vote.
Proof.
  intros Hdb%reachable_wf Hvalid up down. destruct db as [us ps rs vs].
  unfold tallies at 1.
  destruct (truthy (iv_postId vote)) as [p|] eqn:Hp.
  - simpl. destruct (ps !! p) as [post|] eqn:Hpost; simpl; [|done].
    intros [= <- <-]. rewrite (getVote_post _ _ _ _ p Hp).
    destruct (firstDoc _) as [e|] eqn:He.
    + rewrite (createVote_existing vote _ e)
        by by rewrite (getVote_post _ _ _ _ p Hp), He.
      apply firstDoc_filter_Some in He as (k & Hk & Hu & Hpe). simpl in *.
      destruct (wf_votes _ Hdb _ _ Hk) as [Hid _]. simpl in Hid. subst k.
      destruct (String.eqb_spec (Vote.voteType e) (iv_voteType vote))
        as [Heq|Hne]; simpl; [done|].
      intros [Hvalid_e _].
      assert (truthy (Vote.postId e) = Some p) as Hpe'.
      { rewrite Hpe. apply truthy_Some in Hp as [_ ?]. by apply truthy_Some. }
      rewrite (updateVote_post _ _ _ _ _ e _ p post) by done. simpl.
      split; [done|].
      split; [eexists; split; [apply lookup_insert_eq|done]|].
      unfold tallies. rewrite Hp. simpl.
      rewrite lookup_insert_eq. simpl. unfold switchedPost.
      destruct (isUpvote_valid _ Hvalid) as [[-> Ht]|[-> Ht]],
               (isUpvote_valid _ Hvalid_e) as [[-> He]|[-> He]];
        simpl; congruence.
    + pose proof (createVote_new_post vote us ps rs vs p post) as Hnew.
      simpl in Hnew. rewrite Hp in Hnew.
      rewrite Hnew; [|by rewrite (getVote_post _ _ _ _ p Hp), He|done|done].
      simpl. split; [by apply nextId_fresh, Hdb|]. split; [done|].
      unfold tallies. rewrite Hp. simpl. rewrite lookup_insert_eq. simpl.
      by destruct (isUpvote (iv_voteType vote)).
  - destruct (truthy (iv_replyId vote)) as [r|] eqn:Hr; [|done].
    simpl. destruct (rs !! r) as [reply|] eqn:Hreply; simpl; [|done].
    intros [= <- <-]. rewrite (getVote_reply _ _ _ _ r Hp Hr).
    destruct (firstDoc _) as [e|] eqn:He.
    + rewrite (createVote_existing vote _ e)
        by by rewrite (getVote_reply _ _ _ _ r Hp Hr), He.
      apply firstDoc_filter_Some in He as (k & Hk & Hu & Hre). simpl in *.
      destruct (wf_votes _ Hdb _ _ Hk) as [Hid _]. simpl in Hid. subst k.
      destruct (String.eqb_spec (Vote.voteType e) (iv_voteType vote))
        as [Heq|Hne]; simpl; [done|].
      intros [Hvalid_e Hone].
      assert (truthy (Vote.replyId e) = Some r) as Hre'.
      { rewrite Hre. apply truthy_Some in Hr as [_ ?]. by apply truthy_Some. }
      destruct Hone as [Hpe|Hone]; [|congruence].
      rewrite (updateVote_reply _ _ _ _ _ e _ r reply) by done. simpl.
      split; [done|].
      split; [eexists; split; [apply lookup_insert_eq|done]|].
      unfold tallies. rewrite Hp, Hr. simpl.
      rewrite lookup_insert_eq. simpl. unfold switchedReply.
      destruct (isUpvote_valid _ Hvalid) as [[-> Ht]|[-> Ht]],
               (isUpvote_valid _ Hvalid_e) as [[-> He]|[-> He]];
        simpl; congruence.
    + pose proof (createVote_new_reply vote us ps rs vs r reply) as Hnew.
      simpl in Hnew. rewrite Hp, Hr in Hnew.
      rewrite Hnew; [|by rewrite (getVote_reply _ _ _ _ r Hp Hr), He|done|done|done].
      simpl. split; [by apply nextId_fresh, Hdb|]. split; [done|].
      unfold tallies. rewrite Hp, Hr. simpl. rewrite lookup_insert_eq. simpl.
      by destruct (isUpvote (iv_voteType vote)).
Qed.

Lemma createVote_moves_one_unit_clamped_witness :
  createVoteLaw (fun x => Z.max 0 (x - 1))
    (run votedReplyTrace emptyDb) (mkInsertVote "u" None (Some 1) "downvote").
Proof.
  apply createVote_moves_one_unit_clamped.
  - eexists. reflexivity.
  - right. reflexivity.
Defined.

(** C4 as stated (the old tally decremented by 1) fails on the recycled
    reply: the voter's stored upvote meets upvotes = 0, and the switch to
    a downvote yields upvotes = 0, downvotes = 1, not upvotes = -1. *)
Lemma createVote_switch_on_zero_tally_moves_no_unit :
  ~ createVoteLaw (fun x => x - 1)
      (run recycledReplyTrace emptyDb) (mkInsertVote "u" None (Some 1) "downvote").
Proof.
  intros H. specialize (H 0 0 eq_refl). vm_compute in H.
  destruct H as (_ & _ & H); [split; by left|]. discriminate.
Qed.

(** *** Cascading delete *)

(** What deletePost removes: the post, the replies whose [postId] is the
    post's id, and the votes whose [postId] is the post's id. *)
Lemma deletePost_removes db id post :
  posts db !! id = Some post ->
  exists db',
    deletePost id (Post.authorId post) db = (Return true, db') /\
    users db' = users db /\
    posts db' = delete id (posts db) /\
    (forall k r, replies db' !! k = Some r <->
                 replies db !! k = Some r /\ Reply.postId r <> id) /\
    (forall k v, votes db' !! k = Some v <->
                 votes db !! k = Some v /\ Vote.postId v <> Some id).
Proof.
  intros Hpost. destruct db as [us ps rs vs]. simpl in *.
  unfold deletePost, bind, getPost, read. simpl. rewrite Hpost. simpl.
  rewrite String.eqb_refl. simpl. eexists. split; [done|]. simpl.
  split; [done|]. split; [done|]. split.
  - intros k r. rewrite lookup_difference_Some, map_lookup_filter_None.
    split; [|naive_solver].
    intros [Hk [Hn|Hn]]; [congruence|]. split; [done|]. by apply (Hn r).
  - intros k v. rewrite lookup_difference_Some, map_lookup_filter_None.
    split; [|naive_solver].
    intros [Hk [Hn|Hn]]; [congruence|]. split; [done|]. by apply (Hn v).
Qed.

(** C3 fails on the code: after a post, a reply to it and an upvote on
    the reply, deletePost by the author removes the post and the reply
    and keeps the vote that references the reply. *)
Theorem deletePost_keeps_votes_on_replies :
  exists db',
    deletePost 1 "a" (run votedReplyTrace emptyDb) = (Return true, db') /\
    posts db' !! 1 = None /\
    replies db' !! 1 = None /\
    votes db' !! 1 = Some (Vote.mk 1 "u" None (Some 1) "upvote").
Proof. eexists. split; [by vm_compute|]. by vm_compute. Qed.

(** *** Display names *)

Lemma firstDoc_filter_None {A} (P : string * A -> Prop)
    `{!forall kv, Decision (P kv)} (m : gmap string A) k d :
  firstDoc (filter P m) = None -> m !! k = Some d -> ~ P (k, d).
Proof.
  intros Hnone%firstDoc_None Hk HP.
  assert (filter P m !! k = Some d) as Hf by by apply map_lookup_filter_Some.
  by rewrite Hnone, lookup_empty in Hf.
Qed.

(** The username-change endpoint keeps display names unique. *)
Lemma patchUsername_unique id username db :
  uniqueUsernames db -> uniqueUsernames (patchUsername id username db).2.
Proof.
  intros Huniq. destruct db as [us ps rs vs].
  unfold patchUsername, tryCatch. destruct (_ && _); [|done].
  unfold getUserByUsername, updateUsername, bind, read, write, ret, throw.
  simpl. destruct (firstDoc _) as [taken|] eqn:Htaken; simpl; [done|].
  destruct (us !! id) as [user|] eqn:Hid; simpl; [|done].
  intros i j u v. simpl. rewrite !lookup_insert.
  repeat case_decide; subst; intros Hu Hv Heq; simplify_eq; simpl in *.
  - done.
  - by destruct (firstDoc_filter_None _ _ _ _ Htaken Hv).
  - by destruct (firstDoc_filter_None _ _ _ _ Htaken Hu).
  - by eapply (Huniq i j).
Qed.

(** C8 fails on the code: two calls of [POST /api/users] with distinct
    ids and the same username both succeed and leave two distinct users
    with one display name. *)
Theorem createUser_accepts_taken_username :
  exists db',
    (u1 <- postUsers (User.mk "a" "x" "a@e") ;;
     u2 <- postUsers (User.mk "b" "x" "b@e") ;;
     ret (u1.1, u2.1)) emptyDb = (Return (200%nat, 200%nat), db') /\
    users db' !! "a" = Some (User.mk "a" "x" "a@e") /\
    users db' !! "b" = Some (User.mk "b" "x" "b@e") /\
    ~ uniqueUsernames db'.
Proof.
  eexists. split; [by vm_compute|]. split; [by vm_compute|].
  split; [by vm_compute|].
  intros Huniq.
  specialize (Huniq "a" "b" (User.mk "a" "x" "a@e") (User.mk "b" "x" "b@e")).
  discriminate Huniq; by vm_compute.
Qed.

(** *** Deleting a reply *)

(** C9: deleteReply called by the reply's author returns true, deletes
    the reply and every vote whose [replyId] is the reply's id; when the
    [solutionId] of the reply's post is the reply's id, the post stored
    afterwards has [solutionId] null and every other field as before, and
    the other posts are as they were; in every other case (another
    solution, none, or no such post) it leaves the posts as they are. *)
Theorem deleteReply_clears_solution_reference db id reply :
  reachable db ->
  replies db !! id = Some reply ->
  exists db',
    deleteReply id (Reply.authorId reply) db = (Return true, db') /\
    users db' = users db /\
    replies db' = delete id (replies db) /\
    (forall k v, votes db' !! k = Some v <->
                 votes db !! k = Some v /\ Vote.replyId v <> Some id) /\
    (forall post, posts db !! Reply.postId reply = Some post ->
       Post.solutionId post = Some id ->
       (exists post',
          posts db' !! Reply.postId reply = Some post' /\
          Post.solutionId post' = None /\
          Post.id post' = Post.id post /\
          Post.title post' = Post.title post /\
          Post.content post' = Post.content post /\
          Post.category post' = Post.category post /\
          Post.authorId post' = Post.authorId post /\
          Post.createdAt post' = Post.createdAt post /\
          Post.upvotes post' = Post.upvotes post /\
          Post.downvotes post' = Post.downvotes post /\
          Post.replyCount post' = Post.replyCount post) /\
       (forall k, k <> Reply.postId reply -> posts db' !! k = posts db !! k) /\
       posts db' = <[Reply.postId reply := setSolutionId None post]> (posts db)) /\
    ((forall post, posts db !! Reply.postId reply = Some post ->
        Post.solutionId post <> Some id) ->
     posts db' = posts db).
Proof.
  intros Hdb%reachable_wf Hreply. destruct db as [us ps rs vs]. simpl in *.
  assert (truthy (Some (Reply.postId reply)) = Some (Reply.postId reply)) as Hpost.
  { apply truthy_Some. split; [done|]. by eapply (wf_reply_post _ Hdb). }
  assert (forall vs' k v,
    vs' = vs ∖ filter (fun kv => Vote.replyId kv.2 = Some id) vs ->
    vs' !! k = Some v <-> vs !! k = Some v /\ Vote.replyId v <> Some id) as Hvotes.
  { intros vs' k v ->. rewrite lookup_difference_Some, map_lookup_filter_None.
    split; [|naive_solver].
    intros [Hk [Hn|Hn]]; [congruence|]. split; [done|]. by apply (Hn v). }
  unfold deleteReply, bind, getReply, getPost, read. simpl. rewrite Hreply.
  simpl. rewrite String.eqb_refl. simpl. rewrite Hpost. simpl.
  destruct (ps !! Reply.postId reply) as [post|] eqn:Hp; simpl.
  - case_bool_decide as Hsol; simpl.
    + rewrite (updatePost_Some _ _ _ _ _ _ post) by done. simpl.
      eexists. split; [done|]. simpl.
      do 3 (split; [done || (intros k v; by apply Hvotes)|]). split.
      * intros ? [= <-] _. split; [|split; [|done]].
        -- eexists. split; [apply lookup_insert_eq|]. done.
        -- intros k Hk. by rewrite lookup_insert_ne.
      * intros Hno. by destruct (Hno post).
    + eexists. split; [done|]. simpl.
      do 3 (split; [done || (intros k v; by apply Hvotes)|]). split; [|done].
      by intros ? [= <-] ?.
  - eexists. split; [done|]. simpl.
    do 3 (split; [done || (intros k v; by apply Hvotes)|]). done.
Qed.

Lemma deleteReply_clears_solution_reference_witness :
  let db := run [CreatePost (mkInsertPost "t" "c" "hardware" "a") 10;
                 CreateReply (mkInsertReply "r1" 1 None "b") 11;
                 CreateReply (mkInsertReply "r2" 1 None "c") 12;
                 MarkAsSolution 1 2] emptyDb in
  (exists post, posts db !! 1 = Some post /\ Post.solutionId post = Some 2) /\
  exists post',
    posts (deleteReply 2 "c" db).2 !! 1 = Some post' /\
    Post.solutionId post' = None.
Proof.
  intros db.
  assert (posts db !! 1
          = Some (Post.mk 1 "t" "c" "hardware" "a" 10 0 0 (Some 2) None))
    as Hbefore by (vm_compute; reflexivity).
  split; [eexists; split; [exact Hbefore|reflexivity]|].
  destruct (deleteReply_clears_solution_reference db 2
              (Reply.mk 2 "r2" 1 "c" 12 None 0 0 true))
    as (db' & Hrun & _ & _ & _ & Hclear & _).
  - eexists. reflexivity.
  - vm_compute. reflexivity.
  - simpl Reply.authorId in Hrun. rewrite Hrun. simpl snd.
    destruct (Hclear _ Hbefore eq_refl) as ((post' & Hpost' & Hnone & _) & _).
    by exists post'.
Defined.

(** *** Solutions *)

(** What markAsSolution leaves behind on a reply of the post. *)
Lemma markAsSolution_result us ps rs vs postId replyId post reply :
  wf (mkDb us ps rs vs) ->
  ps !! postId = Some post -> rs !! replyId = Some reply ->
  Reply.postId reply = postId ->
  exists rs',
    markAsSolution postId replyId (mkDb us ps rs vs) =
      (Return tt,
       mkDb us (<[postId := setSolutionId (Some replyId) post]> ps) rs' vs) /\
    (exists r', rs' !! replyId = Some r' /\ Reply.isSolution r' = true) /\
    (forall old r, Post.solutionId post = Some old -> old <> replyId ->
       rs' !! old = Some r -> Reply.isSolution r = false).
Proof.
  intros Hdb Hpost Hreply Hbelongs.
  pose proof (wf_replies _ Hdb) as Hkeyed. simpl in Hkeyed.
  unfold markAsSolution, bind, getPost, getReply, read. simpl.
  rewrite Hpost. simpl. rewrite Hreply. simpl.
  rewrite (proj2 (Z.eqb_eq _ _) Hbelongs). simpl.
  destruct (truthy (Post.solutionId post)) as [s|] eqn:Hs; simpl.
  - apply truthy_Some in Hs as [Hs _].
    destruct (rs !! s) as [oldReply|] eqn:Hold; simpl.
    + assert (Reply.id oldReply = s) as -> by by apply Hkeyed in Hold as [? _].
      rewrite (updateReply_Some _ _ _ _ _ _ oldReply) by done. simpl.
      destruct (<[s := setIsSolution false oldReply]> rs !! replyId)
        as [r1|] eqn:Hr1.
      2:{ rewrite (lookup_insert_Z rs) in Hr1. case_decide; congruence. }
      rewrite (updateReply_Some _ _ _ _ _ _ r1) by done. simpl.
      rewrite (updatePost_Some _ _ _ _ _ _ post) by done. simpl.
      eexists. split; [done|]. split.
      * eexists. by rewrite lookup_insert_eq.
      * intros old r Hsol Hne. assert (old = s) as -> by congruence.
        rewrite lookup_insert_ne, lookup_insert_eq by done. by intros [= <-].
    + rewrite (updateReply_Some _ _ _ _ _ _ reply) by done. simpl.
      rewrite (updatePost_Some _ _ _ _ _ _ post) by done. simpl.
      eexists. split; [done|]. split.
      * eexists. by rewrite lookup_insert_eq.
      * intros old r Hsol Hne. assert (old = s) as -> by congruence.
        rewrite lookup_insert_ne by done. congruence.
  - apply truthy_None in Hs.
    rewrite (updateReply_Some _ _ _ _ _ _ reply) by done. simpl.
    rewrite (updatePost_Some _ _ _ _ _ _ post) by done. simpl.
    eexists. split; [done|]. split.
    + eexists. by rewrite lookup_insert_eq.
    + intros old r Hsol Hne. rewrite lookup_insert_ne by done.
      destruct Hs as [Hs|Hs]; [congruence|].
      assert (old = 0) as -> by congruence.
      intros [_ ?]%Hkeyed. lia.
Qed.

(** C5: in every state that calls of the storage methods can reach from
    the empty database (calls of markAsSolution, removeSolution and
    deleteReply among them), at most one reply of a post carries the
    solution flag, and a reply that carries it is the one the
    [solutionId] of its post references; there, markAsSolution on a reply
    of the post returns with the reply flagged, the post's [solutionId]
    set to it, and the flag of the reply that [solutionId] named before
    cleared. *)
Theorem at_most_one_solution_per_post db :
  reachable db ->
  (atMostOneSolution db /\ flaggedIsReferenced db) /\
  forall postId replyId post reply,
    posts db !! postId = Some post -> replies db !! replyId = Some reply ->
    Reply.postId reply = postId ->
    exists db',
      markAsSolution postId replyId db = (Return tt, db') /\
      posts db' = <[postId := setSolutionId (Some replyId) post]> (posts db) /\
      (exists r', replies db' !! replyId = Some r' /\ Reply.isSolution r' = true) /\
      (forall old r, Post.solutionId post = Some old -> old <> replyId ->
         replies db' !! old = Some r -> Reply.isSolution r = false).
Proof.
  intros Hdb%reachable_wf. split.
  - split; [by apply wf_atMostOneSolution|apply Hdb].
  - intros postId replyId post reply Hpost Hreply Hbelongs.
    destruct db as [us ps rs vs]. simpl in *.
    destruct (markAsSolution_result _ _ _ _ _ _ _ _ Hdb Hpost Hreply Hbelongs)
      as (rs' & Hrun & Hnew & Hold).
    eexists. split; [done|]. by simpl.
Qed.

Lemma at_most_one_solution_per_post_witness :
  atMostOneSolution
    (run [CreatePost (mkInsertPost "t" "c" "hardware" "a") 10;
          CreateReply (mkInsertReply "r1" 1 None "b") 11;
          CreateReply (mkInsertReply "r2" 1 None "c") 12;
          MarkAsSolution 1 1; MarkAsSolution 1 2] emptyDb).
Proof.
  apply (proj1 (at_most_one_solution_per_post _ (ex_intro _ _ eq_refl))).
Defined.

End StorageFacts.

(** * Further properties of the modelled code *)

Module ThreadViewFacts.
Import Reply Thread ThreadFacts ThreadView.

#[local] Instance createdAt_le_trans :
  Transitive (fun a b : Reply => createdAt a <= createdAt b).
Proof. intros a b c. lia. Qed.

Lemma createdAt_inj (l : list Reply) a b :
  NoDup (createdAt <$> l) -> a ∈ l -> b ∈ l -> createdAt a = createdAt b -> a = b.
Proof.
  induction l as [|x l IH]; simpl; [by intros _ ?%elem_of_nil|].
  intros [Hx Hl]%NoDup_cons [->|Ha]%elem_of_cons [->|Hb]%elem_of_cons Heq.
  - done.
  - destruct Hx. rewrite Heq. by apply list_elem_of_fmap_2.
  - destruct Hx. rewrite <-Heq. by apply list_elem_of_fmap_2.
  - by apply IH.
Qed.

Lemma sortReplies_perm_eq l l' :
  l ≡ₚ l' -> NoDup (createdAt <$> l) -> sortReplies l = sortReplies l'.
Proof.
  intros Hperm Hnodup.
  apply (Sorted_unique_strong (fun a b : Reply => createdAt a <= createdAt b)).
  - intros a b Ha Hb Hab Hba. rewrite elem_of_sortReplies in Ha, Hb.
    rewrite <-Hperm in Hb. apply (createdAt_inj l); [done|done|done|lia].
  - apply sortReplies_ascending.
  - apply sortReplies_ascending.
  - by rewrite !sortReplies_perm.
Qed.

(** X1: when the creation times of the replies are pairwise distinct, the
    output of the assembler does not depend on the order in which the
    replies arrive: any rearrangement of the input gives the same
    top-level list, the same buckets and the same reply map (or the same
    failure to return). *)
Theorem organize_ignores_input_order fuel l l' :
  l ≡ₚ l' -> NoDup (createdAt <$> l) ->
  organizeRepliesIntoThreads fuel l = organizeRepliesIntoThreads fuel l'.
Proof.
  intros Hperm Hnodup. unfold organizeRepliesIntoThreads.
  by rewrite (sortReplies_perm_eq l l').
Qed.

Lemma organize_ignores_input_order_witness :
  organizeRepliesIntoThreads 3
    [sampleReply 3 (Some 2) 3; sampleReply 1 None 1; sampleReply 2 (Some 1) 2]
  = organizeRepliesIntoThreads 3
    [sampleReply 1 None 1; sampleReply 2 (Some 1) 2; sampleReply 3 (Some 2) 3].
Proof.
  apply organize_ignores_input_order.
  - apply (Permutation_cons_app [_; _] []). reflexivity.
  - apply (bool_decide_unpack _). vm_compute. exact I.
Defined.

(** *** What the page renders *)









(** X3: a reply whose non-zero [parentReplyId] is the id of no reply of
    the list is never rendered: it is no top-level reply, and the only
    bucket that holds it is keyed by an id that no top-level reply has. *)
Theorem orphan_reply_is_never_rendered fuel replies out r p :
  organizeRepliesIntoThreads fuel replies = Some out ->
  r ∈ replies -> parentReplyId r = Some p -> p <> 0 ->
  (forall r', r' ∈ replies -> id r' <> p) ->
  r ∉ renderedReplies out.
Proof.
  intros Hout Hr Hp Hp0 Horphan Hrendered.
  destruct (organize_spec _ _ _ Hout) as (Hrm & Hperm & Hb).
  assert (truthy (parentReplyId r) = Some p) as Htr by by apply truthy_Some.
  unfold renderedReplies in Hrendered.
  apply list_elem_of_In, in_flat_map in Hrendered as (t & Ht & Hrt).
  apply list_elem_of_In in Ht, Hrt.
  destruct (Hb None t Ht) as [Htin Httop].
  apply elem_of_cons in Hrt as [->|Hrt]; [simpl in Httop; congruence|].
  destruct (Hb (Some (id t)) r Hrt) as [_ (p' & Hp' & Hchain & Hend)].
  assert (p' = p) as -> by congruence.
  inversion Hchain as [p0 Heq1 Heq2|p0 q k0 Hpq Hrest Heq1 Heq2];
    [by apply (Horphan t)|].
  apply parentOf_Some in Hpq as (rp & Hrp & _).
  rewrite Hrm in Hrp. apply lookup_buildReplyMap in Hrp as [Hin Hid].
  rewrite elem_of_sortReplies in Hin. by apply (Horphan rp).
Qed.

Lemma orphan_reply_is_never_rendered_witness :
  sampleReply 2 (Some 5) 1 ∉
    renderedReplies (mkThreads [] {[ 5 := [sampleReply 2 (Some 5) 1] ]}
                       {[ 2 := sampleReply 2 (Some 5) 1 ]}).
Proof.
  apply (orphan_reply_is_never_rendered 1 [sampleReply 2 (Some 5) 1] _ _ 5).
  - vm_compute. reflexivity.
  - apply list_elem_of_singleton. reflexivity.
  - reflexivity.
  - lia.
  - intros r' ->%list_elem_of_singleton. simpl. lia.
Defined.

End ThreadViewFacts.

Module RenderFacts.
Import Quote QuoteFacts Render.
Local Open Scope string_scope.

(** *** Strings *)

Lemma append_assoc (a b c : string) : (a ++ b) ++ c = a ++ (b ++ c).
Proof.
  induction a as [|d a IH]; [done|].
  change (String d ((a ++ b) ++ c) = String d (a ++ (b ++ c))). by rewrite IH.
Qed.

Lemma includes_app c a b : includes c (a ++ b) = includes c a || includes c b.
Proof.
  induction a as [|d a IH]; simpl; [done|]. rewrite IH. by rewrite orb_assoc.
Qed.

Lemma split_nonempty sep s : exists l ls, split sep s = l :: ls.
Proof.
  induction s as [|c s (l & ls & IH)]; simpl; [by eexists _, _|].
  destruct (Ascii.eqb c sep); [by eexists _, _|]. rewrite IH. by eexists _, _.
Qed.

Lemma split_app sep a b :
  includes sep a = false -> split sep (a ++ String sep b) = a :: split sep b.
Proof.
  induction a as [|c a IH]; simpl.
  - intros _. by rewrite Ascii.eqb_refl.
  - intros [Hc Ha]%orb_false_elim. rewrite Hc, (IH Ha). done.
Qed.

Lemma concat_split sep s :
  String.concat (String sep "") (split sep s) = s.
Proof.
  induction s as [|c s IH]; simpl; [done|].
  destruct (split_nonempty sep s) as (l & ls & Hs). rewrite Hs in *.
  destruct (Ascii.eqb_spec c sep) as [->|Hne].
  - change (String.concat (String sep "") ("" :: l :: ls))
      with (String sep (String.concat (String sep "") (l :: ls))).
    by rewrite IH.
  - rewrite <-IH. by destruct ls.
Qed.

Lemma trim_leading_space c s :
  isWhiteSpace c = true -> trim (String c s) = trim s.
Proof. intros Hc. unfold trim. simpl. by rewrite Hc. Qed.

Lemma substring_all s : substring 0 (String.length s) s = s.
Proof. induction s as [|c s IH]; simpl; [done|]. by rewrite IH. Qed.

Lemma substring_prefix a b : substring 0 (String.length a) (a ++ b) = a.
Proof.
  induction a as [|c a IH]; simpl; [by destruct b|]. by rewrite IH.
Qed.

Lemma indexOf_app c a b :
  includes c a = false ->
  indexOf c (a ++ String c b) = Z.of_nat (String.length a).
Proof.
  induction a as [|d a IH]; simpl.
  - intros _. by rewrite Ascii.eqb_refl.
  - intros [Hd Ha]%orb_false_elim. rewrite Hd, (IH Ha).
    destruct (Z.ltb_spec (Z.of_nat (String.length a)) 0); lia.
Qed.

(** The lines of a composed body. *)
Lemma split_composed name quote content :
  includes LF name = false -> includes LF quote = false ->
  split LF ("@" ++ name ++ ":" ++ newline ++ "> " ++ quote ++
            newline ++ newline ++ content)
  = ("@" ++ name ++ ":") :: ("> " ++ quote) :: "" :: split LF content.
Proof.
  intros Hname Hquote.
  change ("@" ++ name ++ ":" ++ newline ++ "> " ++ quote ++
          newline ++ newline ++ content)
    with (String "@" (name ++ String ":" (String LF
           (String ">" (String " " (quote ++ String LF (String LF content))))))).
  assert (String "@" (name ++ String ":" (String LF
            (String ">" (String " " (quote ++ String LF (String LF content))))))
          = ("@" ++ name ++ ":") ++ String LF
              (("> " ++ quote) ++ String LF ("" ++ String LF content))) as ->.
  { simpl. f_equal. rewrite !append_assoc. done. }
  rewrite split_app.
  2:{ rewrite !includes_app, Hname. reflexivity. }
  rewrite split_app by (rewrite includes_app, Hquote; reflexivity).
  rewrite split_app by done. done.
Qed.

Lemma composed_body username target content :
  composed username target content =
    "@" ++ usernameOrUnknown username ++ ":" ++ newline ++
    "> " ++ quoteText (stripQuote (Reply.content target)) ++
    newline ++ newline ++ content.
Proof. unfold composed, finalContent. simpl. by rewrite lookup_singleton_eq. Qed.

Lemma includes_composed name quote content :
  includes "@" ("@" ++ name ++ ":" ++ newline ++ "> " ++ quote ++
                newline ++ newline ++ content) = true /\
  includes ">" ("@" ++ name ++ ":" ++ newline ++ "> " ++ quote ++
                newline ++ newline ++ content) = true.
Proof.
  split; rewrite !includes_app.
  - reflexivity.
  - do 4 (apply orb_true_iff; right). apply orb_true_iff. by left.
Qed.

Lemma concat_blank_line content :
  String.concat newline ("" :: split LF content) = String LF content.
Proof.
  destruct (split_nonempty LF content) as (l & ls & Hs).
  pose proof (concat_split LF content) as Hjoin. rewrite Hs in *.
  change (String.concat newline ("" :: l :: ls))
    with (String LF (String.concat (String LF "") (l :: ls))).
  by rewrite Hjoin.
Qed.

(** X4: when the quoted excerpt of a composed reply body is one line (and
    the quoted user's name has no line break), quoting that reply again
    drops the whole embedded quote: the text taken for the new quote is
    the trimmed text that the reply's author wrote after it. *)
Theorem requote_drops_single_line_quote username target content :
  includes LF (usernameOrUnknown username) = false ->
  includes LF (quoteText (stripQuote (Reply.content target))) = false ->
  stripQuote (composed username target content) = trim content.
Proof.
  rewrite composed_body.
  generalize (usernameOrUnknown username)
             (quoteText (stripQuote (Reply.content target))).
  intros name quote Hname Hquote. unfold stripQuote.
  destruct (includes_composed name quote content) as [-> ->].
  rewrite split_composed by done.
  change ("@" ++ name ++ ":") with (String "@" (name ++ ":")).
  change ("> " ++ quote) with (String ">" (String " " quote)).
  cbn -[trim String.concat split].
  rewrite concat_blank_line. by apply trim_leading_space.
Qed.

Lemma requote_drops_single_line_quote_witness :
  stripQuote (composed (Some "A") (replyWith 1 "first answer") "  my reply ")
  = "my reply".
Proof.
  rewrite requote_drops_single_line_quote; reflexivity.
Defined.

Lemma substringFrom1_cons c s : substringFrom1 (String c s) = s.
Proof.
  unfold substringFrom1, jsSubstring. cbn [String.length].
  replace (Z.max 0 (Z.min 1 (Z.of_nat (S (String.length s))))) with 1 by lia.
  replace (Z.max 0 (Z.min (Z.of_nat (S (String.length s)))
                          (Z.of_nat (S (String.length s)))))
    with (Z.of_nat (S (String.length s))) by lia.
  replace (Z.min 1 (Z.of_nat (S (String.length s)))) with 1 by lia.
  replace (Z.max 1 (Z.of_nat (S (String.length s))) - 1)
    with (Z.of_nat (String.length s)) by lia.
  rewrite Nat2Z.id. change (Z.to_nat 1) with 1%nat. simpl. apply substring_all.
Qed.

Lemma username_of_line name :
  includes ":" name = false ->
  jsSubstring 1 (indexOf ":" ("@" ++ name ++ ":")) ("@" ++ name ++ ":") = name.
Proof.
  intros Hname.
  change ("@" ++ name ++ ":") with (String "@" (name ++ String ":" "")).
  cbn [indexOf]. change (Ascii.eqb "@" ":") with false. cbv iota.
  rewrite (indexOf_app ":" name "") by done.
  destruct (Z.ltb_spec (Z.of_nat (String.length name)) 0) as [|_]; [lia|].
  unfold jsSubstring. cbn [String.length]. rewrite length_app. simpl String.length.
  replace (Z.max 0 (Z.min 1 (Z.of_nat (S (String.length name + 1))))) with 1 by lia.
  replace (Z.max 0 (Z.min (Z.of_nat (String.length name) + 1)
                          (Z.of_nat (S (String.length name + 1)))))
    with (Z.of_nat (String.length name) + 1) by lia.
  replace (Z.min 1 (Z.of_nat (String.length name) + 1)) with 1 by lia.
  replace (Z.max 1 (Z.of_nat (String.length name) + 1) - 1)
    with (Z.of_nat (String.length name)) by lia.
  rewrite Nat2Z.id. change (Z.to_nat 1) with 1%nat. simpl.
  apply substring_prefix.
Qed.

(** X5: the card shows a composed reply body as the composer meant it,
    when the quoted excerpt is one line and the quoted user's name has
    neither a line break nor a colon: the quote box names that user and
    holds the trimmed excerpt, and the text below is the trimmed text of
    the reply. *)
Theorem composed_body_renders_as_quote username target content :
  includes LF (usernameOrUnknown username) = false ->
  includes ":" (usernameOrUnknown username) = false ->
  includes LF (quoteText (stripQuote (Reply.content target))) = false ->
  renderContent (composed username target content) =
    Quoted (Some (usernameOrUnknown username))
           (trim (quoteText (stripQuote (Reply.content target))))
           (trim content).
Proof.
  rewrite composed_body.
  generalize (usernameOrUnknown username)
             (quoteText (stripQuote (Reply.content target))).
  intros name quote Hname Hcolon Hquote. unfold renderContent.
  destruct (includes_composed name quote content) as [-> ->].
  rewrite split_composed by done.
  pose proof (username_of_line name Hcolon) as Huser.
  change ("@" ++ name ++ ":") with (String "@" (name ++ ":")) in *.
  change ("> " ++ quote) with (String ">" (String " " quote)).
  cbn -[trim String.concat split jsSubstring indexOf substringFrom1].
  rewrite concat_blank_line, (trim_leading_space LF) by done.
  rewrite Huser.
  rewrite substringFrom1_cons, (trim_leading_space " ") by done. done.
Qed.

Lemma composed_body_renders_as_quote_witness :
  renderContent (composed (Some "A") (replyWith 1 "first answer") "  my reply ")
  = Quoted (Some "A") "first answer" "my reply".
Proof.
  rewrite composed_body_renders_as_quote; reflexivity.
Defined.

Lemma findIndex_lt (p : string -> bool) lines n :
  findIndex p lines = Some n -> (n < length lines)%nat.
Proof.
  revert n. induction lines as [|l lines IH]; intros n; simpl; [done|].
  destruct (p l); [intros [= <-]; lia|].
  destruct (findIndex p lines) as [m|]; simpl; [|done].
  intros [= <-]. specialize (IH m eq_refl). lia.
Qed.

Lemma first_line_starts c sep s l ls :
  split sep s = l :: ls -> startsWith c l = true -> startsWith c s = true.
Proof.
  destruct s as [|d s]; simpl; [by intros [= <- <-]|].
  destruct (Ascii.eqb d sep); [by intros [= <- <-]|].
  destruct (split sep s); by intros [= <- <-].
Qed.

Lemma starts_first_line c sep s :
  Ascii.eqb c sep = false -> startsWith c s = true ->
  exists l ls, split sep s = l :: ls /\ startsWith c l = true.
Proof.
  intros Hsep. destruct s as [|d s]; simpl; [done|].
  intros Hd. apply Ascii.eqb_eq in Hd as ->. rewrite Hsep.
  destruct (split_nonempty sep s) as (l & ls & ->).
  eexists _, _. split; [done|]. simpl. apply Ascii.eqb_refl.
Qed.

Lemma startsWith_includes c s : startsWith c s = true -> includes c s = true.
Proof. destruct s as [|d s]; simpl; [done|]. by intros ->. Qed.

(** X6: showing a reply throws exactly when its content contains an [@]
    and begins with the quote marker [>]: the line before the quote,
    from which the quoted user's name is read, does not exist then. *)
Theorem renderContent_throws_iff content :
  renderContent content = TypeError <->
  includes "@" content = true /\ startsWith ">" content = true.
Proof.
  unfold renderContent. split.
  - destruct (includes "@" content) eqn:Hat; simpl; [|done].
    destruct (includes ">" content); simpl; [|done].
    destruct (split_nonempty LF content) as (l & ls & Hs). rewrite Hs.
    destruct (findIndex _ _) as [[|before]|] eqn:Hfind; [| |done].
    + intros _. split; [done|]. simpl in Hfind.
      destruct (startsWith ">" l) eqn:Hl; [by eapply first_line_starts|].
      by destruct (findIndex _ ls).
    + apply findIndex_lt in Hfind.
      destruct (lookup_lt_is_Some_2 (l :: ls) before) as [line ->]; [lia|done].
  - intros [Hat Hstart]. rewrite Hat, (startsWith_includes _ _ Hstart). simpl.
    destruct (starts_first_line ">" LF content) as (l & ls & -> & Hl);
      [done|done|].
    simpl. by rewrite Hl.
Qed.

End RenderFacts.

(** ** Guards and effects of the storage methods *)
Module StorageLaws.
Import Storage StorageFacts.

#[local] Arguments truthy : simpl never.
#[local] Arguments nextId : simpl never.

(** X7: deletePost deletes only for the post's author: it returns (true)
    exactly when the post exists and the caller is its author, and the
    post is gone then; when it throws, because there is no such post or
    the caller is someone else, the database is as it was. *)
Theorem deletePost_only_by_author db id authorId :
  match deletePost id authorId db with
  | (Return ok, db') =>
      ok = true /\ posts db' !! id = None /\
      exists post, posts db !! id = Some post /\ Post.authorId post = authorId
  | (Throw _, db') =>
      db' = db /\
      forall post, posts db !! id = Some post -> Post.authorId post <> authorId
  end.
Proof.
  destruct db as [us ps rs vs]. unfold deletePost, bind, getPost, read. simpl.
  destruct (ps !! id) as [post|] eqn:Hpost; simpl; [|done].
  destruct (String.eqb_spec (Post.authorId post) authorId) as [Heq|Hne]; simpl.
  - split; [done|]. split; [apply lookup_delete_eq|]. by exists post.
  - split; [done|]. by intros ? [= <-].
Qed.

(** X8: deleteReply deletes only for the reply's author: it returns
    (true) exactly when the reply exists and the caller is its author,
    and the reply is gone then; when it throws, the database is as it
    was. *)
Theorem deleteReply_only_by_author db id authorId :
  match deleteReply id authorId db with
  | (Return ok, db') =>
      ok = true /\ replies db' !! id = None /\
      exists reply,
        replies db !! id = Some reply /\ Reply.authorId reply = authorId
  | (Throw _, db') =>
      db' = db /\
      forall reply,
        replies db !! id = Some reply -> Reply.authorId reply <> authorId
  end.
Proof.
  destruct db as [us ps rs vs].
  unfold deleteReply, bind, getReply, getPost, read. simpl.
  destruct (rs !! id) as [reply|] eqn:Hreply; simpl; [|done].
  destruct (String.eqb_spec (Reply.authorId reply) authorId) as [Heq|Hne];
    simpl; [|split; [done|]; by intros ? [= <-]].
  destruct (truthy (Some (Reply.postId reply))) as [postId|]; simpl;
    [|split; [done|]; split; [apply lookup_delete_eq|by exists reply]].
  destruct (ps !! postId) as [post|] eqn:Hpost; simpl;
    [|split; [done|]; split; [apply lookup_delete_eq|by exists reply]].
  case_bool_decide; simpl.
  - rewrite (updatePost_Some _ _ _ _ _ _ post) by done. simpl.
    split; [done|]. split; [apply lookup_delete_eq|by exists reply].
  - split; [done|]. split; [apply lookup_delete_eq|by exists reply].
Qed.

(** *** Solutions *)

(** The replies after the flag of the reply that [post] names as its
    solution is cleared. *)
Lemma unflag_old_solution us ps rs vs post (k : unit -> M unit) :
  wf (mkDb us ps rs vs) ->
  exists rs1,
    rs1 = match truthy (Post.solutionId post) with
          | Some s =>
              match rs !! s with
              | Some old => <[s := setIsSolution false old]> rs
              | None => rs
              end
          | None => rs
          end /\
    bind
      match truthy (Post.solutionId post) with
      | Some solutionId =>
          oldSolutionReply <- getReply solutionId ;;
          match oldSolutionReply with
          | Some oldSolutionReply =>
              updateReply (Reply.id oldSolutionReply) (setIsSolution false)
          | None => ret tt
          end
      | None => ret tt
      end k (mkDb us ps rs vs) = k tt (mkDb us ps rs1 vs).
Proof.
  intros Hdb. pose proof (wf_replies _ Hdb) as Hkeyed. simpl in Hkeyed.
  eexists. split; [done|].
  destruct (truthy (Post.solutionId post)) as [s|]; [|done].
  unfold bind, getReply, read. simpl.
  destruct (rs !! s) as [old|] eqn:Hold; simpl; [|done].
  assert (Reply.id old = s) as -> by by apply Hkeyed in Hold as [? _].
  by rewrite (updateReply_Some _ _ _ _ _ _ old).
Qed.

(** What markAsSolution does to the database. *)
Lemma markAsSolution_effect us ps rs vs postId replyId :
  wf (mkDb us ps rs vs) ->
  (exists e,
     markAsSolution postId replyId (mkDb us ps rs vs)
       = (Throw e, mkDb us ps rs vs) /\
     (ps !! postId = None \/ rs !! replyId = None \/
      exists reply,
        rs !! replyId = Some reply /\ Reply.postId reply <> postId)) \/
  (exists post reply,
     ps !! postId = Some post /\ rs !! replyId = Some reply /\
     Reply.postId reply = postId /\
     markAsSolution postId replyId (mkDb us ps rs vs) =
       (Return tt,
        mkDb us (<[postId := setSolutionId (Some replyId) post]> ps)
          (<[replyId := setIsSolution true reply]>
             match truthy (Post.solutionId post) with
             | Some s =>
                 match rs !! s with
                 | Some old => <[s := setIsSolution false old]> rs
                 | None => rs
                 end
             | None => rs
             end) vs)).
Proof.
  intros Hdb.
  destruct (ps !! postId) as [post|] eqn:Hpost.
  2:{ left. unfold markAsSolution, bind, getPost, read. simpl.
      rewrite Hpost. simpl. eexists. split; [done|]. by left. }
  destruct (rs !! replyId) as [reply|] eqn:Hreply.
  2:{ left. unfold markAsSolution, bind, getPost, getReply, read. simpl.
      rewrite Hpost. simpl. rewrite Hreply. simpl.
      eexists. split; [done|]. right. by left. }
  destruct (Z.eqb_spec (Reply.postId reply) postId) as [Heq|Hne].
  2:{ left. unfold markAsSolution, bind, getPost, getReply, read. simpl.
      rewrite Hpost. simpl. rewrite Hreply. simpl.
      rewrite (proj2 (Z.eqb_neq _ _) Hne). simpl.
      eexists. split; [done|]. right. right. by exists reply. }
  right. exists post, reply. do 3 (split; [done|]).
  unfold markAsSolution. unfold bind at 1, getPost, read. simpl.
  rewrite Hpost. simpl. unfold bind at 1, getReply, read. simpl.
  rewrite Hreply. simpl. rewrite (proj2 (Z.eqb_eq _ _) Heq). simpl.
  destruct (unflag_old_solution us ps rs vs post
              (fun _ => updateReply replyId (setIsSolution true) ;;;
                        updatePost postId (setSolutionId (Some replyId))) Hdb)
    as (rs1 & Hrs1 & Hrun).
  unfold getReply, read in Hrun. rewrite Hrun. clear Hrun.
  rewrite <-Hrs1.
  assert (exists r1, rs1 !! replyId = Some r1 /\
                     setIsSolution true r1 = setIsSolution true reply)
    as (r1 & Hr1 & Hflag).
  { rewrite Hrs1. destruct (truthy (Post.solutionId post)) as [s|]; [|eauto].
    destruct (rs !! s) as [old|] eqn:Hold; [|eauto].
    rewrite (lookup_insert_Z rs). case_decide as Hs; [|eauto].
    subst s. assert (old = reply) as -> by congruence. eauto. }
  unfold bind. rewrite (updateReply_Some _ _ _ _ _ _ r1) by done. simpl.
  rewrite (updatePost_Some _ _ _ _ _ _ post) by done. by rewrite Hflag.
Qed.

(** What removeSolution does to the database. *)
Lemma removeSolution_effect us ps rs vs postId :
  wf (mkDb us ps rs vs) ->
  match ps !! postId with
  | None =>
      removeSolution postId (mkDb us ps rs vs)
        = (Throw "Post not found", mkDb us ps rs vs)
  | Some post =>
      removeSolution postId (mkDb us ps rs vs) =
        (Return tt,
         match truthy (Post.solutionId post) with
         | Some s =>
             mkDb us (<[postId := setSolutionId None post]> ps)
               match rs !! s with
               | Some old => <[s := setIsSolution false old]> rs
               | None => rs
               end vs
         | None => mkDb us ps rs vs
         end)
  end.
Proof.
  intros Hdb. pose proof (wf_replies _ Hdb) as Hkeyed. simpl in Hkeyed.
  destruct (ps !! postId) as [post|] eqn:Hpost;
    unfold removeSolution; unfold bind at 1, getPost, read; simpl;
    rewrite Hpost; simpl; [|reflexivity].
  destruct (truthy (Post.solutionId post)) as [s|]; [|reflexivity].
  unfold bind, getReply, read. simpl.
  destruct (rs !! s) as [old|] eqn:Hold; simpl.
  - assert (Reply.id old = s) as -> by by apply Hkeyed in Hold as [? _].
    rewrite (updateReply_Some _ _ _ _ _ _ old) by done. simpl.
    by rewrite (updatePost_Some _ _ _ _ _ _ post).
  - by rewrite (updatePost_Some _ _ _ _ _ _ post).
Qed.

(** X9: in a reachable state markAsSolution accepts exactly a stored
    reply of the stored post; a call that names a missing post, a
    missing reply or a reply to another post throws and leaves the
    database as it was. *)
Theorem markAsSolution_refuses_foreign_reply db postId replyId :
  reachable db ->
  match markAsSolution postId replyId db with
  | (Return _, _) =>
      exists post reply,
        posts db !! postId = Some post /\
        replies db !! replyId = Some reply /\ Reply.postId reply = postId
  | (Throw _, db') =>
      db' = db /\
      (posts db !! postId = None \/ replies db !! replyId = None \/
       exists reply,
         replies db !! replyId = Some reply /\ Reply.postId reply <> postId)
  end.
Proof.
  intros Hdb%reachable_wf. destruct db as [us ps rs vs].
  destruct (markAsSolution_effect us ps rs vs postId replyId Hdb)
    as [(e & -> & Hwhy)|(post & reply & Hpost & Hreply & Hbelongs & ->)].
  - done.
  - by exists post, reply.
Qed.

Lemma markAsSolution_refuses_foreign_reply_witness :
  let db := run [CreatePost (mkInsertPost "t" "c" "hardware" "a") 10;
                 CreatePost (mkInsertPost "t2" "c2" "software" "b") 11;
                 CreateReply (mkInsertReply "r" 2 None "c") 12] emptyDb in
  (markAsSolution 1 1 db).2 = db.
Proof.
  intros db.
  pose proof (markAsSolution_refuses_foreign_reply db 1 1
                (ex_intro _ _ eq_refl)) as H.
  destruct (markAsSolution 1 1 db) as [[[]|e] db'] eqn:Hrun.
  - vm_compute in Hrun. discriminate Hrun.
  - exact (proj1 H).
Defined.

(** X10: marking a reply as the solution of a post that has none and
    then removing the solution gives back the database as it was before
    the two calls. *)
Theorem removeSolution_undoes_markAsSolution db postId replyId post reply :
  reachable db ->
  posts db !! postId = Some post -> replies db !! replyId = Some reply ->
  Reply.postId reply = postId -> Post.solutionId post = None ->
  exists db',
    markAsSolution postId replyId db = (Return tt, db') /\
    removeSolution postId db' = (Return tt, db).
Proof.
  intros Hreach Hpost Hreply Hbelongs Hnone.
  pose proof (reachable_wf _ Hreach) as Hdb.
  assert (wf (markAsSolution postId replyId db).2) as Hdb'.
  { by apply markAsSolution_wf. }
  destruct db as [us ps rs vs]. simpl in *.
  assert (Reply.isSolution reply = false) as Hflag.
  { destruct (Reply.isSolution reply) eqn:Hflag; [|done].
    destruct (wf_solution _ Hdb _ _ Hreply Hflag) as (p & Hp & Hs).
    simpl in Hp. congruence. }
  assert (replyId <> 0) as Hid.
  { destruct (wf_replies _ Hdb _ _ Hreply). lia. }
  destruct (markAsSolution_effect us ps rs vs postId replyId Hdb)
    as [(e & _ & [?|[?|(? & ? & ?)]])|(post' & reply' & ? & ? & _ & Hrun)];
    try congruence.
  assert (post' = post) as -> by congruence.
  assert (reply' = reply) as -> by congruence.
  rewrite Hnone in Hrun. change (truthy None) with (@None Z) in Hrun.
  rewrite Hrun in Hdb' |- *. simpl in Hdb'.
  eexists. split; [done|].
  pose proof (removeSolution_effect _ _ _ _ postId Hdb') as Hremove.
  rewrite lookup_insert_eq in Hremove. simpl in Hremove.
  rewrite (proj2 (truthy_Some (Some replyId) replyId)) in Hremove by done.
  rewrite lookup_insert_eq in Hremove. rewrite Hremove. f_equal.
  rewrite !insert_insert_eq.
  replace (setSolutionId None (setSolutionId (Some replyId) post)) with post
    by (destruct post; simpl in *; by subst).
  replace (setIsSolution false (setIsSolution true reply)) with reply
    by (destruct reply; simpl in *; by subst).
  by rewrite !insert_id.
Qed.

Lemma removeSolution_undoes_markAsSolution_witness :
  let db := run [CreatePost (mkInsertPost "t" "c" "hardware" "a") 10;
                 CreateReply (mkInsertReply "r" 1 None "b") 11] emptyDb in
  exists db',
    markAsSolution 1 1 db = (Return tt, db') /\
    removeSolution 1 db' = (Return tt, db).
Proof.
  intros db.
  apply (removeSolution_undoes_markAsSolution db 1 1
           (Post.mk 1 "t" "c" "hardware" "a" 10 0 0 None None)
           (Reply.mk 1 "r" 1 "b" 11 None 0 0 false)).
  - by eexists.
  - vm_compute. reflexivity.
  - vm_compute. reflexivity.
  - reflexivity.
  - reflexivity.
Defined.

(** *** What the methods change *)

Lemma deletePost_effect us ps rs vs id authorId :
  (deletePost id authorId (mkDb us ps rs vs)).2 = mkDb us ps rs vs \/
  (deletePost id authorId (mkDb us ps rs vs)).2 =
    mkDb us (delete id ps)
      (rs ∖ filter (fun kv => Reply.postId kv.2 = id) rs)
      (vs ∖ filter (fun kv => Vote.postId kv.2 = Some id) vs).
Proof.
  unfold deletePost, bind, getPost, read. simpl.
  destruct (ps !! id) as [post|]; simpl; [|by left].
  destruct (negb _); simpl; [by left|by right].
Qed.

Lemma deleteReply_effect us ps rs vs id authorId :
  wf (mkDb us ps rs vs) ->
  (deleteReply id authorId (mkDb us ps rs vs)).2 = mkDb us ps rs vs \/
  exists reply ps',
    rs !! id = Some reply /\
    (ps' = ps /\
     (forall post, ps !! Reply.postId reply = Some post ->
        Post.solutionId post <> Some id) \/
     exists post,
       ps !! Reply.postId reply = Some post /\
       Post.solutionId post = Some id /\
       ps' = <[Reply.postId reply := setSolutionId None post]> ps) /\
    (deleteReply id authorId (mkDb us ps rs vs)).2 =
      mkDb us ps' (delete id rs)
        (vs ∖ filter (fun kv => Vote.replyId kv.2 = Some id) vs).
Proof.
  intros Hdb.
  destruct (rs !! id) as [reply|] eqn:Hreply.
  2:{ left. unfold deleteReply, bind, getReply, read. simpl. by rewrite Hreply. }
  destruct (String.eqb_spec (Reply.authorId reply) authorId) as [Heq|Hne].
  2:{ left. unfold deleteReply, bind, getReply, read. simpl. rewrite Hreply.
      simpl. by rewrite (proj2 (String.eqb_neq _ _) Hne). }
  right. exists reply.
  assert (truthy (Some (Reply.postId reply)) = Some (Reply.postId reply)) as Hp.
  { apply truthy_Some. split; [done|]. by eapply (wf_reply_post _ Hdb). }
  unfold deleteReply, bind, getReply, getPost, read. simpl. rewrite Hreply.
  simpl. rewrite (proj2 (String.eqb_eq _ _) Heq). simpl. rewrite Hp. simpl.
  destruct (ps !! Reply.postId reply) as [post|] eqn:Hpost; simpl.
  - case_bool_decide as Hsol; simpl.
    + rewrite (updatePost_Some _ _ _ _ _ _ post) by done. simpl.
      eexists. split; [done|]. split; [|done]. right. by exists post.
    + exists ps. split; [done|]. split; [|done]. left. split; [done|].
      by intros ? [= <-].
  - exists ps. split; [done|]. split; [|done]. by left.
Qed.

Lemma switchedPost_edited old new post :
  Invariants.tallyEdited post (switchedPost old new post).
Proof.
  unfold Invariants.tallyEdited, switchedPost. destruct post.
  destruct (isUpvote new), (isUpvote old); simpl; repeat split; lia.
Qed.

Lemma switchedReply_edited old new reply :
  Invariants.tallyEditedReply reply (switchedReply old new reply).
Proof.
  unfold Invariants.tallyEditedReply, switchedReply. destruct reply.
  destruct (isUpvote new), (isUpvote old); simpl; repeat split; lia.
Qed.

(** What updateVote does to the database. *)
Lemma updateVote_edits i t us ps rs vs :
  exists ps' rs' vs',
    (updateVote i t (mkDb us ps rs vs)).2 = mkDb us ps' rs' vs' /\
    Invariants.editedPosts ps ps' /\ Invariants.editedReplies rs rs' /\
    vs' = match vs !! i with
          | Some e => <[i := setVoteType t e]> vs
          | None => vs
          end.
Proof.
  destruct (vs !! i) as [e|] eqn:Hi.
  2:{ exists ps, rs, vs. unfold updateVote, bind, read. simpl. rewrite Hi.
      simpl. split; [done|]. split; [by left|]. split; [by left|done]. }
  destruct (String.eqb_spec (Vote.voteType e) t) as [Heq|Hne].
  { unfold updateVote, bind, read. simpl. rewrite Hi. simpl.
    rewrite (proj2 (String.eqb_eq _ _) Heq). simpl.
    erewrite updateVoteDoc_Some by done. simpl.
    eexists ps, rs, _. split; [done|]. split; [by left|]. split; [by left|].
    done. }
  destruct (truthy (Vote.postId e)) as [p|] eqn:Hp.
  - destruct (ps !! p) as [post|] eqn:Hpost.
    + rewrite (updateVote_post _ _ _ _ _ _ _ _ _ Hi Hne Hp Hpost). simpl.
      eexists _, rs, _. split; [done|]. split; [|split; [by left|]].
      * right. eexists p, post, _. split; [done|].
        split; [apply switchedPost_edited|done].
      * done.
    + unfold updateVote, bind, getPost, read. simpl. rewrite Hi. simpl.
      rewrite (proj2 (String.eqb_neq _ _) Hne). simpl. rewrite Hp. simpl.
      rewrite Hpost. simpl. erewrite updateVoteDoc_Some by done. simpl.
      eexists ps, rs, _. split; [done|]. split; [by left|]. split; [by left|].
      done.
  - destruct (truthy (Vote.replyId e)) as [r|] eqn:Hr.
    + destruct (rs !! r) as [reply|] eqn:Hreply.
      * rewrite (updateVote_reply _ _ _ _ _ _ _ _ _ Hi Hne Hp Hr Hreply). simpl.
        eexists ps, _, _. split; [done|]. split; [by left|]. split.
        -- right. eexists r, reply, _. split; [done|].
           split; [apply switchedReply_edited|done].
        -- done.
      * unfold updateVote, bind, getReply, read. simpl. rewrite Hi. simpl.
        rewrite (proj2 (String.eqb_neq _ _) Hne). simpl. rewrite Hp, Hr. simpl.
        rewrite Hreply. simpl. erewrite updateVoteDoc_Some by done. simpl.
        eexists ps, rs, _. split; [done|]. split; [by left|]. split; [by left|].
        done.
    + unfold updateVote, bind, read. simpl. rewrite Hi. simpl.
      rewrite (proj2 (String.eqb_neq _ _) Hne). simpl. rewrite Hp, Hr. simpl.
      erewrite updateVoteDoc_Some by done. simpl.
      eexists ps, rs, _. split; [done|]. split; [by left|]. split; [by left|].
      done.
Qed.

Lemma firstDoc_filter_empty {A} (P : Z * A -> Prop)
    `{!forall kv, Decision (P kv)} (m : gmap Z A) k d :
  firstDoc (filter P m) = None -> m !! k = Some d -> ~ P (k, d).
Proof.
  intros Hnone%firstDoc_None Hk HP.
  assert (filter P m !! k = Some d) as Hf by by apply map_lookup_filter_Some.
  by rewrite Hnone, lookup_empty in Hf.
Qed.

(** What createVote does to the database. *)
Lemma createVote_edits vote us ps rs vs :
  keyed Vote.id vs ->
  exists ps' rs' vs',
    (createVote vote (mkDb us ps rs vs)).2 = mkDb us ps' rs' vs' /\
    Invariants.editedPosts ps ps' /\ Invariants.editedReplies rs rs' /\
    Invariants.editedVotes (iv_userId vote) vs vs'.
Proof.
  intros Hkeyed.
  destruct (getVote (iv_userId vote) (iv_postId vote) (iv_replyId vote)
              (mkDb us ps rs vs)).1 as [[e|]|msg] eqn:Hget.
  - rewrite (createVote_existing _ _ _ Hget). destruct (negb _).
    + destruct (updateVote_edits (Vote.id e) (iv_voteType vote) us ps rs vs)
        as (ps' & rs' & vs' & -> & ? & ? & Hvs).
      exists ps', rs', vs'. do 3 (split; [done|]). rewrite Hvs.
      destruct (vs !! Vote.id e) as [e'|] eqn:He'; [|by left].
      right. left. by exists (Vote.id e), e', (iv_voteType vote).
    + exists ps, rs, vs. repeat split; by left.
  - destruct (nextId_fresh Vote.id vs Hkeyed) as [Hfresh _].
    assert (forall p j w,
      truthy (iv_postId vote) = Some p -> vs !! j = Some w ->
      Vote.postId w = Some p -> Vote.userId w <> iv_userId vote) as Hnew.
    { intros p j w Hp Hj Hw Hu. rewrite (getVote_post _ _ _ _ _ Hp) in Hget.
      injection Hget as Hget.
      by apply (firstDoc_filter_empty _ _ _ _ Hget Hj). }
    destruct (truthy (iv_postId vote)) as [p|] eqn:Hp.
    + destruct (ps !! p) as [post|] eqn:Hpost.
      * rewrite (createVote_new_post _ _ _ _ _ _ _ Hget Hp Hpost). simpl.
        eexists _, rs, _. split; [done|]. split; [|split; [by left|]].
        -- right. eexists p, post, _. split; [done|]. split; [|done].
           unfold Invariants.tallyEdited. destruct post.
           destruct (isUpvote _); simpl; repeat split; lia.
        -- right. right. eexists _, _. split; [done|]. split; [|split; [|done]];
             [done|]. simpl. intros p0 j w Hv. apply Hnew. congruence.
      * unfold createVote. unfold bind at 1. rewrite getVote_state, Hget.
        rewrite bind_read, bind_write. unfold bind, getPost, read, withVotes.
        simpl. rewrite Hp. simpl. rewrite Hpost. simpl.
        eexists ps, rs, _. split; [done|]. split; [by left|]. split; [by left|].
        right. right. eexists _, _. split; [done|]. split; [|split; [|done]];
          [done|]. simpl. intros p0 j w Hv. apply Hnew. congruence.
    + destruct (truthy (iv_replyId vote)) as [r|] eqn:Hr.
      * destruct (rs !! r) as [reply|] eqn:Hreply.
        -- rewrite (createVote_new_reply _ _ _ _ _ _ _ Hget Hp Hr Hreply). simpl.
           eexists ps, _, _. split; [done|]. split; [by left|]. split.
           ++ right. eexists r, reply, _. split; [done|]. split; [|done].
              unfold Invariants.tallyEditedReply. destruct reply.
              destruct (isUpvote _); simpl; repeat split; lia.
           ++ right. right. eexists _, _. split; [done|].
              split; [|split; [|done]]; [done|]. simpl. intros p0 j w Hv. congruence.
        -- unfold createVote. unfold bind at 1. rewrite getVote_state, Hget.
           rewrite bind_read, bind_write. unfold bind, getReply, read, withVotes.
           simpl. rewrite Hp, Hr. simpl. rewrite Hreply. simpl.
           eexists ps, rs, _. split; [done|]. split; [by left|].
           split; [by left|].
           right. right. eexists _, _. split; [done|].
           split; [|split; [|done]]; [done|]. simpl. intros p0 j w Hv. congruence.
      * unfold getVote in Hget. by rewrite Hp, Hr in Hget.
  - unfold createVote. unfold bind at 1. rewrite getVote_state, Hget. simpl.
    exists ps, rs, vs. repeat split; by left.
Qed.

(** *** Invariants of the reachable states *)

Lemma run_invariant (I : Db -> Prop) :
  (forall c db, wf db -> I db -> I (exec c db)) ->
  forall calls db, wf db -> I db -> I (run calls db).
Proof.
  intros Hstep calls. induction calls as [|c calls IH]; intros db Hdb HI;
    [done|].
  simpl. apply IH; [by apply exec_wf|by apply Hstep].
Qed.

Lemma tallyEdited_solutionId p p' :
  Invariants.tallyEdited p p' -> Post.solutionId p' = Post.solutionId p.
Proof. intros [-> _]. reflexivity. Qed.

Lemma tallyEditedReply_fields r r' :
  Invariants.tallyEditedReply r r' ->
  Reply.postId r' = Reply.postId r /\ Reply.isSolution r' = Reply.isSolution r.
Proof. intros [-> _]. by split. Qed.

Lemma referenced_edited us ps rs vs us' ps' rs' vs' :
  Invariants.referencedIsFlagged (mkDb us ps rs vs) ->
  Invariants.editedPosts ps ps' -> Invariants.editedReplies rs rs' ->
  Invariants.referencedIsFlagged (mkDb us' ps' rs' vs').
Proof.
  intros HA Hps Hrs k p s Hk Hs. simpl in *.
  assert (exists p0, ps !! k = Some p0 /\ Post.solutionId p0 = Some s)
    as (p0 & Hk0 & Hs0).
  { destruct Hps as [->|(j & q & q' & Hj & Hq & ->)]; [eauto|].
    rewrite (lookup_insert_Z ps) in Hk. case_decide; [|eauto]. subst j.
    injection Hk as <-. exists q. split; [done|].
    by rewrite <-(tallyEdited_solutionId _ _ Hq). }
  destruct (HA k p0 s Hk0 Hs0) as (r & Hr & Hpost & Hflag). simpl in Hr.
  destruct Hrs as [->|(j & q & q' & Hj & Hq & ->)]; [eauto|].
  rewrite (lookup_insert_Z rs). case_decide; [|eauto]. subst j.
  exists q'. split; [done|]. assert (q = r) as -> by congruence.
  destruct (tallyEditedReply_fields _ _ Hq) as [-> ->]. done.
Qed.

Lemma exec_referenced c db :
  wf db -> Invariants.referencedIsFlagged db ->
  Invariants.referencedIsFlagged (exec c db).
Proof.
  intros Hdb HA. destruct db as [us ps rs vs].
  pose proof (wf_replies _ Hdb) as Hkeyed. simpl in Hkeyed.
  destruct c; simpl.
  - done.
  - unfold updateUsername, bind, read. simpl. by destruct (us !! userId).
  - intros k p s. simpl. rewrite (lookup_insert_Z ps). case_decide.
    + by intros [= <-].
    + apply HA.
  - destruct (deletePost_effect us ps rs vs id authorId) as [->| ->]; [done|].
    intros k p s. simpl. intros [Hne Hk]%lookup_delete_Some Hs.
    destruct (HA k p s Hk Hs) as (r & Hr & Hpost & Hflag). simpl in Hr.
    exists r. split; [|done]. apply lookup_difference_Some. split; [done|].
    apply map_lookup_filter_None. right. intros r' Hr'. simpl. congruence.
  - unfold createReply. destruct (truthy (Some _)); [|done].
    intros k p s Hk Hs. simpl in *.
    destruct (HA k p s Hk Hs) as (r & Hr & Hpost & Hflag). simpl in Hr.
    exists r. split; [|done]. rewrite lookup_insert_ne; [done|]. intros Heq.
    destruct (nextId_fresh Reply.id rs Hkeyed) as [Hfresh _]. congruence.
  - destruct (deleteReply_effect us ps rs vs id authorId Hdb)
      as [->|(reply & ps' & Hreply & Hps' & ->)]; [done|].
    intros k p s Hk Hs. simpl in *.
    destruct Hps' as [[-> Hno]|(post & Hpost & Hsol & ->)].
    + destruct (HA k p s Hk Hs) as (r & Hr & Hrp & Hflag). simpl in Hr.
      exists r. split; [|done]. apply lookup_delete_Some. split; [|done].
      intros <-. assert (r = reply) as -> by congruence.
      apply (Hno p); [by rewrite Hrp|done].
    + rewrite (lookup_insert_Z ps) in Hk. case_decide as Hk'.
      * by injection Hk as <-.
      * destruct (HA k p s Hk Hs) as (r & Hr & Hrp & Hflag). simpl in Hr.
        exists r. split; [|done]. apply lookup_delete_Some. split; [|done].
        intros <-. assert (r = reply) as -> by congruence. done.
  - destruct (createVote_edits vote us ps rs vs)
      as (ps' & rs' & vs' & -> & Hps & Hrs & _); [apply Hdb|].
    by eapply referenced_edited.
  - destruct (updateVote_edits voteId voteType us ps rs vs)
      as (ps' & rs' & vs' & -> & Hps & Hrs & _).
    by eapply referenced_edited.
  - destruct (markAsSolution_effect us ps rs vs postId replyId Hdb)
      as [(e & -> & _)|(post & reply & Hpost & Hreply & Hbelongs & ->)];
      [done|].
    intros k p s Hk Hs. simpl in *.
    rewrite (lookup_insert_Z ps) in Hk. case_decide as Hk'.
    + subst k. injection Hk as <-. simpl in Hs. injection Hs as <-.
      eexists. split; [apply lookup_insert_eq|]. done.
    + destruct (HA k p s Hk Hs) as (r & Hr & Hrp & Hflag). simpl in Hr.
      exists r. split; [|done]. rewrite lookup_insert_ne by congruence.
      destruct (truthy (Post.solutionId post)) as [s0|] eqn:Hs0; [|done].
      destruct (rs !! s0) as [old|] eqn:Hold; [|done].
      rewrite lookup_insert_ne; [done|]. intros <-.
      apply truthy_Some in Hs0 as [Hs0 _].
      destruct (HA postId post s0 Hpost Hs0) as (r0 & Hr0 & Hr0p & _).
      simpl in Hr0. congruence.
  - pose proof (removeSolution_effect us ps rs vs postId Hdb) as Hrun.
    destruct (ps !! postId) as [post|] eqn:Hpost; rewrite Hrun; [|done].
    simpl. destruct (truthy (Post.solutionId post)) as [s0|] eqn:Hs0; [|done].
    intros k p s Hk Hs. simpl in *.
    rewrite (lookup_insert_Z ps) in Hk. case_decide as Hk'.
    + by injection Hk as <-.
    + destruct (HA k p s Hk Hs) as (r & Hr & Hrp & Hflag). simpl in Hr.
      exists r. split; [|done].
      destruct (rs !! s0) as [old|] eqn:Hold; [|done].
      rewrite lookup_insert_ne; [done|]. intros <-.
      apply truthy_Some in Hs0 as [Hs0 _].
      destruct (HA postId post s0 Hpost Hs0) as (r0 & Hr0 & Hr0p & _).
      simpl in Hr0. congruence.
Qed.

Lemma solution_reference_flagged_core db :
  reachable db -> Invariants.referencedIsFlagged db.
Proof.
  intros [calls ->]. apply run_invariant.
  - apply exec_referenced.
  - apply emptyDb_wf.
  - intros k p s Hk. simpl in Hk. by rewrite lookup_empty in Hk.
Qed.

(** X11: in every reachable state the reply that a post names as its
    solution is stored, is a reply to that post and carries the solution
    flag, and no other reply to the post carries it: a post never points
    to a deleted reply, to a reply of another post or to a reply without
    the flag. *)
Theorem solution_reference_names_flagged_reply db k p s :
  reachable db ->
  posts db !! k = Some p -> Post.solutionId p = Some s ->
  exists r,
    replies db !! s = Some r /\ Reply.postId r = k /\
    Reply.isSolution r = true /\
    forall s' r', replies db !! s' = Some r' -> Reply.postId r' = k ->
      Reply.isSolution r' = true -> s' = s.
Proof.
  intros Hreach Hk Hs.
  destruct (solution_reference_flagged_core db Hreach k p s Hk Hs)
    as (r & Hr & Hpost & Hflag).
  exists r. do 3 (split; [done|]). intros s' r' Hr' Hpost' Hflag'.
  destruct (wf_solution _ (reachable_wf _ Hreach) _ _ Hr' Hflag')
    as (p' & Hp' & Hs').
  rewrite Hpost' in Hp'. congruence.
Qed.

Lemma solution_reference_names_flagged_reply_witness :
  exists r,
    replies
      (run [CreatePost (mkInsertPost "t" "c" "hardware" "a") 10;
            CreateReply (mkInsertReply "r1" 1 None "b") 11;
            CreateReply (mkInsertReply "r2" 1 None "c") 12;
            MarkAsSolution 1 1; MarkAsSolution 1 2; DeleteReply 1 "b"]
         emptyDb) !! 2 = Some r /\
    Reply.isSolution r = true.
Proof.
  destruct (solution_reference_names_flagged_reply
    (run [CreatePost (mkInsertPost "t" "c" "hardware" "a") 10;
          CreateReply (mkInsertReply "r1" 1 None "b") 11;
          CreateReply (mkInsertReply "r2" 1 None "c") 12;
          MarkAsSolution 1 1; MarkAsSolution 1 2; DeleteReply 1 "b"] emptyDb)
    1 (Post.mk 1 "t" "c" "hardware" "a" 10 0 0 (Some 2) None) 2)
    as (r & Hr & _ & Hflag & _).
  - by eexists.
  - vm_compute. reflexivity.
  - reflexivity.
  - by exists r.
Defined.

(** X12: in a reachable state removeSolution on a stored post returns
    and leaves the post without a solution: its [solutionId] is null, no
    reply to it carries the flag, and the replies that did not carry the
    flag, the users and the votes are as before. *)
Theorem removeSolution_leaves_no_solution db postId post :
  reachable db -> posts db !! postId = Some post ->
  exists db',
    removeSolution postId db = (Return tt, db') /\
    posts db' = <[postId := setSolutionId None post]> (posts db) /\
    (forall k r, replies db' !! k = Some r -> Reply.postId r = postId ->
       Reply.isSolution r = false) /\
    (forall k r, replies db !! k = Some r -> Reply.isSolution r = false ->
       replies db' !! k = Some r) /\
    users db' = users db /\ votes db' = votes db.
Proof.
  intros Hreach Hpost. pose proof (reachable_wf _ Hreach) as Hdb.
  pose proof (solution_reference_flagged_core _ Hreach) as HA.
  pose proof (removeSolution_wf postId db Hdb) as Hdb'.
  destruct db as [us ps rs vs]. simpl in *.
  pose proof (removeSolution_effect us ps rs vs postId Hdb) as Hrun.
  rewrite Hpost in Hrun. rewrite Hrun in Hdb' |- *. simpl in Hdb'.
  eexists. split; [done|].
  assert (forall k r db',
    wf db' -> (exists p, posts db' !! postId = Some p /\
                         Post.solutionId p = None) ->
    replies db' !! k = Some r -> Reply.postId r = postId ->
    Reply.isSolution r = false) as Hflags.
  { intros k r db' Hwf (p & Hp & Hnone) Hk Hbelongs.
    destruct (Reply.isSolution r) eqn:Hflag; [|done].
    destruct (wf_solution _ Hwf _ _ Hk Hflag) as (p' & Hp' & Hs).
    rewrite Hbelongs in Hp'. congruence. }
  destruct (truthy (Post.solutionId post)) as [s|] eqn:Hs; simpl.
  - split; [done|]. split; [|split; [|done]].
    + intros k r. apply (Hflags k r _ Hdb'). simpl.
      eexists. by rewrite lookup_insert_eq.
    + intros k r Hk Hflag. destruct (rs !! s) as [old|] eqn:Hold; [|done].
      rewrite lookup_insert_ne; [done|]. intros <-.
      apply truthy_Some in Hs as [Hs _].
      destruct (HA postId post s Hpost Hs) as (r0 & Hr0 & _ & Hflag0).
      simpl in Hr0. congruence.
  - assert (Post.solutionId post = None) as Hnone.
    { destruct (Post.solutionId post) as [s|] eqn:Hsol; [|done].
      destruct (HA postId post s Hpost Hsol) as (r0 & Hr0 & _).
      simpl in Hr0. destruct (wf_replies _ Hdb _ _ Hr0) as [_ Hpos].
      assert (truthy (Some s) = Some s) as Htruthy
        by (apply truthy_Some; split; [done|lia]).
      congruence. }
    split.
    { replace (setSolutionId None post) with post
        by (destruct post; simpl in *; by subst).
      by rewrite insert_id. }
    split; [|done]. intros k r. apply (Hflags k r _ Hdb'). simpl. eauto.
Qed.

Lemma removeSolution_leaves_no_solution_witness :
  posts (removeSolution 1
          (run [CreatePost (mkInsertPost "t" "c" "hardware" "a") 10;
                CreateReply (mkInsertReply "r1" 1 None "b") 11;
                MarkAsSolution 1 1] emptyDb)).2 !! 1
  = Some (Post.mk 1 "t" "c" "hardware" "a" 10 0 0 None None).
Proof.
  destruct (removeSolution_leaves_no_solution
    (run [CreatePost (mkInsertPost "t" "c" "hardware" "a") 10;
          CreateReply (mkInsertReply "r1" 1 None "b") 11;
          MarkAsSolution 1 1] emptyDb)
    1 (Post.mk 1 "t" "c" "hardware" "a" 10 0 0 (Some 1) None))
    as (db' & Hrun & Hposts & _).
  - by eexists.
  - vm_compute. reflexivity.
  - rewrite Hrun. simpl snd. rewrite Hposts. apply lookup_insert_eq.
Defined.

(** *** Tallies *)

Lemma nonNegative_edited us ps rs vs us' ps' rs' vs' :
  Invariants.nonNegativeTallies (mkDb us ps rs vs) ->
  Invariants.editedPosts ps ps' -> Invariants.editedReplies rs rs' ->
  Invariants.nonNegativeTallies (mkDb us' ps' rs' vs').
Proof.
  intros [HP HR] Hps Hrs. simpl in *. split; simpl.
  - intros k p. destruct Hps as [->|(j & q & q' & Hj & (_ & Hup & Hdown) & ->)];
      [apply HP|].
    rewrite (lookup_insert_Z ps). case_decide; [|apply HP].
    intros [= <-]. destruct (HP _ _ Hj). split; auto.
  - intros k r. destruct Hrs as [->|(j & q & q' & Hj & (_ & Hup & Hdown) & ->)];
      [apply HR|].
    rewrite (lookup_insert_Z rs). case_decide; [|apply HR].
    intros [= <-]. destruct (HR _ _ Hj). split; auto.
Qed.

Lemma exec_nonNegative c db :
  wf db -> Invariants.nonNegativeTallies db ->
  Invariants.nonNegativeTallies (exec c db).
Proof.
  intros Hdb HB. destruct db as [us ps rs vs].
  pose proof HB as [HP HR]. simpl in HP, HR.
  destruct c; simpl.
  - done.
  - unfold updateUsername, bind, read. simpl. by destruct (us !! userId).
  - split; [|done]. intros k p. simpl. rewrite (lookup_insert_Z ps).
    case_decide; [|apply HP]. by intros [= <-].
  - destruct (deletePost_effect us ps rs vs id authorId) as [->| ->]; [done|].
    split; simpl.
    + intros k p [_ Hk]%lookup_delete_Some. by eapply HP.
    + intros k r [Hk _]%lookup_difference_Some. by eapply HR.
  - unfold createReply. destruct (truthy (Some _)); [|done].
    split; [done|]. intros k r. simpl. rewrite (lookup_insert_Z rs).
    case_decide; [|apply HR]. by intros [= <-].
  - destruct (deleteReply_effect us ps rs vs id authorId Hdb)
      as [->|(reply & ps' & Hreply & Hps' & ->)]; [done|].
    split; simpl.
    + destruct Hps' as [[-> _]|(post & Hpost & _ & ->)]; [done|].
      intros k p. rewrite (lookup_insert_Z ps). case_decide; [|apply HP].
      intros [= <-]. by apply (HP _ _ Hpost).
    + intros k r [_ Hk]%lookup_delete_Some. by eapply HR.
  - destruct (createVote_edits vote us ps rs vs)
      as (ps' & rs' & vs' & -> & Hps & Hrs & _); [apply Hdb|].
    by eapply nonNegative_edited.
  - destruct (updateVote_edits voteId voteType us ps rs vs)
      as (ps' & rs' & vs' & -> & Hps & Hrs & _).
    by eapply nonNegative_edited.
  - destruct (markAsSolution_effect us ps rs vs postId replyId Hdb)
      as [(e & -> & _)|(post & reply & Hpost & Hreply & Hbelongs & ->)];
      [done|].
    split; simpl.
    + intros k p. rewrite (lookup_insert_Z ps). case_decide; [|apply HP].
      intros [= <-]. by apply (HP _ _ Hpost).
    + intros k r. rewrite lookup_insert_Z. case_decide.
      { intros [= <-]. by apply (HR _ _ Hreply). }
      destruct (truthy (Post.solutionId post)) as [s0|]; [|apply HR].
      destruct (rs !! s0) as [old|] eqn:Hold; [|apply HR].
      rewrite (lookup_insert_Z rs). case_decide; [|apply HR].
      intros [= <-]. by apply (HR _ _ Hold).
  - pose proof (removeSolution_effect us ps rs vs postId Hdb) as Hrun.
    destruct (ps !! postId) as [post|] eqn:Hpost; rewrite Hrun; [|done].
    simpl. destruct (truthy (Post.solutionId post)) as [s0|]; [|done].
    split; simpl.
    + intros k p. rewrite (lookup_insert_Z ps). case_decide; [|apply HP].
      intros [= <-]. by apply (HP _ _ Hpost).
    + intros k r. destruct (rs !! s0) as [old|] eqn:Hold; [|apply HR].
      rewrite (lookup_insert_Z rs). case_decide; [|apply HR].
      intros [= <-]. by apply (HR _ _ Hold).
Qed.

(** X13: in every reachable state no tally is negative: the upvotes and
    the downvotes of every post and of every reply are at least 0,
    whatever votes were cast, switched or left behind. *)
Theorem tallies_never_negative db :
  reachable db -> Invariants.nonNegativeTallies db.
Proof.
  intros [calls ->]. apply run_invariant.
  - apply exec_nonNegative.
  - apply emptyDb_wf.
  - split; intros k p Hk; simpl in Hk; by rewrite lookup_empty in Hk.
Qed.

Lemma tallies_never_negative_witness :
  Invariants.nonNegativeTallies
    (run [CreatePost (mkInsertPost "t" "c" "hardware" "a") 10;
          CreateVote (mkInsertVote "u" (Some 1) None "upvote");
          CreateVote (mkInsertVote "u" (Some 1) None "downvote");
          CreateVote (mkInsertVote "u" (Some 1) None "upvote")] emptyDb).
Proof.
  apply tallies_never_negative. by eexists.
Defined.

(** *** One vote per user and post *)

Lemma oneVote_subset us ps rs vs us' ps' rs' vs' :
  Invariants.oneVotePerPost (mkDb us ps rs vs) ->
  (forall k v, vs' !! k = Some v -> vs !! k = Some v) ->
  Invariants.oneVotePerPost (mkDb us' ps' rs' vs').
Proof.
  intros HC Hsub i j v w p Hi Hj. simpl in *.
  apply (HC i j v w p); by apply Hsub.
Qed.

Lemma oneVote_edited userId us ps rs vs us' ps' rs' vs' :
  Invariants.oneVotePerPost (mkDb us ps rs vs) ->
  Invariants.editedVotes userId vs vs' ->
  Invariants.oneVotePerPost (mkDb us' ps' rs' vs').
Proof.
  intros HC [->|[(k & e & t & Hk & ->)|(k & n & Hk & Hu & Hnew & ->)]].
  - by eapply oneVote_subset.
  - intros i j v w p. simpl. rewrite !(lookup_insert_Z vs).
    repeat case_decide; try congruence.
    + intros [= <-] Hj. simpl. intros Hu Hv Hw. subst i.
      by apply (HC k j e w p).
    + intros Hi [= <-]. simpl. intros Hu Hv Hw. subst j.
      by apply (HC i k v e p).
    + apply HC.
  - intros i j v w p. simpl. rewrite !(lookup_insert_Z vs).
    repeat case_decide; try congruence.
    + intros [= <-] Hj Huser Hv Hw. exfalso.
      apply (Hnew p j w Hv Hj Hw). congruence.
    + intros Hi [= <-] Huser Hv Hw. exfalso.
      apply (Hnew p i v Hw Hi Hv). congruence.
    + apply HC.
Qed.

Lemma exec_oneVote c db :
  wf db -> Invariants.oneVotePerPost db ->
  Invariants.oneVotePerPost (exec c db).
Proof.
  intros Hdb HC. destruct db as [us ps rs vs].
  destruct c; simpl.
  - done.
  - unfold updateUsername, bind, read. simpl. by destruct (us !! userId).
  - done.
  - destruct (deletePost_effect us ps rs vs id authorId) as [->| ->]; [done|].
    eapply oneVote_subset; [done|]. by intros k v [? _]%lookup_difference_Some.
  - unfold createReply. by destruct (truthy (Some _)).
  - destruct (deleteReply_effect us ps rs vs id authorId Hdb)
      as [->|(reply & ps' & Hreply & Hps' & ->)]; [done|].
    eapply oneVote_subset; [done|]. by intros k v [? _]%lookup_difference_Some.
  - destruct (createVote_edits vote us ps rs vs)
      as (ps' & rs' & vs' & -> & _ & _ & Hvs); [apply Hdb|].
    by eapply oneVote_edited.
  - destruct (updateVote_edits voteId voteType us ps rs vs)
      as (ps' & rs' & vs' & -> & _ & _ & Hvs).
    eapply (oneVote_edited ""); [done|]. rewrite Hvs.
    destruct (vs !! voteId) as [e|] eqn:He; [|by left].
    right. left. by exists voteId, e, voteType.
  - destruct (markAsSolution_effect us ps rs vs postId replyId Hdb)
      as [(e & -> & _)|(post & reply & Hpost & Hreply & Hbelongs & ->)]; done.
  - pose proof (removeSolution_effect us ps rs vs postId Hdb) as Hrun.
    destruct (ps !! postId) as [post|] eqn:Hpost; rewrite Hrun; [|done].
    simpl. by destruct (truthy (Post.solutionId post)).
Qed.

(** X14: in every reachable state a user has at most one vote on a post:
    two stored votes of the same user on the same post are one and the
    same vote record. *)
Theorem one_vote_per_user_and_post db :
  reachable db -> Invariants.oneVotePerPost db.
Proof.
  intros [calls ->]. apply run_invariant.
  - apply exec_oneVote.
  - apply emptyDb_wf.
  - intros i j v w p Hi. simpl in Hi. by rewrite lookup_empty in Hi.
Qed.

Lemma one_vote_per_user_and_post_witness :
  Invariants.oneVotePerPost
    (run [CreatePost (mkInsertPost "t" "c" "hardware" "a") 10;
          CreateVote (mkInsertVote "u" (Some 1) None "upvote");
          CreateVote (mkInsertVote "u" (Some 1) None "downvote");
          CreateVote (mkInsertVote "w" (Some 1) None "upvote")] emptyDb).
Proof.
  apply one_vote_per_user_and_post. by eexists.
Defined.

Lemma reachable_exec c db : reachable db -> reachable (exec c db).
Proof.
  intros [calls ->]. exists (calls ++ [c]). unfold run. by rewrite foldl_app.
Qed.

(** The votes after createVote stored a new vote. *)
Lemma createVote_new_votes vote us ps rs vs :
  (getVote (iv_userId vote) (iv_postId vote) (iv_replyId vote)
     (mkDb us ps rs vs)).1 = Return None ->
  votes (createVote vote (mkDb us ps rs vs)).2 =
    <[nextId Vote.id vs :=
        Vote.mk (nextId Vote.id vs) (iv_userId vote) (truthy (iv_postId vote))
          (truthy (iv_replyId vote)) (iv_voteType vote)]> vs.
Proof.
  intros Hget.
  destruct (truthy (iv_postId vote)) as [p|] eqn:Hp.
  - destruct (ps !! p) as [post|] eqn:Hpost.
    + rewrite (createVote_new_post _ _ _ _ _ _ _ Hget Hp Hpost). simpl.
      by rewrite Hp.
    + unfold createVote. unfold bind at 1. rewrite getVote_state, Hget.
      rewrite bind_read, bind_write. unfold bind, getPost, read, withVotes.
      simpl. rewrite Hp. simpl. by rewrite Hpost.
  - destruct (truthy (iv_replyId vote)) as [r|] eqn:Hr.
    + destruct (rs !! r) as [reply|] eqn:Hreply.
      * rewrite (createVote_new_reply _ _ _ _ _ _ _ Hget Hp Hr Hreply). simpl.
        by rewrite Hp, Hr.
      * unfold createVote. unfold bind at 1. rewrite getVote_state, Hget.
        rewrite bind_read, bind_write. unfold bind, getReply, read, withVotes.
        simpl. rewrite Hp, Hr. simpl. by rewrite Hreply.
    + unfold getVote in Hget. by rewrite Hp, Hr in Hget.
Qed.

(** X15: in a reachable state, a vote on a post that is sent a second
    time changes nothing: the second createVote returns the user's vote
    on the post, which has the requested type, and leaves the database
    as the first call left it. *)
Theorem repeated_post_vote_counts_once db vote p :
  reachable db -> truthy (iv_postId vote) = Some p ->
  exists v,
    createVote vote (createVote vote db).2
      = (Return v, (createVote vote db).2) /\
    Vote.userId v = iv_userId vote /\ Vote.postId v = Some p /\
    Vote.voteType v = iv_voteType vote.
Proof.
  intros Hreach Hp.
  pose proof (reachable_exec (CreateVote vote) db Hreach) as Hreach'.
  simpl in Hreach'.
  assert (Invariants.oneVotePerPost (createVote vote db).2) as Huniq.
  { destruct Hreach' as [calls ->]. apply run_invariant.
    - apply exec_oneVote.
    - apply emptyDb_wf.
    - intros i j v w q Hi. simpl in Hi. by rewrite lookup_empty in Hi. }
  pose proof (wf_votes _ (reachable_wf _ Hreach)) as Hkeyed.
  set (mine := fun kv : Z * Vote.t =>
         Vote.userId kv.2 = iv_userId vote /\ Vote.postId kv.2 = Some p).
  assert (exists k f,
    votes (createVote vote db).2 !! k = Some f /\ mine (k, f) /\
    Vote.voteType f = iv_voteType vote) as (k & f & Hk & Hmine & Htype).
  { pose proof (getVote_post (iv_userId vote) _ (iv_replyId vote) db p Hp)
      as Hget.
    destruct db as [us ps rs vs]. simpl in *.
    destruct (firstDoc _) as [e|] eqn:Hfirst.
    - apply firstDoc_filter_Some in Hfirst as (k & Hk & He).
      rewrite (createVote_existing _ _ _ Hget).
      destruct (String.eqb_spec (Vote.voteType e) (iv_voteType vote))
        as [Heq|Hne]; simpl.
      + by exists k, e.
      + destruct (updateVote_edits (Vote.id e) (iv_voteType vote) us ps rs vs)
          as (ps' & rs' & vs' & -> & _ & _ & ->). simpl.
        destruct (Hkeyed _ _ Hk) as [-> _]. rewrite Hk.
        exists k, (setVoteType (iv_voteType vote) e).
        rewrite lookup_insert_eq. by destruct He.
    - rewrite (createVote_new_votes _ _ _ _ _ Hget). eexists _, _.
      rewrite lookup_insert_eq. split; [done|]. by rewrite Hp. }
  pose proof (getVote_post (iv_userId vote) _ (iv_replyId vote)
                (createVote vote db).2 p Hp) as Hget'.
  fold mine in Hget'.
  destruct (firstDoc _) as [g|] eqn:Hfirst.
  2:{ by destruct (firstDoc_filter_empty _ _ _ _ Hfirst Hk). }
  apply firstDoc_filter_Some in Hfirst as (j & Hj & [Hu Hpost]).
  simpl in Hu, Hpost. destruct Hmine as [Hu' Hpost']. simpl in Hu', Hpost'.
  assert (j = k) as -> by (apply (Huniq j k g f p); congruence).
  assert (g = f) as -> by congruence.
  exists f. rewrite (createVote_existing _ _ _ Hget').
  by rewrite (proj2 (String.eqb_eq _ _) Htype).
Qed.

Lemma repeated_post_vote_counts_once_witness :
  let db := run [CreatePost (mkInsertPost "t" "c" "hardware" "a") 10;
                 CreateVote (mkInsertVote "u" (Some 1) None "downvote")]
              emptyDb in
  let vote := mkInsertVote "u" (Some 1) None "upvote" in
  exists v,
    createVote vote (createVote vote db).2
      = (Return v, (createVote vote db).2) /\
    Vote.userId v = "u" /\ Vote.postId v = Some 1 /\
    Vote.voteType v = "upvote".
Proof.
  intros db vote. apply (repeated_post_vote_counts_once db vote 1).
  - by eexists.
  - reflexivity.
Defined.

(** *** New documents *)

Lemma nextId_above {A} (getId : A -> Z) (m : gmap Z A) k d :
  keyed getId m -> m !! k = Some d -> k < nextId getId m.
Proof.
  intros Hkeyed Hk. unfold nextId.
  fold (counter (default 0 (getId <$> lastDoc getId m))).
  rewrite counter_id. unfold lastDoc.
  destruct (maxById getId (map_to_list m).*2) as [e|] eqn:Hmax; simpl.
  - apply maxById_Some in Hmax as [_ Hmax].
    assert (getId d <= getId e); [|destruct (Hkeyed _ _ Hk); lia].
    apply Hmax. apply list_elem_of_fmap. exists (k, d).
    split; [done|]. by apply elem_of_map_to_list.
  - apply maxById_None, fmap_nil_inv, map_to_list_empty_iff in Hmax as ->.
    by rewrite lookup_empty in Hk.
Qed.

(** X16: in a reachable state createPost returns a post whose id is
    larger than the id of every stored post, with both tallies 0 and no
    solution; it stores the post under that id and changes nothing else,
    so that no stored post is overwritten, and getPost then finds the
    new post. *)
Theorem createPost_stores_new_post db post now :
  reachable db ->
  exists newPost db',
    createPost post now db = (Return newPost, db') /\
    (forall k p, posts db !! k = Some p -> k < Post.id newPost) /\
    Post.upvotes newPost = 0 /\ Post.downvotes newPost = 0 /\
    Post.solutionId newPost = None /\
    Post.authorId newPost = ip_authorId post /\
    db' = withPosts (insert (Post.id newPost) newPost) db /\
    (forall k p, posts db !! k = Some p -> posts db' !! k = Some p) /\
    exists count,
      getPost (Post.id newPost) db'
        = (Return (Some (setReplyCount (Some count) newPost)), db').
Proof.
  intros Hdb%reachable_wf. pose proof (wf_posts _ Hdb) as Hkeyed.
  destruct db as [us ps rs vs]. simpl in *.
  eexists _, _.
  split; [unfold createPost, bind, read, write, ret; simpl; reflexivity|].
  simpl. split; [intros k p; by apply nextId_above|].
  do 5 (split; [done|]). split.
  - intros k p Hk. rewrite lookup_insert_ne; [done|].
    pose proof (nextId_above _ _ _ _ Hkeyed Hk). lia.
  - eexists. unfold getPost, read. simpl. by rewrite lookup_insert_eq.
Qed.

Lemma createPost_stores_new_post_witness :
  exists newPost db',
    createPost (mkInsertPost "t2" "c2" "software" "b") 20
      (run [CreatePost (mkInsertPost "t" "c" "hardware" "a") 10;
            CreatePost (mkInsertPost "t1" "c1" "hardware" "a") 11;
            DeletePost 1 "a"] emptyDb)
      = (Return newPost, db') /\
    Post.id newPost = 3.
Proof.
  destruct (createPost_stores_new_post
    (run [CreatePost (mkInsertPost "t" "c" "hardware" "a") 10;
          CreatePost (mkInsertPost "t1" "c1" "hardware" "a") 11;
          DeletePost 1 "a"] emptyDb)
    (mkInsertPost "t2" "c2" "software" "b") 20)
    as (newPost & db' & Hrun & _).
  - by eexists.
  - exists newPost, db'. split; [exact Hrun|].
    vm_compute in Hrun. by injection Hrun as <- _.
Defined.

(** X17: createReply throws, and changes nothing, when the [postId] is 0;
    for any other [postId], whether or not a post has that id, in a
    reachable state it returns a reply whose id is larger than the id of
    every stored reply, with both tallies 0 and without the solution
    flag, stores it under that id and changes nothing else. *)
Theorem createReply_stores_new_reply db reply now :
  reachable db ->
  if decide (ir_postId reply = 0) then
    exists e, createReply reply now db = (Throw e, db)
  else
    exists newReply,
      createReply reply now db =
        (Return newReply, withReplies (insert (Reply.id newReply) newReply) db) /\
      (forall k r, replies db !! k = Some r -> k < Reply.id newReply) /\
      Reply.postId newReply = ir_postId reply /\
      Reply.authorId newReply = ir_authorId reply /\
      Reply.upvotes newReply = 0 /\ Reply.downvotes newReply = 0 /\
      Reply.isSolution newReply = false.
Proof.
  intros Hdb%reachable_wf. pose proof (wf_replies _ Hdb) as Hkeyed.
  destruct db as [us ps rs vs]. simpl in *. unfold createReply.
  case_decide as Hzero.
  - rewrite Hzero. by eexists.
  - rewrite (proj2 (truthy_Some (Some (ir_postId reply)) (ir_postId reply)))
      by done.
    exists (Reply.mk (nextId Reply.id rs) (ir_content reply) (ir_postId reply)
              (ir_authorId reply) now (truthy (ir_parentReplyId reply))
              0 0 false).
    split; [reflexivity|].
    simpl. split; [intros k r; by apply nextId_above|]. done.
Qed.

Lemma createReply_stores_new_reply_witness :
  exists newReply db',
    createReply (mkInsertReply "r" 7 None "b") 20
      (run [CreatePost (mkInsertPost "t" "c" "hardware" "a") 10] emptyDb)
      = (Return newReply, db') /\
    Reply.postId newReply = 7.
Proof.
  pose proof (createReply_stores_new_reply
    (run [CreatePost (mkInsertPost "t" "c" "hardware" "a") 10] emptyDb)
    (mkInsertReply "r" 7 None "b") 20 (ex_intro _ _ eq_refl)) as Hrun.
  simpl in Hrun. destruct Hrun as (newReply & Hrun & _ & Hpost & _).
  eexists _, _. split; [exact Hrun|exact Hpost].
Defined.

End StorageLaws.

(** ** The HTTP routes *)
Module ApiFacts.
Import Storage StorageFacts StorageLaws Api.

#[local] Arguments truthy : simpl never.
#[local] Arguments nextId : simpl never.
#[local] Arguments votesOn : simpl never.

(** *** The storage calls behind the requests *)

Lemma tryCatch_state {A} (m : M A) (handler : string -> M A) db :
  (forall e db', (handler e db').2 = db') ->
  (tryCatch m handler db).2 = (m db).2.
Proof.
  intros Hhandler. unfold tryCatch.
  destruct (m db) as [[a|e] db']; [done|apply Hhandler].
Qed.

Lemma bind_ret_state {A B} (m : M A) (f : A -> B) db :
  (bind m (fun a => ret (f a)) db).2 = (m db).2.
Proof. unfold bind. by destruct (m db) as [[a|e] db']. Qed.

Lemma deleteFailed_state fallback e db : (deleteFailed fallback e db).2 = db.
Proof. unfold deleteFailed. by destruct (mentionsUnauthorized e). Qed.

Lemma isVoteType_valid t : isVoteType t = true -> validVoteType t.
Proof.
  unfold isVoteType, validVoteType.
  intros [Ht|Ht]%orb_true_iff; apply String.eqb_eq in Ht; auto.
Qed.

(** A request leaves the database as it is or makes one storage call. *)
Lemma after_routed r db :
  after r db = db \/ exists c, routed db c /\ after r db = exec c db.
Proof.
  destruct r; simpl.
  - right. exists (CreateUser body). split; [constructor|done].
  - unfold patchUsername. rewrite tryCatch_state by done.
    destruct (_ && _); [|by left].
    unfold getUserByUsername. rewrite bind_read.
    destruct (firstDoc _); [by left|]. rewrite bind_ret_state.
    right. exists (UpdateUsername id username). split; [constructor|done].
  - unfold postPosts. rewrite tryCatch_state by done.
    destruct title, content, category; try by left.
    rewrite bind_ret_state. right. eexists (CreatePost _ now).
    split; [constructor|done].
  - unfold postReplies. rewrite tryCatch_state by done.
    unfold getPost. rewrite bind_read.
    destruct (posts db !! postId) as [post|] eqn:Hpost; [|by left].
    destruct content as [content|]; [|by left].
    rewrite bind_ret_state. right. eexists (CreateReply _ now).
    split; [|done]. constructor. simpl. by rewrite Hpost.
  - unfold postPostVote. rewrite tryCatch_state by done.
    unfold getPost. rewrite bind_read.
    destruct (posts db !! postId) as [post|] eqn:Hpost; [|by left].
    destruct userId as [userId|], voteType as [voteType|]; try by left.
    destruct (isVoteType voteType) eqn:Htype; [|by left].
    rewrite bind_ret_state. right. eexists (CreateVote _).
    split; [|done]. constructor; [by rewrite Hpost|by apply isVoteType_valid].
  - unfold postReplyVote. rewrite tryCatch_state by done.
    unfold getReply. rewrite bind_read.
    destruct (replies db !! replyId) as [reply|] eqn:Hreply; [|by left].
    destruct userId as [userId|], voteType as [voteType|]; try by left.
    destruct (isVoteType voteType) eqn:Htype; [|by left].
    rewrite bind_ret_state. right. eexists (CreateVote _).
    split; [|done]. constructor; [by rewrite Hreply|by apply isVoteType_valid].
  - unfold postSolution. rewrite tryCatch_state by done.
    unfold getPost. rewrite bind_read.
    destruct (posts db !! postId) as [post|]; [|by left].
    destruct (negb _); [by left|].
    rewrite (bind_ret_state _ (fun _ => (200%nat, Success true))).
    right. exists (MarkAsSolution postId replyId). split; [constructor|done].
  - unfold deleteSolution. rewrite tryCatch_state by done.
    unfold getPost. rewrite bind_read.
    destruct (posts db !! postId) as [post|]; [|by left].
    destruct (negb _); [by left|].
    rewrite (bind_ret_state _ (fun _ => (200%nat, Success true))).
    right. exists (RemoveSolution postId). split; [constructor|done].
  - unfold deletePosts. rewrite tryCatch_state by apply deleteFailed_state.
    destruct id as [postId|]; [|by left].
    destruct (nonEmpty userId) as [author|]; [|by left].
    rewrite bind_ret_state.
    right. exists (DeletePost postId author). split; [constructor|done].
  - unfold deleteReplies. rewrite tryCatch_state by apply deleteFailed_state.
    destruct id as [replyId|]; [|by left].
    destruct (nonEmpty userId) as [author|]; [|by left].
    rewrite bind_ret_state.
    right. exists (DeleteReply replyId author). split; [constructor|done].
Qed.

Lemma serve_snoc requests r db :
  serve (requests ++ [r]) db = after r (serve requests db).
Proof. unfold serve. by rewrite foldl_app. Qed.

(** The states that the routes reach are states that storage calls reach. *)
Lemma served_reachable db : served db -> reachable db.
Proof.
  intros [requests ->].
  induction requests as [|r requests IH] using rev_ind; [by exists []|].
  rewrite serve_snoc.
  destruct (after_routed r (serve requests emptyDb)) as [->|(c & _ & ->)];
    [done|by apply reachable_exec].
Qed.

(** Induction over the served states, through the routed storage calls. *)
Lemma served_invariant (I : Db -> Prop) :
  I emptyDb ->
  (forall c db, served db -> routed db c -> I db -> I (exec c db)) ->
  forall db, served db -> I db.
Proof.
  intros Hempty Hstep db [requests ->].
  induction requests as [|r requests IH] using rev_ind; [done|].
  rewrite serve_snoc.
  destruct (after_routed r (serve requests emptyDb)) as [->|(c & Hc & ->)];
    [done|].
  apply Hstep; [by eexists|done|done].
Qed.

(** *** Counting votes *)

Lemma size_filter_insert {A} (P : Z * A -> Prop)
    `{!forall kv, Decision (P kv)} (m : gmap Z A) i x :
  (size (filter P (<[i := x]> m)) +
   match m !! i with
   | Some y => if decide (P (i, y)) then 1 else 0
   | None => 0
   end
   = size (filter P m) + if decide (P (i, x)) then 1 else 0)%nat.
Proof.
  rewrite map_filter_insert. destruct (decide (P (i, x))) as [HP|HP].
  - rewrite map_size_insert, map_lookup_filter.
    destruct (m !! i) as [y|]; simpl; [|lia].
    destruct (decide (P (i, y))).
    + rewrite option_guard_True by done. simpl. lia.
    + rewrite option_guard_False by done. simpl. lia.
  - rewrite map_filter_delete, map_size_delete, map_lookup_filter.
    destruct (m !! i) as [y|] eqn:Hi; simpl; [|lia].
    destruct (decide (P (i, y))) as [Hy|Hy].
    + rewrite option_guard_True by done. simpl.
      assert (size (filter P m) <> 0)%nat; [|lia].
      apply (map_size_ne_0_lookup_2 _ i). exists y.
      by apply map_lookup_filter_Some.
    + rewrite option_guard_False by done. simpl. lia.
Qed.

Lemma filter_difference_other {A} (P Q : Z * A -> Prop)
    `{!forall kv, Decision (P kv)} `{!forall kv, Decision (Q kv)}
    (m : gmap Z A) :
  (forall i x, m !! i = Some x -> P (i, x) -> ~ Q (i, x)) ->
  filter P (m ∖ filter Q m) = filter P m.
Proof.
  intros Hother. apply map_eq. intros i. apply option_eq. intros x.
  rewrite !map_lookup_filter_Some, lookup_difference_Some,
    map_lookup_filter_None.
  split; [naive_solver|]. intros [Hi HP]. split; [|done]. split; [done|].
  right. intros y Hy. assert (y = x) as -> by congruence. by apply Hother.
Qed.

Lemma votesOn_new vs i v k t :
  vs !! i = None ->
  votesOn (<[i := v]> vs) k t =
    (votesOn vs k t +
     if decide (Vote.postId v = Some k /\ Vote.voteType v = t) then 1 else 0)%nat.
Proof.
  intros Hi. unfold votesOn.
  pose proof (size_filter_insert
    (fun kv : Z * Vote.t =>
       Vote.postId kv.2 = Some k /\ Vote.voteType kv.2 = t) vs i v) as Hsize.
  rewrite Hi in Hsize. simpl in Hsize. lia.
Qed.

Lemma votesOn_retyped vs i e e' k t :
  vs !! i = Some e ->
  (votesOn (<[i := e']> vs) k t +
   (if decide (Vote.postId e = Some k /\ Vote.voteType e = t) then 1 else 0)
   = votesOn vs k t +
     if decide (Vote.postId e' = Some k /\ Vote.voteType e' = t)
     then 1 else 0)%nat.
Proof.
  intros Hi. unfold votesOn.
  pose proof (size_filter_insert
    (fun kv : Z * Vote.t =>
       Vote.postId kv.2 = Some k /\ Vote.voteType kv.2 = t) vs i e') as Hsize.
  rewrite Hi in Hsize. simpl in Hsize. lia.
Qed.

Lemma votesOn_without vs (Q : Z * Vote.t -> Prop)
    `{!forall kv, Decision (Q kv)} k t :
  (forall i v, vs !! i = Some v -> Vote.postId v = Some k -> ~ Q (i, v)) ->
  votesOn (vs ∖ filter Q vs) k t = votesOn vs k t.
Proof.
  intros Hother. unfold votesOn. f_equal.
  apply filter_difference_other. intros i v Hi [Hk _]. by apply (Hother i v).
Qed.

Lemma votesOn_none vs k t :
  (forall i v, vs !! i = Some v -> Vote.postId v <> Some k) ->
  votesOn vs k t = 0%nat.
Proof.
  intros Hnone. unfold votesOn. apply map_size_empty_iff.
  apply map_eq. intros i. rewrite lookup_empty. apply map_lookup_filter_None.
  right. intros v Hv [Hk _]. by apply (Hnone i v).
Qed.

(** *** The tallies of the posts *)

Lemma sameTallies_refl ps : sameTallies ps ps.
Proof. intros k. destruct (ps !! k) as [p|] eqn:Hk; [|done]. by exists p. Qed.

Lemma sameTallies_insert ps k p p' :
  ps !! k = Some p -> Post.upvotes p' = Post.upvotes p ->
  Post.downvotes p' = Post.downvotes p -> sameTallies ps (<[k := p']> ps).
Proof.
  intros Hk Hup Hdown j. rewrite (lookup_insert_Z ps). case_decide as Hj.
  - subst j. by exists p.
  - apply sameTallies_refl.
Qed.

Lemma counts_posts_retouched us ps rs vs us' ps' rs' :
  votesOnStoredPosts (mkDb us ps rs vs) /\ talliesCountVotes (mkDb us ps rs vs) ->
  sameTallies ps ps' ->
  votesOnStoredPosts (mkDb us' ps' rs' vs) /\
  talliesCountVotes (mkDb us' ps' rs' vs).
Proof.
  intros [HW HT] Hsame. split.
  - intros i v Hi. destruct (HW i v Hi) as [Hvalid Hpost]. split; [done|].
    intros p Hp. destruct (Hpost p Hp) as [[q Hq] Hr]. split; [|done].
    simpl in *. specialize (Hsame p). destruct (ps' !! p); [done|congruence].
  - intros k p' Hk. simpl in *. specialize (Hsame k). rewrite Hk in Hsame.
    destruct Hsame as (p & Hp & -> & ->). apply (HT k p Hp).
Qed.

Lemma counts_votes_removed us ps rs vs us' ps' rs' (Q : Z * Vote.t -> Prop)
    `{!forall kv, Decision (Q kv)} :
  votesOnStoredPosts (mkDb us ps rs vs) /\ talliesCountVotes (mkDb us ps rs vs) ->
  (forall k p, ps' !! k = Some p -> ps !! k = Some p) ->
  (forall i v p, vs !! i = Some v -> Vote.postId v = Some p ->
     if decide (Q (i, v)) then ps' !! p = None else is_Some (ps' !! p)) ->
  votesOnStoredPosts (mkDb us' ps' rs' (vs ∖ filter Q vs)) /\
  talliesCountVotes (mkDb us' ps' rs' (vs ∖ filter Q vs)).
Proof.
  intros [HW HT] Hposts Hvotes. split.
  - intros i v. simpl. rewrite lookup_difference_Some, map_lookup_filter_None.
    intros [Hi HQ]. destruct (HW i v Hi) as [Hvalid Hpost]. split; [done|].
    intros p Hp. destruct (Hpost p Hp) as [_ Hr]. split; [|done].
    specialize (Hvotes i v p Hi Hp). case_decide as Hq; [|done].
    destruct HQ as [HQ|HQ]; [congruence|]. by destruct (HQ v Hi).
  - intros k p Hk. simpl in Hk |- *.
    rewrite !votesOn_without.
    + apply (HT k p). by apply Hposts.
    + intros i v Hi Hp Hq. specialize (Hvotes i v k Hi Hp).
      rewrite decide_True in Hvotes by done. congruence.
    + intros i v Hi Hp Hq. specialize (Hvotes i v k Hi Hp).
      rewrite decide_True in Hvotes by done. congruence.
Qed.

Lemma stored_post_insert (ps : gmap Z Post.t) k p' p :
  is_Some (ps !! p) -> is_Some (<[k := p']> ps !! p).
Proof.
  intros Hp. rewrite (lookup_insert_Z ps). by case_decide.
Qed.

(** A routed storage call keeps the tallies of the posts equal to the
    numbers of the votes on them. *)
Lemma routed_counts c db :
  wf db -> routed db c ->
  votesOnStoredPosts db /\ talliesCountVotes db ->
  votesOnStoredPosts (exec c db) /\ talliesCountVotes (exec c db).
Proof.
  intros Hdb Hc HI. destruct db as [us ps rs vs].
  pose proof HI as [HW HT].
  destruct Hc as [user|userId username|post now|reply now Hpost
                 |userId postId voteType [post Hpost] Hvalid
                 |userId replyId voteType [reply Hreply] Hvalid
                 |postId replyId|postId|id authorId|id authorId]; simpl in *.
  - eapply counts_posts_retouched; [done|apply sameTallies_refl].
  - unfold updateUsername, bind, read. simpl.
    destruct (us !! userId); simpl;
      (eapply counts_posts_retouched; [done|apply sameTallies_refl]).
  - destruct (nextId_fresh Post.id ps (wf_posts _ Hdb)) as [Hfresh _].
    set (id := nextId Post.id ps) in *. unfold withPosts. simpl. split.
    + intros i v Hi. destruct (HW i v Hi) as [Hv Hp]. split; [done|].
      intros p Hpv. destruct (Hp p Hpv). split; [|done].
      by apply stored_post_insert.
    + intros k p. simpl. rewrite (lookup_insert_Z ps). case_decide as Hk.
      * subst k. intros [= <-]. simpl.
        rewrite !votesOn_none; [done| |];
          intros i v Hi Hp; destruct (HW i v Hi) as [_ Hstored];
          destruct (Hstored id Hp) as [[q Hq] _]; simpl in Hq; congruence.
      * apply HT.
  - unfold createReply. destruct (truthy (Some _)); simpl;
      (eapply counts_posts_retouched; [done|apply sameTallies_refl]).
  - (* a vote on a post *)
    assert (truthy (Some postId) = Some postId) as Hp.
    { apply truthy_Some. split; [done|].
      destruct (wf_posts _ Hdb _ _ Hpost). simpl in *. lia. }
    pose proof (wf_votes _ Hdb) as Hkeyed. simpl in Hkeyed.
    set (vote := mkInsertVote userId (Some postId) None voteType).
    pose proof (getVote_post userId (Some postId) None
                  (mkDb us ps rs vs) postId Hp) as Hget.
    simpl in Hget.
    destruct (firstDoc _) as [e|] eqn:Hfirst.
    + apply firstDoc_filter_Some in Hfirst as (i & Hi & [Hu He]).
      simpl in Hu, He. rewrite (createVote_existing vote _ e Hget). simpl.
      destruct (String.eqb_spec (Vote.voteType e) voteType) as [Heq|Hne];
        simpl; [done|].
      destruct (Hkeyed _ _ Hi) as [-> _].
      rewrite (updateVote_post us ps rs vs i e voteType postId post Hi Hne)
        by (by rewrite ?He).
      simpl. destruct (HW i e Hi) as [Hold _]. split.
      * intros j v. simpl. rewrite (lookup_insert_Z vs). case_decide.
        -- intros [= <-]. simpl. split; [done|]. intros p Hpv.
           destruct (HW i e Hi) as [_ Hstored].
           destruct (Hstored p Hpv). split; [|done]. by apply stored_post_insert.
        -- intros Hj. destruct (HW j v Hj) as [Hv Hstored]. split; [done|].
           intros p Hpv. destruct (Hstored p Hpv). split; [|done].
           by apply stored_post_insert.
      * intros k p. simpl. rewrite (lookup_insert_Z ps).
        pose proof (votesOn_retyped vs i e (setVoteType voteType e) k
                      "upvote" Hi) as Hups.
        pose proof (votesOn_retyped vs i e (setVoteType voteType e) k
                      "downvote" Hi) as Hdowns.
        simpl in Hups, Hdowns. rewrite He in Hups, Hdowns.
        destruct (decide (postId = k)) as [<-|Hk].
        -- intros [= <-]. destruct (HT postId post Hpost) as [Hup Hdown].
           simpl in Hup, Hdown.
           destruct Hold as [Hold|Hold], Hvalid as [->| ->]; try congruence;
             rewrite Hold in *; unfold switchedPost; simpl;
             repeat case_decide; try naive_solver; lia.
        -- intros Hkp. destruct (HT k p Hkp) as [Hup Hdown].
           simpl in Hup, Hdown.
           repeat case_decide; try naive_solver. lia.
    + destruct (nextId_fresh Vote.id vs Hkeyed) as [Hfresh _].
      rewrite (createVote_new_post vote us ps rs vs postId post Hget Hp Hpost).
      simpl. rewrite Hp. change (truthy None) with (@None Z).
      set (id := nextId Vote.id vs) in *. split.
      * intros j v. simpl. rewrite (lookup_insert_Z vs). case_decide.
        -- intros [= <-]. simpl. split; [done|]. intros p [= <-].
           split; [|done]. apply stored_post_insert. by exists post.
        -- intros Hj. destruct (HW j v Hj) as [Hv Hstored]. split; [done|].
           intros p Hpv. destruct (Hstored p Hpv). split; [|done].
           by apply stored_post_insert.
      * intros k p. simpl. rewrite (lookup_insert_Z ps).
        rewrite !votesOn_new by done. simpl.
        destruct (decide (postId = k)) as [<-|Hk].
        -- intros [= <-]. destruct (HT postId post Hpost) as [Hup Hdown].
           simpl in Hup, Hdown.
           destruct Hvalid as [->| ->]; simpl;
             repeat case_decide; try naive_solver; lia.
        -- intros Hkp. destruct (HT k p Hkp) as [Hup Hdown].
           simpl in Hup, Hdown.
           repeat case_decide; try naive_solver. lia.
  - (* a vote on a reply *)
    assert (truthy (Some replyId) = Some replyId) as Hr.
    { apply truthy_Some. split; [done|].
      destruct (wf_replies _ Hdb _ _ Hreply). simpl in *. lia. }
    pose proof (wf_votes _ Hdb) as Hkeyed. simpl in Hkeyed.
    set (vote := mkInsertVote userId None (Some replyId) voteType).
    pose proof (getVote_reply userId None (Some replyId)
                  (mkDb us ps rs vs) replyId eq_refl Hr) as Hget.
    simpl in Hget.
    destruct (firstDoc _) as [e|] eqn:Hfirst.
    + apply firstDoc_filter_Some in Hfirst as (i & Hi & [Hu He]).
      simpl in Hu, He. rewrite (createVote_existing vote _ e Hget). simpl.
      destruct (String.eqb_spec (Vote.voteType e) voteType) as [Heq|Hne];
        simpl; [done|].
      destruct (Hkeyed _ _ Hi) as [-> _].
      assert (Vote.postId e = None) as Hnone.
      { destruct (Vote.postId e) as [p|] eqn:Hpe; [|done].
        destruct (HW i e Hi) as [_ Hstored].
        destruct (Hstored p Hpe). congruence. }
      rewrite (updateVote_reply us ps rs vs i e voteType replyId reply Hi Hne)
        by (by rewrite ?Hnone, ?He).
      simpl. split.
      * intros j v. simpl. rewrite (lookup_insert_Z vs). case_decide.
        -- intros [= <-]. simpl. split; [done|]. intros p Hpv. congruence.
        -- apply HW.
      * intros k p Hkp. simpl in Hkp |- *. destruct (HT k p Hkp) as [Hup Hdown].
           simpl in Hup, Hdown.
        pose proof (votesOn_retyped vs i e (setVoteType voteType e) k
                      "upvote" Hi) as Hups.
        pose proof (votesOn_retyped vs i e (setVoteType voteType e) k
                      "downvote" Hi) as Hdowns.
        simpl in Hups, Hdowns. rewrite Hnone in Hups, Hdowns.
        repeat case_decide; try naive_solver. lia.
    + destruct (nextId_fresh Vote.id vs Hkeyed) as [Hfresh _].
      rewrite (createVote_new_reply vote us ps rs vs replyId reply Hget eq_refl
                 Hr Hreply).
      simpl. rewrite Hr. change (truthy None) with (@None Z).
      set (id := nextId Vote.id vs) in *. split.
      * intros j v. simpl. rewrite (lookup_insert_Z vs). case_decide.
        -- intros [= <-]. simpl. split; [done|]. by intros p [=].
        -- apply HW.
      * intros k p Hkp. simpl in Hkp |- *. destruct (HT k p Hkp) as [Hup Hdown].
           simpl in Hup, Hdown.
        rewrite !votesOn_new by done. simpl.
        repeat case_decide; try naive_solver. lia.
  - destruct (markAsSolution_effect us ps rs vs postId replyId Hdb)
      as [(e & -> & _)|(post & reply & Hpost & Hreply & Hbelongs & ->)];
      [done|].
    simpl. eapply counts_posts_retouched; [done|].
    by eapply sameTallies_insert.
  - pose proof (removeSolution_effect us ps rs vs postId Hdb) as Hrun.
    destruct (ps !! postId) as [post|] eqn:Hpost; rewrite Hrun; [|done].
    simpl. destruct (truthy (Post.solutionId post)); [|done].
    eapply counts_posts_retouched; [done|]. by eapply sameTallies_insert.
  - destruct (deletePost_effect us ps rs vs id authorId) as [->| ->]; [done|].
    apply (counts_votes_removed us ps rs vs).
    + done.
    + by intros k p [_ ?]%lookup_delete_Some.
    + intros i v p Hi Hp. simpl. case_decide as Hq.
      * assert (p = id) as -> by congruence. apply lookup_delete_eq.
      * destruct (HW i v Hi) as [_ Hstored]. destruct (Hstored p Hp) as [Hs _].
        rewrite lookup_delete_ne; [done|]. congruence.
  - destruct (deleteReply_effect us ps rs vs id authorId Hdb)
      as [->|(reply & ps' & Hreply & Hps' & ->)]; [done|].
    assert (sameTallies ps ps') as Hsame.
    { destruct Hps' as [[-> _]|(post & Hpost & _ & ->)];
        [apply sameTallies_refl|by eapply sameTallies_insert]. }
    pose proof (counts_posts_retouched us ps rs vs us ps' rs HI Hsame)
      as HI'.
    apply (counts_votes_removed us ps' rs vs); [done|done|].
    intros i v p Hi Hp. simpl. destruct (HW i v Hi) as [_ Hstored].
    destruct (Hstored p Hp) as [Hs Hnone]. rewrite decide_False by congruence.
    specialize (Hsame p). destruct (ps' !! p); [done|].
    destruct Hs as [q Hq]. simpl in Hq. congruence.
Qed.

Lemma served_counts db :
  served db -> votesOnStoredPosts db /\ talliesCountVotes db.
Proof.
  revert db. apply served_invariant.
  - split; [intros i v Hi|intros k p Hk]; simpl in *;
      by rewrite lookup_empty in *.
  - intros c db Hserved Hc. apply routed_counts; [|done].
    by apply reachable_wf, served_reachable.
Qed.

(** X18: in every state that requests to the routes reach, the tallies
    of a post are the numbers of the stored votes on it: [upvotes] is the
    number of upvotes on the post, [downvotes] the number of downvotes,
    and the score on the post card is their difference. *)
Theorem post_tallies_count_votes db k p :
  served db -> posts db !! k = Some p ->
  Post.upvotes p = Z.of_nat (votesOn (votes db) k "upvote") /\
  Post.downvotes p = Z.of_nat (votesOn (votes db) k "downvote") /\
  PostCard.score p =
    Z.of_nat (votesOn (votes db) k "upvote") -
    Z.of_nat (votesOn (votes db) k "downvote").
Proof.
  intros Hserved Hk. destruct (served_counts db Hserved) as [_ HT].
  destruct (HT k p Hk) as [Hup Hdown]. do 2 (split; [done|]).
  unfold PostCard.score. rewrite !counter_id. lia.
Qed.

Lemma post_tallies_count_votes_witness :
  let db := serve [PostPosts (Some "t") (Some "c") (Some "hardware") "a" 10;
                   PostPostVote 1 (Some "u") (Some "upvote");
                   PostPostVote 1 (Some "w") (Some "downvote");
                   PostPostVote 1 (Some "u") (Some "downvote");
                   PostPostVote 1 (Some "x") (Some "upvote")] emptyDb in
  votesOn (votes db) 1 "upvote" = 1%nat /\
  votesOn (votes db) 1 "downvote" = 2%nat.
Proof.
  intros db.
  destruct (post_tallies_count_votes db 1
              (Post.mk 1 "t" "c" "hardware" "a" 10 1 2 None None))
    as (Hup & Hdown & _).
  - by eexists.
  - vm_compute. reflexivity.
  - simpl in Hup, Hdown. lia.
Defined.

(** X19: in every state that requests to the routes reach, every stored
    vote, on a post or on a reply, is an upvote or a downvote, and a
    vote on a post is a vote on a stored post and on no reply: the
    delete route of a post leaves no vote on the post behind. *)
Theorem votes_on_posts_name_stored_posts db i v :
  served db -> votes db !! i = Some v ->
  validVoteType (Vote.voteType v) /\
  forall p, Vote.postId v = Some p ->
    is_Some (posts db !! p) /\ Vote.replyId v = None.
Proof.
  intros Hserved Hi. destruct (served_counts db Hserved) as [HW _].
  apply (HW i v Hi).
Qed.

Lemma votes_on_posts_name_stored_posts_witness :
  let db := serve [PostPosts (Some "t") (Some "c") (Some "hardware") "a" 10;
                   PostPosts (Some "t2") (Some "c2") (Some "software") "b" 11;
                   PostReplies 2 (Some "r") None "c" 12;
                   PostPostVote 1 (Some "u") (Some "upvote");
                   PostPostVote 2 (Some "u") (Some "downvote");
                   PostReplyVote 1 (Some "u") (Some "upvote");
                   DeletePosts (Some 1) (Some "a")] emptyDb in
  validVoteType "upvote" /\ is_Some (posts db !! 2).
Proof.
  intros db. split.
  - apply (votes_on_posts_name_stored_posts db 3
             (Vote.mk 3 "u" None (Some 1) "upvote")).
    + by eexists.
    + vm_compute. reflexivity.
  - apply (votes_on_posts_name_stored_posts db 2
             (Vote.mk 2 "u" (Some 2) None "downvote")); [| |reflexivity].
    + by eexists.
    + vm_compute. reflexivity.
Defined.

(** *** Status codes *)

(** X20: the delete route of a post answers 400 to an id that is not a
    number, 401 to a request without [userId], 500 (not 404) when no
    post has the id, 403 when the user is not the author of the post,
    and 200 with [success: true] when the user is the author, in which
    case the post is gone; in every other case the database is as it
    was. *)
Theorem deletePosts_status id userId db :
  exists status body db',
    deletePosts id userId db = (Return (status, body), db') /\
    match id, nonEmpty userId with
    | None, _ => status = 400%nat /\ db' = db
    | Some _, None => status = 401%nat /\ db' = db
    | Some postId, Some user =>
        match posts db !! postId with
        | None =>
            status = 500%nat /\ body = Message "Post not found" /\ db' = db
        | Some post =>
            if String.eqb (Post.authorId post) user
            then status = 200%nat /\ body = Success true /\
                 posts db' !! postId = None
            else status = 403%nat /\ db' = db
        end
    end.
Proof.
  destruct db as [us ps rs vs]. unfold deletePosts, tryCatch.
  destruct id as [postId|]; [|by eexists _, _, _].
  destruct (nonEmpty userId) as [user|]; [|by eexists _, _, _].
  unfold deletePost, getPost, bind, read. simpl.
  destruct (ps !! postId) as [post|]; simpl; [|by eexists _, _, _].
  destruct (String.eqb (Post.authorId post) user); simpl.
  - eexists _, _, _. split; [done|]. simpl. do 2 (split; [done|]).
    apply lookup_delete_eq.
  - by eexists _, _, _.
Qed.

(** X21: the delete route of a reply answers 400 to an id that is not a
    number, 401 to a request without [userId], 500 (not 404) when no
    reply has the id, 403 when the user is not the author of the reply,
    and 200 with [success: true] when the user is the author, in which
    case the reply is gone; in every other case the database is as it
    was. *)
Theorem deleteReplies_status id userId db :
  exists status body db',
    deleteReplies id userId db = (Return (status, body), db') /\
    match id, nonEmpty userId with
    | None, _ => status = 400%nat /\ db' = db
    | Some _, None => status = 401%nat /\ db' = db
    | Some replyId, Some user =>
        match replies db !! replyId with
        | None =>
            status = 500%nat /\ body = Message "Reply not found" /\ db' = db
        | Some reply =>
            if String.eqb (Reply.authorId reply) user
            then status = 200%nat /\ body = Success true /\
                 replies db' !! replyId = None
            else status = 403%nat /\ db' = db
        end
    end.
Proof.
  destruct db as [us ps rs vs]. unfold deleteReplies, tryCatch.
  destruct id as [replyId|]; [|by eexists _, _, _].
  destruct (nonEmpty userId) as [user|]; [|by eexists _, _, _].
  unfold deleteReply, getReply, getPost, bind, read. simpl.
  destruct (rs !! replyId) as [reply|]; simpl; [|by eexists _, _, _].
  destruct (String.eqb (Reply.authorId reply) user); simpl;
    [|by eexists _, _, _].
  destruct (truthy (Some (Reply.postId reply))) as [postId|]; simpl.
  2:{ eexists _, _, _. split; [done|]. simpl. do 2 (split; [done|]).
      apply lookup_delete_eq. }
  destruct (ps !! postId) as [post|] eqn:Hpost; simpl.
  2:{ eexists _, _, _. split; [done|]. simpl. do 2 (split; [done|]).
      apply lookup_delete_eq. }
  case_bool_decide; simpl.
  - rewrite (updatePost_Some _ _ _ _ _ _ post) by done. simpl.
    eexists _, _, _. split; [done|]. simpl. do 2 (split; [done|]).
    apply lookup_delete_eq.
  - eexists _, _, _. split; [done|]. simpl. do 2 (split; [done|]).
    apply lookup_delete_eq.
Qed.

(** X22: in a state that requests reach, the route that marks a solution
    answers 404 when the post is missing, 403 when the [userId] of the
    body is not the post's author, 400 when the reply is missing or is a
    reply to another post, and 200 otherwise, in which case the post
    names the reply as its solution; unless it answers 200 the database
    is as it was. *)
Theorem postSolution_status db postId replyId userId :
  served db ->
  exists status body db',
    postSolution postId replyId userId db = (Return (status, body), db') /\
    match posts db !! postId with
    | None => status = 404%nat /\ db' = db
    | Some post =>
        if bool_decide (Some (Post.authorId post) = userId) then
          match replies db !! replyId with
          | Some reply =>
              if Reply.postId reply =? postId
              then status = 200%nat /\ body = Success true /\
                   posts db' = <[postId := setSolutionId (Some replyId) post]>
                                 (posts db) /\
                   exists post',
                     posts db' !! postId = Some post' /\
                     Post.solutionId post' = Some replyId
              else status = 400%nat /\ db' = db
          | None => status = 400%nat /\ db' = db
          end
        else status = 403%nat /\ db' = db
    end.
Proof.
  intros Hdb%served_reachable%reachable_wf. destruct db as [us ps rs vs].
  unfold postSolution, tryCatch. unfold getPost. rewrite bind_read. simpl.
  destruct (ps !! postId) as [post|] eqn:Hpost; [|by eexists _, _, _].
  destruct (bool_decide _); simpl; [|by eexists _, _, _].
  unfold bind.
  destruct (markAsSolution_effect us ps rs vs postId replyId Hdb)
    as [(e & -> & Hwhy)|(post' & reply & Hpost' & Hreply & Hbelongs & ->)].
  - eexists _, _, _. split; [done|].
    destruct Hwhy as [?|[->|(reply & -> & Hne)]]; [congruence|done|].
    by rewrite (proj2 (Z.eqb_neq _ _) Hne).
  - eexists _, _, _. split; [done|]. rewrite Hreply.
    rewrite (proj2 (Z.eqb_eq _ _) Hbelongs). simpl.
    assert (post' = post) as -> by congruence. do 3 (split; [done|]).
    eexists. split; [apply lookup_insert_eq|done].
Qed.

Lemma postSolution_status_witness :
  let db := serve [PostPosts (Some "t") (Some "c") (Some "hardware") "a" 10;
                   PostPosts (Some "t2") (Some "c2") (Some "software") "b" 11;
                   PostReplies 2 (Some "r") None "c" 12] emptyDb in
  exists body, postSolution 1 1 (Some "a") db = (Return (400%nat, body), db).
Proof.
  intros db.
  destruct (postSolution_status db 1 1 (Some "a"))
    as (status & body & db' & Hrun & Hstatus).
  - by eexists.
  - vm_compute in Hstatus. destruct Hstatus as [-> ->]. by exists body.
Defined.

Lemma truthy_solutionId db k p :
  reachable db -> posts db !! k = Some p ->
  truthy (Post.solutionId p) = Post.solutionId p.
Proof.
  intros Hreach Hk. destruct (Post.solutionId p) as [s|] eqn:Hs; [|done].
  apply truthy_Some. split; [done|].
  destruct (solution_reference_flagged_core db Hreach k p s Hk Hs)
    as (r & Hr & _).
  destruct (wf_replies _ (reachable_wf _ Hreach) _ _ Hr). lia.
Qed.

(** X23: in a state that requests reach, the route that removes a
    solution answers 404 when the post is missing, 403 when the [userId]
    of the body is not the post's author and 200 otherwise, never 400;
    after a 200 the post has no solution, and unless it answers 200 the
    database is as it was. *)
Theorem deleteSolution_status db postId userId :
  served db ->
  exists status body db',
    deleteSolution postId userId db = (Return (status, body), db') /\
    match posts db !! postId with
    | None => status = 404%nat /\ db' = db
    | Some post =>
        if bool_decide (Some (Post.authorId post) = userId) then
          status = 200%nat /\ body = Success true /\
          posts db' = <[postId := setSolutionId None post]> (posts db) /\
          exists post',
            posts db' !! postId = Some post' /\ Post.solutionId post' = None
        else status = 403%nat /\ db' = db
    end.
Proof.
  intros Hreach%served_reachable. pose proof (reachable_wf _ Hreach) as Hdb.
  destruct db as [us ps rs vs].
  unfold deleteSolution, tryCatch. unfold getPost. rewrite bind_read. simpl.
  destruct (ps !! postId) as [post|] eqn:Hpost; [|by eexists _, _, _].
  destruct (bool_decide _); simpl; [|by eexists _, _, _].
  unfold bind.
  pose proof (removeSolution_effect us ps rs vs postId Hdb) as Hrun.
  rewrite Hpost in Hrun. rewrite Hrun.
  rewrite (truthy_solutionId _ postId post Hreach Hpost).
  eexists _, _, _. split; [done|]. do 2 (split; [done|]).
  destruct (Post.solutionId post) as [s|] eqn:Hs; simpl.
  { split; [done|]. eexists. split; [apply lookup_insert_eq|done]. }
  split; [|by exists post].
  replace (setSolutionId None post) with post
    by (destruct post; simpl in *; by subst).
  by rewrite insert_id.
Qed.

Lemma deleteSolution_status_witness :
  let db := serve [PostPosts (Some "t") (Some "c") (Some "hardware") "a" 10;
                   PostReplies 1 (Some "r") None "c" 12;
                   PostSolution 1 1 (Some "a")] emptyDb in
  exists body db',
    deleteSolution 1 (Some "a") db = (Return (200%nat, body), db').
Proof.
  intros db.
  destruct (deleteSolution_status db 1 (Some "a"))
    as (status & body & db' & Hrun & Hstatus).
  - by eexists.
  - vm_compute in Hstatus. destruct Hstatus as (-> & _). by exists body, db'.
Defined.

(** The vote that createVote returns for a vote on a stored post. *)
Lemma createVote_post_result us ps rs vs userId postId voteType post :
  wf (mkDb us ps rs vs) -> ps !! postId = Some post ->
  exists v db',
    createVote (mkInsertVote userId (Some postId) None voteType)
      (mkDb us ps rs vs) = (Return v, db') /\
    Vote.userId v = userId /\ Vote.postId v = Some postId /\
    Vote.voteType v = voteType /\ exists i, votes db' !! i = Some v.
Proof.
  intros Hdb Hpost.
  assert (truthy (Some postId) = Some postId) as Hp.
  { apply truthy_Some. split; [done|].
    destruct (wf_posts _ Hdb _ _ Hpost). simpl in *. lia. }
  pose proof (wf_votes _ Hdb) as Hkeyed. simpl in Hkeyed.
  set (vote := mkInsertVote userId (Some postId) None voteType).
  pose proof (getVote_post userId (Some postId) None
                (mkDb us ps rs vs) postId Hp) as Hget.
  simpl in Hget.
  destruct (firstDoc _) as [e|] eqn:Hfirst.
  - apply firstDoc_filter_Some in Hfirst as (i & Hi & [Hu He]).
    simpl in Hu, He. rewrite (createVote_existing vote _ e Hget). simpl.
    destruct (String.eqb_spec (Vote.voteType e) voteType) as [Heq|Hne]; simpl.
    + eexists _, _. split; [done|]. do 3 (split; [done|]). by exists i.
    + destruct (Hkeyed _ _ Hi) as [-> _].
      rewrite (updateVote_post us ps rs vs i e voteType postId post Hi Hne)
        by (by rewrite ?He).
      eexists _, _. split; [done|]. simpl. do 3 (split; [done|]).
      exists i. apply lookup_insert_eq.
  - rewrite (createVote_new_post vote us ps rs vs postId post Hget Hp Hpost).
    eexists _, _. split; [done|]. simpl. rewrite Hp.
    do 3 (split; [done|]). eexists. apply lookup_insert_eq.
Qed.

(** X24: in a state that requests reach, the route that votes on a post
    answers 404 when the post is missing, 400 when [userId] is absent or
    [voteType] is not "upvote" or "downvote", and 200 otherwise, with a
    stored vote of that user on that post that has the requested type;
    unless it answers 200 the database is as it was. *)
Theorem postPostVote_status db postId userId voteType :
  served db ->
  exists status body db',
    postPostVote postId userId voteType db = (Return (status, body), db') /\
    match posts db !! postId with
    | None => status = 404%nat /\ db' = db
    | Some _ =>
        match userId, voteType with
        | Some user, Some type =>
            if isVoteType type then
              status = 200%nat /\
              exists i v,
                body = VoteJson v /\ votes db' !! i = Some v /\
                Vote.userId v = user /\ Vote.postId v = Some postId /\
                Vote.voteType v = type
            else status = 400%nat /\ db' = db
        | _, _ => status = 400%nat /\ db' = db
        end
    end.
Proof.
  intros Hdb%served_reachable%reachable_wf. destruct db as [us ps rs vs].
  unfold postPostVote, tryCatch. unfold getPost. rewrite bind_read. simpl.
  destruct (ps !! postId) as [post|] eqn:Hpost; [|by eexists _, _, _].
  destruct userId as [user|], voteType as [type|]; try by eexists _, _, _.
  destruct (isVoteType type); [|by eexists _, _, _].
  destruct (createVote_post_result us ps rs vs user postId type post Hdb Hpost)
    as (v & db' & Hrun & Hu & Hp & Ht & i & Hi).
  unfold bind. rewrite Hrun. eexists _, _, _. split; [done|].
  split; [done|]. by exists i, v.
Qed.

Lemma postPostVote_status_witness :
  let db := serve [PostPosts (Some "t") (Some "c") (Some "hardware") "a" 10;
                   PostPostVote 1 (Some "u") (Some "upvote")] emptyDb in
  exists body db',
    postPostVote 1 (Some "u") (Some "downvote") db
      = (Return (200%nat, body), db').
Proof.
  intros db.
  destruct (postPostVote_status db 1 (Some "u") (Some "downvote"))
    as (status & body & db' & Hrun & Hstatus).
  - by eexists.
  - vm_compute in Hstatus. destruct Hstatus as [-> _]. by exists body, db'.
Defined.

(** X25: the route that reads a user's vote on a post never changes the
    database; it answers 400 when [userId] is absent or empty, 500 when
    the id is not a number or is 0, 404 when the user has no vote on the
    post, and 200 with a stored vote of that user on that post
    otherwise. *)
Theorem getPostVote_status db postId userId :
  exists status body,
    getPostVote postId userId db = (Return (status, body), db) /\
    match nonEmpty userId with
    | None => status = 400%nat
    | Some user =>
        match truthy postId with
        | None => status = 500%nat
        | Some p =>
            (status = 404%nat /\
             forall i v, votes db !! i = Some v -> Vote.userId v = user ->
               Vote.postId v <> Some p) \/
            (status = 200%nat /\
             exists i v, body = VoteJson v /\ votes db !! i = Some v /\
                         Vote.userId v = user /\ Vote.postId v = Some p)
        end
    end.
Proof.
  unfold getPostVote, tryCatch.
  destruct (nonEmpty userId) as [user|]; [|by eexists _, _].
  unfold bind, getVote.
  destruct (truthy postId) as [p|]; [|by eexists _, _].
  unfold read. destruct (firstDoc _) as [v|] eqn:Hfirst.
  - apply firstDoc_filter_Some in Hfirst as (i & Hi & [Hu Hp]).
    eexists _, _. split; [done|]. right. split; [done|]. by exists i, v.
  - eexists _, _. split; [done|]. left. split; [done|].
    intros i v Hi Hu Hp.
    by apply (firstDoc_filter_empty _ _ _ _ Hfirst Hi).
Qed.

(** *** Replies and their posts *)

Lemma replies_edited us ps rs vs us' ps' rs' vs' :
  repliesOfStoredPosts (mkDb us ps rs vs) ->
  Invariants.editedPosts ps ps' -> Invariants.editedReplies rs rs' ->
  repliesOfStoredPosts (mkDb us' ps' rs' vs').
Proof.
  intros HR Hps Hrs k r Hk. simpl in *.
  assert (exists r0, rs !! k = Some r0 /\ Reply.postId r = Reply.postId r0)
    as (r0 & Hk0 & ->).
  { destruct Hrs as [->|(j & q & q' & Hj & Hq & ->)]; [eauto|].
    rewrite (lookup_insert_Z rs) in Hk. case_decide; [|eauto]. subst j.
    injection Hk as <-. exists q. split; [done|].
    by destruct (tallyEditedReply_fields _ _ Hq). }
  specialize (HR k r0 Hk0). simpl in HR.
  destruct Hps as [->|(j & q & q' & Hj & Hq & ->)]; [done|].
  by apply stored_post_insert.
Qed.

Lemma routed_replies c db :
  wf db -> routed db c ->
  repliesOfStoredPosts db -> repliesOfStoredPosts (exec c db).
Proof.
  intros Hdb Hc HR. destruct db as [us ps rs vs].
  assert (forall us' rs' vs' k p',
    is_Some (ps !! k) ->
    (forall j r', rs' !! j = Some r' ->
       exists r, rs !! j = Some r /\ Reply.postId r' = Reply.postId r) ->
    repliesOfStoredPosts (mkDb us' (<[k := p']> ps) rs' vs')) as Hretouched.
  { intros us' rs' vs' k p' Hk Hrs j r' Hj. simpl in *.
    destruct (Hrs j r' Hj) as (r & Hr & ->).
    apply stored_post_insert. apply (HR j r Hr). }
  destruct Hc as [user|userId username|post now|reply now [post Hpost]
                 |userId postId voteType _ _|userId replyId voteType _ _
                 |postId replyId|postId|id authorId|id authorId]; simpl in *.
  - done.
  - unfold updateUsername, bind, read. simpl. by destruct (us !! userId).
  - intros k r Hk. simpl in *. apply stored_post_insert. apply (HR k r Hk).
  - unfold createReply.
    destruct (truthy (Some (ir_postId reply))) as [p|] eqn:Hp; [|done].
    apply truthy_Some in Hp as [[= <-] _].
    intros k r. simpl. rewrite (lookup_insert_Z rs). case_decide.
    + intros [= <-]. simpl. by exists post.
    + apply HR.
  - destruct (createVote_edits (mkInsertVote userId (Some postId) None voteType)
                us ps rs vs)
      as (ps' & rs' & vs' & -> & Hps & Hrs & _); [apply Hdb|].
    by eapply replies_edited.
  - destruct (createVote_edits (mkInsertVote userId None (Some replyId) voteType)
                us ps rs vs)
      as (ps' & rs' & vs' & -> & Hps & Hrs & _); [apply Hdb|].
    by eapply replies_edited.
  - destruct (markAsSolution_effect us ps rs vs postId replyId Hdb)
      as [(e & -> & _)|(post & reply & Hpost & Hreply & Hbelongs & ->)];
      [done|].
    simpl. apply Hretouched; [by exists post|].
    intros j r'. rewrite lookup_insert_Z. case_decide.
    { intros [= <-]. subst j. by exists reply. }
    destruct (truthy (Post.solutionId post)) as [s|]; [|eauto].
    destruct (rs !! s) as [old|] eqn:Hold; [|eauto].
    rewrite (lookup_insert_Z rs). case_decide; [|eauto].
    intros [= <-]. subst j. by exists old.
  - pose proof (removeSolution_effect us ps rs vs postId Hdb) as Hrun.
    destruct (ps !! postId) as [post|] eqn:Hpost; rewrite Hrun; [|done].
    simpl. destruct (truthy (Post.solutionId post)) as [s|]; [|done].
    apply Hretouched; [by exists post|].
    intros j r'. destruct (rs !! s) as [old|] eqn:Hold; [|eauto].
    rewrite (lookup_insert_Z rs). case_decide; [|eauto].
    intros [= <-]. subst j. by exists old.
  - destruct (deletePost_effect us ps rs vs id authorId) as [->| ->]; [done|].
    intros k r. simpl.
    rewrite lookup_difference_Some, map_lookup_filter_None.
    intros [Hk Hkeep]. rewrite lookup_delete_ne; [apply (HR k r Hk)|].
    destruct Hkeep as [Hkeep|Hkeep]; [congruence|].
    intros Heq. by apply (Hkeep r Hk).
  - destruct (deleteReply_effect us ps rs vs id authorId Hdb)
      as [->|(reply & ps' & Hreply & Hps' & ->)]; [done|].
    destruct Hps' as [[-> _]|(post & Hpost & _ & ->)].
    + intros k r Hk. simpl in Hk. apply lookup_delete_Some in Hk as [_ Hk].
      apply (HR k r Hk).
    + apply Hretouched; [by exists post|].
      intros j r' [_ Hj]%lookup_delete_Some. eauto.
Qed.

Lemma served_replies db : served db -> repliesOfStoredPosts db.
Proof.
  revert db. apply served_invariant.
  - intros k r Hk. simpl in Hk. by rewrite lookup_empty in Hk.
  - intros c db Hserved Hc. apply routed_replies; [|done].
    by apply reachable_wf, served_reachable.
Qed.

(** X26: in every state that requests to the routes reach, every stored
    reply is a reply to a stored post: the delete route of a post leaves
    no reply to the post behind, and the reply route stores no reply to
    a missing post. *)
Theorem replies_belong_to_stored_posts db k r :
  served db -> replies db !! k = Some r ->
  is_Some (posts db !! Reply.postId r).
Proof. intros Hserved Hk. by apply (served_replies db Hserved k r). Qed.

Lemma replies_belong_to_stored_posts_witness :
  let db := serve [PostPosts (Some "t") (Some "c") (Some "hardware") "a" 10;
                   PostPosts (Some "t2") (Some "c2") (Some "software") "b" 11;
                   PostReplies 1 (Some "r1") None "c" 12;
                   PostReplies 2 (Some "r2") None "c" 13;
                   DeletePosts (Some 1) (Some "a")] emptyDb in
  is_Some (posts db !! 2).
Proof.
  intros db.
  apply (replies_belong_to_stored_posts db 2
           (Reply.mk 2 "r2" 2 "c" 13 None 0 0 false)).
  - by eexists.
  - vm_compute. reflexivity.
Defined.

(** X27: in a state that requests reach, the route that creates a post
    answers 200 to a body with the three strings, and the new post
    starts empty: no stored reply and no stored vote names its id, also
    when a deleted post had the same id, so that getPost reads it back
    with [replyCount] 0. *)
Theorem new_post_starts_empty db title content category authorId now :
  served db ->
  exists post db',
    postPosts (Some title) (Some content) (Some category) authorId now db
      = (Return (200%nat, PostJson post), db') /\
    (forall k r, replies db' !! k = Some r -> Reply.postId r <> Post.id post) /\
    (forall i v, votes db' !! i = Some v -> Vote.postId v <> Some (Post.id post)) /\
    getPost (Post.id post) db'
      = (Return (Some (setReplyCount (Some 0%nat) post)), db').
Proof.
  intros Hserved.
  pose proof (reachable_wf _ (served_reachable _ Hserved)) as Hdb.
  pose proof (served_replies _ Hserved) as HR.
  destruct (served_counts _ Hserved) as [HW _].
  destruct db as [us ps rs vs].
  destruct (nextId_fresh Post.id ps (wf_posts _ Hdb)) as [Hfresh _].
  eexists _, _. split; [reflexivity|]. simpl.
  assert (forall k r, rs !! k = Some r -> Reply.postId r <> nextId Post.id ps)
    as Hreplies.
  { intros k r Hk Heq. destruct (HR k r Hk) as [p Hp]. simpl in Hp.
    congruence. }
  split; [done|]. split.
  - intros i v Hi Hp. destruct (HW i v Hi) as [_ Hstored].
    destruct (Hstored _ Hp) as [[p Hpost] _]. simpl in Hpost. congruence.
  - unfold getPost, read. simpl. rewrite lookup_insert_eq. simpl.
    match goal with
    | |- context [size ?m] => assert (m = ∅) as ->; [|by rewrite map_size_empty]
    end.
    apply map_eq. intros k.
    rewrite lookup_empty. apply map_lookup_filter_None. right.
    intros r Hk. simpl. by apply (Hreplies k r).
Qed.

Lemma new_post_starts_empty_witness :
  let db := serve [PostPosts (Some "t") (Some "c") (Some "hardware") "a" 10;
                   PostReplies 1 (Some "r1") None "c" 12;
                   PostPostVote 1 (Some "u") (Some "upvote");
                   DeletePosts (Some 1) (Some "a")] emptyDb in
  exists post db',
    postPosts (Some "t2") (Some "c2") (Some "software") "b" 20 db
      = (Return (200%nat, PostJson post), db') /\
    getPost (Post.id post) db'
      = (Return (Some (setReplyCount (Some 0%nat) post)), db').
Proof.
  intros db.
  destruct (new_post_starts_empty db "t2" "c2" "software" "b" 20)
    as (post & db' & Hrun & _ & _ & Hget).
  - by eexists.
  - by exists post, db'.
Defined.

(** X28: the route that changes a username answers 200 exactly when the
    name has 3 to 30 characters, no stored user has it (the user's own
    current name counts as taken) and the user is stored; the user
    stored afterwards then has the name, with id and email as before,
    and nothing else changes; in every other case it answers 400 and the
    database is as it was. *)
Theorem patchUsername_status db id username :
  exists status body db',
    patchUsername id username db = (Return (status, body), db') /\
    ((status = 200%nat /\
      (3 <= String.length username <= 30)%nat /\
      (forall k u, users db !! k = Some u -> User.username u <> username) /\
      exists user,
        users db !! id = Some user /\
        body = inr (setUsername username user) /\
        db' = withUsers (insert id (setUsername username user)) db /\
        exists user',
          users db' !! id = Some user' /\ body = inr user' /\
          User.username user' = username /\
          User.id user' = User.id user /\ User.email user' = User.email user) \/
     (status = 400%nat /\ db' = db /\
      ((String.length username < 3)%nat \/ (30 < String.length username)%nat \/
       (exists k u, users db !! k = Some u /\ User.username u = username) \/
       users db !! id = None))).
Proof.
  destruct db as [us ps rs vs]. unfold patchUsername, tryCatch.
  destruct (Nat.leb_spec 3 (String.length username)) as [Hmin|Hmin]; simpl.
  2:{ eexists _, _, _. split; [done|]. right. auto. }
  destruct (Nat.leb_spec (String.length username) 30) as [Hmax|Hmax]; simpl.
  2:{ eexists _, _, _. split; [done|]. right. auto. }
  unfold getUserByUsername, updateUsername, bind, read. simpl.
  destruct (firstDoc _) as [taken|] eqn:Htaken; simpl.
  { apply firstDoc_Some in Htaken as [k Hk].
    apply map_lookup_filter_Some in Hk as [Hk Hname].
    eexists _, _, _. split; [done|]. right. do 2 (split; [done|]).
    right. right. left. by exists k, taken. }
  destruct (us !! id) as [user|] eqn:Hid; simpl.
  - eexists _, _, _. split; [done|]. left. do 2 (split; [done|]). split.
    + intros k u Hk Hname.
      by apply (firstDoc_filter_None _ _ _ _ Htaken Hk).
    + exists user. do 3 (split; [done|]). eexists. simpl.
      split; [apply lookup_insert_eq|done].
  - eexists _, _, _. split; [done|]. right. auto 6.
Qed.

End ApiFacts.
